(** * Best Papers in Systems Security: filtering and author ranking

    A shallow embedding of [js/main.js]: the filter pipeline of
    [applyFilters], the two author rankings [renderAuthorsRanking] and
    [renderFirstAuthorsRanking], and the year-range slider handlers of
    [setupFilters] and [initYearSlider].  HTML templating is left out; the
    ranking functions return the [authorList] array as it stands when the
    HTML has been built.

    Further on: the grouping of [renderPapers], the authors line of
    [formatAuthors], the rows and the button of the ranking lists with
    [toggleAuthorsList] and [toggleFirstAuthorsList], the page as
    [loadPapers] and the listeners of [setupFilters] drive it, and the hash
    of [initTabFromHash] and [setupTabHashSync].  Of the HTML these keep
    what the script reads back: sections and their papers, rows with their
    hidden class and display style, the text of the button. *)

From Stdlib Require Import String Ascii.
From Stdlib Require Import List ZArith NArith Bool Lia.
From Stdlib Require Import Permutation Sorted.
From Stdlib Require Import DecimalString DecimalZ DecimalPos.
Import ListNotations.

Set Implicit Arguments.
Local Open Scope Z_scope.

(** ** JavaScript strings

    A JavaScript string is a finite sequence of UTF-16 code units.  Strict
    equality [===] on strings is equality of these sequences. *)

Definition jsstring := list N.

(** Literals: the code units of an ASCII string. *)
Definition js (s : string) : jsstring :=
  List.map N_of_ascii (list_ascii_of_string s).
Arguments js s%_string.

Fixpoint jsstring_eqb (s t : jsstring) : bool :=
  match s, t with
  | [], [] => true
  | c :: s', d :: t' => N.eqb c d && jsstring_eqb s' t'
  | _, _ => false
  end.

(** ** Data model: the objects of [data/papers.json] *)

Record Author := mkAuthor {
  name : option jsstring;          (* [None]: the property is missing *)
  institution : option jsstring
}.

(** The [authors] property of a paper: missing, an array of author objects,
    or (as in the older data format) one string. *)
Inductive AuthorsField :=
| AuthorsMissing
| AuthorsText (s : jsstring)
| AuthorsArray (l : list Author).

Record Paper := mkPaper {
  title : jsstring;
  authors : AuthorsField;
  venue : jsstring;
  year : Z;
  award : jsstring;
  url : option jsstring
}.

(** The numbers that the year bounds of the script can hold: integers,
    and the two infinities, which [Math.min()] and [Math.max()] return when
    they are given no argument. *)
Inductive Num :=
| NegInfinity
| Fin (z : Z)
| PosInfinity.


(** [y >= bound] and [y <= bound] for an integer [y]. *)
Definition Num_geb (y : Z) (bound : Num) : bool :=
  match bound with
  | NegInfinity => true
  | Fin z => y >=? z
  | PosInfinity => false
  end.

Definition Num_leb (y : Z) (bound : Num) : bool :=
  match bound with
  | NegInfinity => false
  | Fin z => y <=? z
  | PosInfinity => true
  end.

(** ** Filter engine: [applyFilters]

    The globals [allPapers], [currentVenue], [yearFrom] and [yearTo] are
    arguments; [None] is JavaScript's [null].  The result is the array
    [filtered] handed to the three render functions. *)

Definition applyFilters (allPapers : list Paper) (currentVenue : jsstring)
    (yearFrom yearTo : option Num) : list Paper :=
  let filtered := allPapers in
  let filtered :=
    if negb (jsstring_eqb currentVenue (js "all"))
    then List.filter (fun p => jsstring_eqb (venue p) currentVenue) filtered
    else filtered in
  let filtered :=
    match yearFrom with
    | Some yf => List.filter (fun p => Num_geb (year p) yf) filtered
    | None => filtered
    end in
  let filtered :=
    match yearTo with
    | Some yt => List.filter (fun p => Num_leb (year p) yt) filtered
    | None => filtered
    end in
  filtered.

(** The predicate of the specification's [filter(collection, venue, yearFrom,
    yearTo)]. *)
Definition keeps (v : jsstring) (yFrom yTo : Z) (p : Paper) : bool :=
  (jsstring_eqb v (js "all") || jsstring_eqb (venue p) v)
  && ((yFrom <=? year p) && (year p <=? yTo)).

(** [Subseq l1 l2]: [l1] is obtained from [l2] by deleting elements, the
    remaining ones keeping their relative order. *)
Inductive Subseq (A : Type) : list A -> list A -> Prop :=
| Subseq_nil : Subseq [] []
| Subseq_keep x l1 l2 : Subseq l1 l2 -> Subseq (x :: l1) (x :: l2)
| Subseq_drop x l1 l2 : Subseq l1 l2 -> Subseq l1 (x :: l2).

(** ** Outcomes of a call: normal completion or a thrown [TypeError] *)

Inductive Completion (A : Type) : Type :=
| Normal (a : A)
| ThrowTypeError.
Arguments ThrowTypeError {A}.

Definition bind (A B : Type) (c : Completion A) (k : A -> Completion B)
  : Completion B :=
  match c with
  | Normal a => k a
  | ThrowTypeError => ThrowTypeError
  end.

(** The value of a completion, [d] after a throw. *)
Definition valueOr (A : Type) (d : A) (c : Completion A) : A :=
  match c with
  | Normal a => a
  | ThrowTypeError => d
  end.

(** [Array.prototype.forEach] with a callback that updates captured state
    [S] and may throw. *)
Fixpoint forEach (A S : Type) (f : A -> S -> Completion S) (l : list A) (s : S)
  : Completion S :=
  match l with
  | [] => Normal s
  | x :: l' => bind (f x s) (forEach f l')
  end.

(** ** [Array.prototype.sort] with a comparator

    ECMAScript requires the sort to be stable; with a consistent comparator
    the result is the one stable sorted arrangement, computed here by
    insertion.  [cmp a b <= 0] keeps [a] in front of [b]. *)
Section ArraySort.
Variable A : Type.
Variable cmp : A -> A -> Z.

Fixpoint sort_insert (x : A) (l : list A) : list A :=
  match l with
  | [] => [x]
  | y :: l' => if cmp x y <=? 0 then x :: l else y :: sort_insert x l'
  end.

Definition Array_sort (l : list A) : list A := fold_right sort_insert [] l.
End ArraySort.

(** ** String helpers used by [getSurname] *)

(** WhiteSpace and LineTerminator code units: what [trim] strips and what
    the regular expression class [\s] matches. *)
Definition isWhiteSpace (c : N) : bool :=
  existsb (N.eqb c)
    [9; 10; 11; 12; 13; 32; 160; 5760; 8232; 8233; 8239; 8287; 12288; 65279]%N
  || ((8192 <=? c)%N && (c <=? 8202)%N).

Fixpoint trimStart (s : jsstring) : jsstring :=
  match s with
  | [] => []
  | c :: s' => if isWhiteSpace c then trimStart s' else s
  end.

Definition trimEnd (s : jsstring) : jsstring := rev (trimStart (rev s)).

Definition trim (s : jsstring) : jsstring := trimEnd (trimStart s).

(** [s.split(/\s+/)]: [inSep] tells that the previous code unit belonged to
    a separator, [cur] is the current piece, reversed. *)
Fixpoint split_aux (inSep : bool) (cur : jsstring) (s : jsstring)
  : list jsstring :=
  match s with
  | [] => [rev cur]
  | c :: s' =>
      if isWhiteSpace c
      then if inSep then split_aux true [] s'
           else rev cur :: split_aux true [] s'
      else split_aux false (c :: cur) s'
  end.

Definition split_ws (s : jsstring) : list jsstring := split_aux false [] s.

Definition getSurname (name : jsstring) : jsstring :=
  let parts := split_ws (trim name) in
  last parts [].

(** ** Plain objects used as maps: [authorPapers]

    Own properties are kept in creation order.  A property read also sees
    the properties inherited from [Object.prototype]. *)

Definition PropMap (V : Type) := list (jsstring * V).

Definition Object_prototype_keys : list jsstring :=
  List.map js
    ["constructor"; "__defineGetter__"; "__defineSetter__"; "hasOwnProperty";
     "__lookupGetter__"; "__lookupSetter__"; "isPrototypeOf";
     "propertyIsEnumerable"; "toString"; "valueOf"; "__proto__";
     "toLocaleString"]%string.

Definition inherited (k : jsstring) : bool :=
  existsb (jsstring_eqb k) Object_prototype_keys.

Inductive PropValue (V : Type) : Type :=
| Undefined
| Inherited                 (* a function or object of [Object.prototype] *)
| Own (v : V).
Arguments Undefined {V}.
Arguments Inherited {V}.

Fixpoint getOwn (V : Type) (o : PropMap V) (k : jsstring) : option V :=
  match o with
  | [] => None
  | (k', v) :: o' => if jsstring_eqb k' k then Some v else getOwn o' k
  end.

Definition getProp (V : Type) (o : PropMap V) (k : jsstring) : PropValue V :=
  match getOwn o k with
  | Some v => Own v
  | None => if inherited k then Inherited else Undefined
  end.

(** [o[k] = v] for a key that is own or not inherited. *)
Fixpoint setOwn (V : Type) (o : PropMap V) (k : jsstring) (v : V) : PropMap V :=
  match o with
  | [] => [(k, v)]
  | (k', v') :: o' =>
      if jsstring_eqb k' k then (k', v) :: o' else (k', v') :: setOwn o' k v
  end.

(** Array indices (canonical numeric strings below 2^32 - 1) are
    enumerated first, in ascending numeric order, then the other keys in
    creation order. *)
Definition isDigit (c : N) : bool := ((48 <=? c) && (c <=? 57))%N.

Definition digitsValue (s : jsstring) : N :=
  fold_left (fun acc c => 10 * acc + (c - 48))%N s 0%N.

Definition arrayIndex (k : jsstring) : option N :=
  match k with
  | [] => None
  | c :: rest =>
      if forallb isDigit k
         && (negb (c =? 48)%N || match rest with [] => true | _ => false end)
         && (digitsValue k <? 4294967295)%N
      then Some (digitsValue k) else None
  end.

Definition isIndexKey (V : Type) (kv : jsstring * V) : bool :=
  match arrayIndex (fst kv) with Some _ => true | None => false end.

Definition indexValue (V : Type) (kv : jsstring * V) : Z :=
  match arrayIndex (fst kv) with Some i => Z.of_N i | None => 0 end.

Definition Object_entries (V : Type) (o : PropMap V) : list (jsstring * V) :=
  Array_sort (fun a b => indexValue a - indexValue b)
             (List.filter (@isIndexKey V) o)
  ++ List.filter (fun kv => negb (isIndexKey kv)) o.

(** ** Ranking engine: [renderAuthorsRanking], [renderFirstAuthorsRanking]

    An element of [authorList]: [{ name, papers, count }], to which the rank
    loop adds [rank].  [P] is what [papers] holds: the array itself in the
    value model below, its address in the store model further down. *)

Record AuthorEntry (P : Type) := mkEntry {
  entry_name : jsstring;
  entry_papers : P;
  count : nat;
  rank : option nat            (* [None] until the rank loop has run *)
}.

Definition AuthorPapers := PropMap (list Paper).

(** [if (!authorPapers[name]) authorPapers[name] = [];
     authorPapers[name].push(paper);]
    A name inherited from [Object.prototype] reads as a truthy value with
    no [push] method, and the call throws. *)
Definition pushCredit (paper : Paper) (name : jsstring)
    (authorPapers : AuthorPapers) : Completion AuthorPapers :=
  let authorPapers :=
    match getProp authorPapers name with
    | Undefined => setOwn authorPapers name []
    | _ => authorPapers
    end in
  match getProp authorPapers name with
  | Own arr => Normal (setOwn authorPapers name (arr ++ [paper]))
  | _ => ThrowTypeError
  end.

(** [!name] is false exactly for a present, non-empty string. *)
Definition creditName (paper : Paper) (name : option jsstring)
    (authorPapers : AuthorPapers) : Completion AuthorPapers :=
  match name with
  | Some (c :: s) => pushCredit paper (c :: s) authorPapers
  | _ => Normal authorPapers
  end.

(** Callback of [paper.authors.forEach] in [renderAuthorsRanking]. *)
Definition eachAuthor (paper : Paper) (author : Author)
    (authorPapers : AuthorPapers) : Completion AuthorPapers :=
  creditName paper (name author) authorPapers.

(** Callback of [papers.forEach] in [renderAuthorsRanking]. *)
Definition eachPaperAll (paper : Paper) (authorPapers : AuthorPapers)
  : Completion AuthorPapers :=
  match authors paper with
  | AuthorsArray l => forEach (eachAuthor paper) l authorPapers
  | _ => Normal authorPapers
  end.

(** Callback of [papers.forEach] in [renderFirstAuthorsRanking]. *)
Definition eachPaperFirst (paper : Paper) (authorPapers : AuthorPapers)
  : Completion AuthorPapers :=
  match authors paper with
  | AuthorsArray (firstAuthor :: _) =>
      creditName paper (name firstAuthor) authorPapers
  | _ => Normal authorPapers
  end.

(** [author.count !== previousCount], [previousCount] starting as [null]. *)
Definition countChanged (c : nat) (previousCount : option nat) : bool :=
  match previousCount with
  | None => true
  | Some c' => negb (Nat.eqb c c')
  end.

(** The rank loop: [authorList.forEach(author => ...)] with the captured
    [previousCount] and [currentRank]. *)
Fixpoint assignRanks (P : Type) (previousCount : option nat)
    (currentRank : nat) (authorList : list (AuthorEntry P))
  : list (AuthorEntry P) :=
  match authorList with
  | [] => []
  | author :: rest =>
      let currentRank :=
        if countChanged (count author) previousCount
        then S currentRank else currentRank in
      mkEntry (entry_name author) (entry_papers author) (count author)
              (Some currentRank)
      :: assignRanks (Some (count author)) currentRank rest
  end.

(** Comparator of [author.papers.sort((a, b) => b.year - a.year)]. *)
Definition compareYear (a b : Paper) : Z := year b - year a.

Definition sortPapers (author : AuthorEntry (list Paper))
  : AuthorEntry (list Paper) :=
  mkEntry (entry_name author) (Array_sort compareYear (entry_papers author))
          (count author) (rank author).

Section RankingEngine.
(** [String.prototype.localeCompare] of the host, as a number. *)
Variable localeCompare : jsstring -> jsstring -> Z.

(** Comparator of the [authorList] sort. *)
Definition compareAuthors (P : Type) (a b : AuthorEntry P) : Z :=
  if negb (Nat.eqb (count b) (count a))
  then Z.of_nat (count b) - Z.of_nat (count a)
  else localeCompare (getSurname (entry_name a)) (getSurname (entry_name b)).

(** Everything after the aggregation; the two functions share this text.
    An empty [authorList] returns before the rank loop. *)
Definition rankAuthors (authorPapers : AuthorPapers)
  : list (AuthorEntry (list Paper)) :=
  let authorList :=
    Array_sort (@compareAuthors (list Paper))
      (List.map (fun e => mkEntry (fst e) (snd e) (length (snd e)) None)
                (Object_entries authorPapers)) in
  match authorList with
  | [] => []
  | _ => List.map sortPapers (assignRanks None 0 authorList)
  end.

Definition renderAuthorsRanking (papers : list Paper)
  : Completion (list (AuthorEntry (list Paper))) :=
  bind (forEach eachPaperAll papers []) (fun authorPapers =>
  Normal (rankAuthors authorPapers)).

Definition renderFirstAuthorsRanking (papers : list Paper)
  : Completion (list (AuthorEntry (list Paper))) :=
  bind (forEach eachPaperFirst papers []) (fun authorPapers =>
  Normal (rankAuthors authorPapers)).
End RankingEngine.

(** ** Who is credited: the description the theorems compare against *)

(** The name of an author record as far as the aggregation sees it: a
    present, non-empty string. *)
Definition truthyName (a : Author) : list jsstring :=
  match name a with
  | Some (c :: s) => [c :: s]
  | _ => []
  end.

(** Names credited by one paper, in the order the code meets them. *)
Definition namesAll (p : Paper) : list jsstring :=
  match authors p with
  | AuthorsArray l => flat_map truthyName l
  | _ => []
  end.

Definition namesFirst (p : Paper) : list jsstring :=
  match authors p with
  | AuthorsArray (a :: _) => truthyName a
  | _ => []
  end.

Definition Credit := (jsstring * Paper)%type.

Definition credits (names : Paper -> list jsstring) (papers : list Paper)
  : list Credit :=
  flat_map (fun p => List.map (fun n => (n, p)) (names p)) papers.

(** The papers credited to [n], one occurrence per credit, in input order. *)
Definition creditedTo (n : jsstring) (cs : list Credit) : list Paper :=
  List.map snd (List.filter (fun c => jsstring_eqb (fst c) n) cs).

Definition pushCredits (cs : list Credit) (authorPapers : AuthorPapers)
  : Completion AuthorPapers :=
  forEach (fun c => pushCredit (snd c) (fst c)) cs authorPapers.

(** What the array of a name becomes when further credits arrive. *)
Definition extend (old : option (list Paper)) (new : list Paper)
  : option (list Paper) :=
  match old, new with
  | Some l, _ => Some (l ++ new)
  | None, [] => None
  | None, _ :: _ => Some new
  end.

(** Own keys are distinct and none shadows [Object.prototype]. *)
Definition WellFormed (V : Type) (o : PropMap V) : Prop :=
  NoDup (List.map fst o)
  /\ forall k, In k (List.map fst o) -> inherited k = false.

(** Both rankings, as the credits of the chosen names followed by the shared
    tail. *)
Definition ranking (localeCompare : jsstring -> jsstring -> Z)
    (names : Paper -> list jsstring) (papers : list Paper)
  : Completion (list (AuthorEntry (list Paper))) :=
  bind (pushCredits (credits names papers) [])
       (fun authorPapers => Normal (rankAuthors localeCompare authorPapers)).

(** An author record whose name is exactly [X]. *)
Definition namedExactly (X : jsstring) (a : Author) : bool :=
  match name a with
  | Some n => jsstring_eqb n X
  | None => false
  end.

(** How many records of the paper's author list are named [X]. *)
Definition recordsNamed (X : jsstring) (p : Paper) : nat :=
  match authors p with
  | AuthorsArray l => length (List.filter (namedExactly X) l)
  | _ => 0%nat
  end.

(** The paper's author list contains a record named [X], at any position. *)
Definition hasAuthor (X : jsstring) (p : Paper) : bool :=
  match authors p with
  | AuthorsArray l => existsb (namedExactly X) l
  | _ => false
  end.

(** The record at index 0 of the paper's author list is named [X]. *)
Definition firstAuthorIs (X : jsstring) (p : Paper) : bool :=
  match authors p with
  | AuthorsArray (a :: _) => namedExactly X a
  | _ => false
  end.

Definition papersWithAuthor (X : jsstring) (papers : list Paper) : nat :=
  length (List.filter (hasAuthor X) papers).

Definition authorRecordsNamed (X : jsstring) (papers : list Paper) : nat :=
  list_sum (List.map (recordsNamed X) papers).

(** The input papers, each repeated once per author record named [X]. *)
Definition papersCrediting (X : jsstring) (papers : list Paper) : list Paper :=
  flat_map (fun p => repeat p (recordsNamed X p)) papers.

(** The count the ranking shows for [X]: that of the entry named [X], or 0
    when there is none. *)
Definition creditedCount (P : Type) (X : jsstring) (es : list (AuthorEntry P))
  : nat :=
  match find (fun e => jsstring_eqb (entry_name e) X) es with
  | Some e => count e
  | None => 0%nat
  end.

(** The two aggregation modes of the specification's [rank(papers, mode)]:
    each stands for one of the two functions of the script. *)
Inductive AuthorSelector := ALL_AUTHORS | FIRST_AUTHOR_ONLY.

Definition render (localeCompare : jsstring -> jsstring -> Z)
    (mode : AuthorSelector) (papers : list Paper)
  : Completion (list (AuthorEntry (list Paper))) :=
  match mode with
  | ALL_AUTHORS => renderAuthorsRanking localeCompare papers
  | FIRST_AUTHOR_ONLY => renderFirstAuthorsRanking localeCompare papers
  end.

Definition eachPaper (mode : AuthorSelector)
  : Paper -> AuthorPapers -> Completion AuthorPapers :=
  match mode with
  | ALL_AUTHORS => eachPaperAll
  | FIRST_AUTHOR_ONLY => eachPaperFirst
  end.

Definition selected (mode : AuthorSelector) : Paper -> list jsstring :=
  match mode with
  | ALL_AUTHORS => namesAll
  | FIRST_AUTHOR_ONLY => namesFirst
  end.

(** How many times a paper credits [X] under a mode. *)
Definition timesCredited (mode : AuthorSelector) (X : jsstring) (p : Paper)
  : nat :=
  match mode with
  | ALL_AUTHORS => recordsNamed X p
  | FIRST_AUTHOR_ONLY => if firstAuthorIs X p then 1%nat else 0%nat
  end.

(** The papers crediting [X] under a mode: the input collection in its
    order, each paper as many times as it credits [X]. *)
Definition creditedPapers (mode : AuthorSelector) (X : jsstring)
    (papers : list Paper) : list Paper :=
  flat_map (fun p => repeat p (timesCredited mode X p)) papers.

(** The [authors] property is missing or is not an array. *)
Definition notArray (p : Paper) : Prop :=
  authors p = AuthorsMissing \/ exists s, authors p = AuthorsText s.

(** The specification's surname key: [key] is the last
    whitespace-separated token of [s].  It is a block without whitespace,
    followed in [s] by whitespace only, preceded by whitespace or by
    nothing, and empty only when [s] has no token at all. *)
Definition LastToken (s key : jsstring) : Prop :=
  exists pre post,
    s = pre ++ key ++ post
    /\ Forall (fun c => isWhiteSpace c = true) post
    /\ Forall (fun c => isWhiteSpace c = false) key
    /\ (pre = [] \/ exists pre' c, pre = pre' ++ [c] /\ isWhiteSpace c = true)
    /\ (key = [] -> Forall (fun c => isWhiteSpace c = true) s).

(** The longest prefix without whitespace. *)
Fixpoint takeToken (s : jsstring) : jsstring :=
  match s with
  | [] => []
  | c :: s' => if isWhiteSpace c then [] else c :: takeToken s'
  end.

(** Count and rank of two entries, the first standing before the second. *)
Definition AheadOf (P : Type) (a b : AuthorEntry P) : Prop :=
  exists ra rb, rank a = Some ra /\ rank b = Some rb
    /\ ((count a = count b /\ ra = rb)
        \/ ((count b < count a)%nat /\ (ra < rb)%nat)).

(** ** Year range state: [loadPapers], [initYearSlider], [setupFilters]

    The two range inputs of the page and the globals tied to them.  The
    bounds are integers once a collection with a paper is loaded; for a
    collection without papers [Math.min()] and [Math.max()] make them
    infinite. *)

(** [Math.min(...years)] and [Math.max(...years)]. *)
Definition Math_min (years : list Z) : Num :=
  match years with
  | [] => PosInfinity
  | y :: years' => Fin (fold_left Z.min years' y)
  end.

Definition Math_max (years : list Z) : Num :=
  match years with
  | [] => NegInfinity
  | y :: years' => Fin (fold_left Z.max years' y)
  end.

(** A range input with step 1: the [min] and [max] it was given and its
    value, which the browser keeps an integer. *)
Record Slider := mkSlider {
  slider_min : Num;
  slider_max : Num;
  slider_value : Z
}.

(** The minimum and the maximum the browser works with: those given when
    they are numbers it can read, 0 and 100 otherwise. *)
Definition minimum (sl : Slider) : Z :=
  match slider_min sl with
  | Fin z => z
  | _ => 0
  end.

Definition maximum (sl : Slider) : Z :=
  match slider_max sl with
  | Fin z => z
  | _ => 100
  end.

(** The value the browser falls back on: half way between minimum and
    maximum, rounded up to a step, and the minimum when the maximum is
    below it. *)
Definition defaultValue (sl : Slider) : Z :=
  if maximum sl <? minimum sl then minimum sl
  else minimum sl + (maximum sl - minimum sl + 1) / 2.

(** Writing the [value] of a range input: a value the browser cannot read
    as a number is replaced by the default, then the browser brings the
    value back to the minimum on underflow and, when the maximum is not
    below the minimum, to the maximum on overflow. *)
Definition setValue (sl : Slider) (v : Num) : Slider :=
  let v :=
    match v with
    | Fin z => z
    | _ => defaultValue sl
    end in
  let v :=
    if v <? minimum sl then minimum sl
    else if (maximum sl <? v) && (minimum sl <=? maximum sl)
         then maximum sl
         else v in
  mkSlider (slider_min sl) (slider_max sl) v.

Record YearRange := mkYearRange {
  yearFrom : option Num;          (* [None] is [null] *)
  yearTo : option Num;
  minYear : Num;
  maxYear : Num;
  sliderFrom : Slider;
  sliderTo : Slider
}.

Definition initYearSlider (s : YearRange) : YearRange :=
  let sliderFrom :=
    setValue (mkSlider (minYear s) (maxYear s) (slider_value (sliderFrom s)))
             (minYear s) in
  let sliderTo :=
    setValue (mkSlider (minYear s) (maxYear s) (slider_value (sliderTo s)))
             (maxYear s) in
  mkYearRange (Some (minYear s)) (Some (maxYear s)) (minYear s) (maxYear s)
              sliderFrom sliderTo.

(** The part of [loadPapers] that sets the year range. *)
Definition loadPapers (s : YearRange) (allPapers : list Paper) : YearRange :=
  let years := List.map year allPapers in
  let minYear := Math_min years in
  let maxYear := Math_max years in
  initYearSlider
    (mkYearRange (yearFrom s) (yearTo s) minYear maxYear
                 (sliderFrom s) (sliderTo s)).

(** Listener of [input] on [sliderFrom]. *)
Definition onInputFrom (s : YearRange) : YearRange :=
  let val := slider_value (sliderFrom s) in
  if val >? slider_value (sliderTo s)
  then
    let val := slider_value (sliderTo s) in
    mkYearRange (Some (Fin val)) (yearTo s) (minYear s) (maxYear s)
                (setValue (sliderFrom s) (Fin val)) (sliderTo s)
  else
    mkYearRange (Some (Fin val)) (yearTo s) (minYear s) (maxYear s)
                (sliderFrom s) (sliderTo s).

(** Listener of [input] on [sliderTo]. *)
Definition onInputTo (s : YearRange) : YearRange :=
  let val := slider_value (sliderTo s) in
  if val <? slider_value (sliderFrom s)
  then
    let val := slider_value (sliderFrom s) in
    mkYearRange (yearFrom s) (Some (Fin val)) (minYear s) (maxYear s)
                (sliderFrom s) (setValue (sliderTo s) (Fin val))
  else
    mkYearRange (yearFrom s) (Some (Fin val)) (minYear s) (maxYear s)
                (sliderFrom s) (sliderTo s).

(** Listener of [click] on the reset button. *)
Definition onReset (s : YearRange) : YearRange :=
  mkYearRange (Some (minYear s)) (Some (maxYear s)) (minYear s) (maxYear s)
              (setValue (sliderFrom s) (minYear s))
              (setValue (sliderTo s) (maxYear s)).

(** What the user does: drag a thumb to [v] (the browser stores the value,
    then fires [input]) or click reset. *)
Inductive Event :=
| DragFrom (v : Z)
| DragTo (v : Z)
| ClickReset.

Definition handle (s : YearRange) (e : Event) : YearRange :=
  match e with
  | DragFrom v =>
      onInputFrom (mkYearRange (yearFrom s) (yearTo s) (minYear s) (maxYear s)
                               (setValue (sliderFrom s) (Fin v)) (sliderTo s))
  | DragTo v =>
      onInputTo (mkYearRange (yearFrom s) (yearTo s) (minYear s) (maxYear s)
                             (sliderFrom s) (setValue (sliderTo s) (Fin v)))
  | ClickReset => onReset s
  end.

Definition handleAll (events : list Event) (s : YearRange) : YearRange :=
  fold_left handle events s.

(** The bounds are the integers [lo] and [hi], the range shown by the
    sliders is the range held in the globals, it is not inverted and lies
    within the bounds. *)
Definition InRangeOf (lo hi : Z) (s : YearRange) : Prop :=
  minYear s = Fin lo
  /\ maxYear s = Fin hi
  /\ slider_min (sliderFrom s) = Fin lo
  /\ slider_max (sliderFrom s) = Fin hi
  /\ slider_min (sliderTo s) = Fin lo
  /\ slider_max (sliderTo s) = Fin hi
  /\ yearFrom s = Some (Fin (slider_value (sliderFrom s)))
  /\ yearTo s = Some (Fin (slider_value (sliderTo s)))
  /\ lo <= slider_value (sliderFrom s)
  /\ slider_value (sliderFrom s) <= slider_value (sliderTo s)
  /\ slider_value (sliderTo s) <= hi.

Definition InRange (s : YearRange) : Prop :=
  exists lo hi, InRangeOf lo hi s.


(** ** The ranking functions over a store

    Here arrays and paper objects live in a store and are passed by
    address, as in the script: [papers] is the address of the input array,
    [authorPapers] maps a name to the address of an array created by [[]],
    [push] and [sort] update arrays in place.  An outcome comes with the
    store it leaves behind. *)

Definition Ref := nat.          (* address of a paper object *)
Definition Loc := nat.          (* address of an array *)

Record Store := mkStore {
  objects : list Paper;
  arrays : list (list Ref)
}.

Definition StoreM (A : Type) := Store -> Completion A * Store.

Definition ret (A : Type) (a : A) : StoreM A := fun st => (Normal a, st).

Definition throw (A : Type) : StoreM A := fun st => (ThrowTypeError, st).

Definition bindS (A B : Type) (m : StoreM A) (k : A -> StoreM B) : StoreM B :=
  fun st =>
    match m st with
    | (Normal a, st') => k a st'
    | (ThrowTypeError, st') => (ThrowTypeError, st')
    end.

Notation "x <- m ;; k" := (bindS m (fun x => k))
  (at level 61, m at next level, right associativity).

Fixpoint replaceAt (A : Type) (n : nat) (x : A) (l : list A) : list A :=
  match l, n with
  | [], _ => []
  | _ :: l', O => x :: l'
  | y :: l', S n' => y :: replaceAt n' x l'
  end.

(** [[]]: a new array. *)
Definition newArray : StoreM Loc :=
  fun st => (Normal (length (arrays st)),
             mkStore (objects st) (arrays st ++ [[]])).

Definition readArray (l : Loc) : StoreM (list Ref) :=
  fun st =>
    match nth_error (arrays st) l with
    | Some a => (Normal a, st)
    | None => (ThrowTypeError, st)
    end.

Definition writeArray (l : Loc) (a : list Ref) : StoreM unit :=
  fun st => (Normal tt, mkStore (objects st) (replaceAt l a (arrays st))).

(** [arr.push(r)] *)
Definition pushArray (l : Loc) (r : Ref) : StoreM unit :=
  a <- readArray l ;; writeArray l (a ++ [r]).

(** Reading a property of the element [r] of an array; an element that is
    no object ([null], [undefined]) makes the read throw. *)
Definition getPaper (r : Ref) : StoreM Paper :=
  fun st =>
    match nth_error (objects st) r with
    | Some p => (Normal p, st)
    | None => (ThrowTypeError, st)
    end.

(** [forEach] over an array held by value (the authors of a paper, the
    local [authorList]). *)
Fixpoint forEachM (A S : Type) (f : A -> S -> StoreM S) (l : list A) (s : S)
  : StoreM S :=
  match l with
  | [] => ret s
  | x :: l' => s' <- f x s ;; forEachM f l' s'
  end.

(** [forEach] over an array of the store: the length is read once, each
    element when its turn comes. *)
Fixpoint forEachFrom (S : Type) (arr : Loc) (f : Ref -> S -> StoreM S)
    (k n : nat) (s : S) : StoreM S :=
  match n with
  | O => ret s
  | Datatypes.S n' =>
      fun st =>
        match nth_error (arrays st) arr with
        | Some a =>
            match nth_error a k with
            | Some r =>
                (s' <- f r s ;; forEachFrom arr f (Datatypes.S k) n' s') st
            | None => forEachFrom arr f (Datatypes.S k) n' s st
            end
        | None => (ThrowTypeError, st)
        end
  end.

Definition Array_forEach (S : Type) (arr : Loc) (f : Ref -> S -> StoreM S)
    (s : S) : StoreM S :=
  a <- readArray arr ;; forEachFrom arr f 0 (length a) s.

Definition pushCreditS (paper : Ref) (name : jsstring)
    (authorPapers : PropMap Loc) : StoreM (PropMap Loc) :=
  authorPapers <-
    match getProp authorPapers name with
    | Undefined => l <- newArray ;; ret (setOwn authorPapers name l)
    | _ => ret authorPapers
    end ;;
  match getProp authorPapers name with
  | Own l => _ <- pushArray l paper ;; ret authorPapers
  | _ => throw _
  end.

Definition creditNameS (paper : Ref) (name : option jsstring)
    (authorPapers : PropMap Loc) : StoreM (PropMap Loc) :=
  match name with
  | Some (c :: s) => pushCreditS paper (c :: s) authorPapers
  | _ => ret authorPapers
  end.

Definition eachAuthorS (paper : Ref) (author : Author)
    (authorPapers : PropMap Loc) : StoreM (PropMap Loc) :=
  creditNameS paper (name author) authorPapers.

Definition eachPaperAllS (paper : Ref) (authorPapers : PropMap Loc)
  : StoreM (PropMap Loc) :=
  p <- getPaper paper ;;
  match authors p with
  | AuthorsArray l => forEachM (eachAuthorS paper) l authorPapers
  | _ => ret authorPapers
  end.

Definition eachPaperFirstS (paper : Ref) (authorPapers : PropMap Loc)
  : StoreM (PropMap Loc) :=
  p <- getPaper paper ;;
  match authors p with
  | AuthorsArray (firstAuthor :: _) =>
      creditNameS paper (name firstAuthor) authorPapers
  | _ => ret authorPapers
  end.

(** [Object.entries(authorPapers).map(([name, papers]) =>
      ({ name, papers, count: papers.length }))] *)
Fixpoint entriesS (es : list (jsstring * Loc))
  : StoreM (list (AuthorEntry Loc)) :=
  match es with
  | [] => ret []
  | e :: es' =>
      a <- readArray (snd e) ;;
      rest <- entriesS es' ;;
      ret (mkEntry (fst e) (snd e) (length a) None :: rest)
  end.

Definition yearOf (st : Store) (r : Ref) : Z :=
  match nth_error (objects st) r with
  | Some p => year p
  | None => 0
  end.

(** [author.papers.sort((a, b) => b.year - a.year).map(p => ...)]: the
    array is sorted in place.  The comparator and the [map] that follows
    read the elements, each of which was read already when it was pushed. *)
Definition sortPapersS (author : AuthorEntry Loc) (u : unit) : StoreM unit :=
  a <- readArray (entry_papers author) ;;
  _ <- forEachM (fun r u => _ <- getPaper r ;; ret u) a u ;;
  fun st =>
    writeArray (entry_papers author)
      (Array_sort (fun x y => yearOf st y - yearOf st x) a) st.

Definition rankAuthorsS (localeCompare : jsstring -> jsstring -> Z)
    (authorPapers : PropMap Loc) : StoreM (list (AuthorEntry Loc)) :=
  entries <- entriesS (Object_entries authorPapers) ;;
  let authorList := Array_sort (@compareAuthors localeCompare Loc) entries in
  match authorList with
  | [] => ret []
  | _ =>
      let authorList := assignRanks None 0 authorList in
      _ <- forEachM sortPapersS authorList tt ;;
      ret authorList
  end.

Definition renderStore (localeCompare : jsstring -> jsstring -> Z)
    (mode : AuthorSelector) (papers : Loc) : StoreM (list (AuthorEntry Loc)) :=
  authorPapers <-
    Array_forEach papers
      (match mode with
       | ALL_AUTHORS => eachPaperAllS
       | FIRST_AUTHOR_ONLY => eachPaperFirstS
       end) [] ;;
  rankAuthorsS localeCompare authorPapers.

(** *** How a store run relates to the value model *)

(** [st] has the paper objects of [s0] and its arrays, followed by arrays
    created since. *)
Definition Extends (s0 st : Store) : Prop :=
  objects st = objects s0
  /\ exists fresh, arrays st = arrays s0 ++ fresh.

(** The references [refs] are the addresses of the paper objects [ps]. *)
Definition Resolves (s0 : Store) (refs : list Ref) (ps : list Paper) : Prop :=
  Forall2 (fun r p => nth_error (objects s0) r = Some p) refs ps.

(** The array at [l] was created after [s0]; it holds references taken
    from [input], to the papers [ps]. *)
Definition Holds (s0 : Store) (input : list Ref) (st : Store) (l : Loc)
    (ps : list Paper) : Prop :=
  (length (arrays s0) <= l)%nat
  /\ exists refs, nth_error (arrays st) l = Some refs
       /\ Resolves s0 refs ps
       /\ incl refs input.

Definition MapRel (s0 : Store) (input : list Ref) (st : Store)
    (apS : PropMap Loc) (ap : AuthorPapers) : Prop :=
  Forall2 (fun a b => fst a = fst b /\ Holds s0 input st (snd a) (snd b))
          apS ap
  /\ NoDup (List.map snd apS).

Definition EntryRel (s0 : Store) (input : list Ref) (st : Store)
    (e : AuthorEntry Loc) (e0 : AuthorEntry (list Paper)) : Prop :=
  entry_name e = entry_name e0
  /\ count e = count e0
  /\ rank e = rank e0
  /\ Holds s0 input st (entry_papers e) (entry_papers e0).

(** A store computation started in [st] ends as the value computation [c]
    does, in a store that extends [s0], with related results. *)
Definition Sim (s0 : Store) (A B : Type) (Rel : Store -> A -> B -> Prop)
    (m : StoreM A) (st : Store) (c : Completion B) : Prop :=
  match c with
  | Normal b =>
      exists a st', m st = (Normal a, st') /\ Extends s0 st' /\ Rel st' a b
  | ThrowTypeError =>
      exists st', m st = (ThrowTypeError, st') /\ Extends s0 st'
  end.

(** ** Papers by year: [renderPapers]

    [papersByYear] is a plain object as [authorPapers] is; its keys are the
    years turned into strings. *)

(** The integers that a JavaScript number holds exactly and writes with
    all their digits: those up to [Number.MAX_SAFE_INTEGER] in absolute
    value. *)
Definition MAX_SAFE_INTEGER : Z := 9007199254740991.

Definition SafeYears (papers : list Paper) : Prop :=
  forall p, In p papers -> Z.abs (year p) <= MAX_SAFE_INTEGER.

(** [String(y)] for a safe integer [y]: its decimal digits, after a minus
    sign when it is negative.  Beyond the safe integers JavaScript writes
    the shortest digits that give the number back, and an exponent from
    10^21 on; what depends on the text of a key is stated for [SafeYears]. *)
Definition yearKey (y : Z) : jsstring :=
  js (NilZero.string_of_int (Z.to_int y)).

(** [Number(s)] where [s] is empty or a run of decimal digits, possibly
    after a minus sign, that stands for a safe integer.  [None] stands for
    every other string; none of them is a key that [renderPapers] creates
    for [SafeYears]. *)
Definition toNumber (s : jsstring) : option Z :=
  match s with
  | [] => Some 0
  | c :: r =>
      if (c =? 45)%N
      then match r with
           | [] => None
           | _ :: _ =>
               if forallb isDigit r then Some (- Z.of_N (digitsValue r))
               else None
           end
      else if forallb isDigit s then Some (Z.of_N (digitsValue s)) else None
  end.

(** Comparator of [Object.keys(papersByYear).sort((a, b) => b - a)]; a
    difference that is no number counts as 0. *)
Definition compareKeys (a b : jsstring) : Z :=
  match toNumber a, toNumber b with
  | Some x, Some y => y - x
  | _, _ => 0
  end.

(** Callback of [papers.forEach] in [renderPapers]: the two statements are
    those of [pushCredit], with the year as the property name. *)
Definition groupByYear (paper : Paper) (papersByYear : PropMap (list Paper))
  : Completion (PropMap (list Paper)) :=
  pushCredit paper (yearKey (year paper)) papersByYear.

(** What [papers-container] shows: a message, or one section per year with
    its header and its papers, in document order. *)
Inductive PapersView :=
| NoPapersFound
| YearSections (sections : list (jsstring * list Paper))
| ErrorLoadingPapers.

(** Callback of [years.forEach]: [papersByYear[year].forEach] throws unless
    the property holds an array. *)
Definition yearSection (papersByYear : PropMap (list Paper)) (year : jsstring)
    (html : list (jsstring * list Paper))
  : Completion (list (jsstring * list Paper)) :=
  match getProp papersByYear year with
  | Own papers => Normal (html ++ [(year, papers)])
  | _ => ThrowTypeError
  end.

Definition renderPapers (papers : list Paper) : Completion PapersView :=
  match papers with
  | [] => Normal NoPapersFound
  | _ :: _ =>
      bind (forEach groupByYear papers []) (fun papersByYear =>
      let years :=
        Array_sort compareKeys (List.map fst (Object_entries papersByYear)) in
      bind (forEach (yearSection papersByYear) years []) (fun html =>
      Normal (YearSections html)))
  end.

(** The year of a paper as the only name it is filed under. *)
Definition yearName (p : Paper) : list jsstring := [yearKey (year p)].

(** The sections for the years [ys] of a collection. *)
Definition sectionsOf (papers : list Paper) (ys : list Z)
  : list (jsstring * list Paper) :=
  List.map (fun y => (yearKey y, List.filter (fun p => year p =? y) papers)) ys.

(** Sections cut down to the papers that [g] keeps, those left without a
    paper dropped. *)
Definition restrictSections (g : Paper -> bool)
    (sections : list (jsstring * list Paper)) : list (jsstring * list Paper) :=
  List.filter (fun s => match snd s with [] => false | _ :: _ => true end)
              (List.map (fun s => (fst s, List.filter g (snd s))) sections).

(** The view that shows [sections], the message when there is none. *)
Definition viewOfSections (sections : list (jsstring * list Paper))
  : PapersView :=
  match sections with
  | [] => NoPapersFound
  | _ :: _ => YearSections sections
  end.

(** ** What the ranking containers show

    Of the HTML that the ranking functions write, the elements that the
    toggle functions look for: one [author-entry] per element of
    [authorList], and the button under the list. *)

Definition INITIAL_LIMIT : nat := 25.

(** An [author-entry] element: the author it displays, whether it carries
    the class [author-hidden] ([first-author-hidden] in the first-author
    list), and whether its style is [display: none]. *)
Record AuthorRow := mkRow {
  row_author : AuthorEntry (list Paper);
  hiddenClass : bool;
  displayNone : bool
}.

(** The text of the button, white space around it aside. *)
Inductive ButtonText :=
| ShowAllAuthors (n : nat)         (* "Show all n authors" *)
| ShowLess.

Inductive RankingView :=
| NoAuthorsFound
| AuthorsList (rows : list AuthorRow) (button : option ButtonText).

(** [authorList.forEach((author, index) => ...)] building the entries. *)
Fixpoint authorRows (showAll : bool) (index : nat)
    (authorList : list (AuthorEntry (list Paper))) : list AuthorRow :=
  match authorList with
  | [] => []
  | author :: rest =>
      let isHidden := negb showAll && (INITIAL_LIMIT <=? index)%nat in
      mkRow author isHidden isHidden :: authorRows showAll (S index) rest
  end.

(** The part of the two ranking functions that builds the HTML, from
    [authorList] as the rank loop leaves it. *)
Definition rankingView (authorList : list (AuthorEntry (list Paper)))
  : RankingView :=
  match authorList with
  | [] => NoAuthorsFound
  | _ :: _ =>
      let showAll := (length authorList <=? INITIAL_LIMIT)%nat in
      AuthorsList (authorRows showAll 0 authorList)
        (if (INITIAL_LIMIT <? length authorList)%nat
         then Some (ShowAllAuthors (length authorList))
         else None)
  end.

(** [hiddenAuthors.forEach(el => el.style.display = expanded ? '' : 'none')]
    over the elements that carry the hidden class. *)
Definition setDisplay (expanded : bool) (row : AuthorRow) : AuthorRow :=
  if hiddenClass row
  then mkRow (row_author row) (hiddenClass row) (negb expanded)
  else row.

(** The body shared by [toggleAuthorsList] and [toggleFirstAuthorsList],
    on the flag and the container of the list concerned.  Without a button
    [btn] is [null] and the assignment to [btn.textContent] throws, after
    the flag has been flipped. *)
Definition toggleList (expanded : bool) (view : RankingView)
  : Completion unit * (bool * RankingView) :=
  let expanded := negb expanded in
  match view with
  | NoAuthorsFound => (ThrowTypeError, (expanded, NoAuthorsFound))
  | AuthorsList rows button =>
      let hiddenAuthors := List.filter hiddenClass rows in
      let rows := List.map (setDisplay expanded) rows in
      match button with
      | None => (ThrowTypeError, (expanded, AuthorsList rows None))
      | Some _ =>
          let text :=
            if expanded then ShowLess
            else ShowAllAuthors (length hiddenAuthors + 25) in
          (Normal tt, (expanded, AuthorsList rows (Some text)))
      end
  end.

(** ** The page: globals, containers and listeners *)

Record Page := mkPage {
  range : YearRange;     (* the year bounds, their limits, the sliders *)
  allPapers : list Paper;
  currentVenue : jsstring;
  papersContainer : option PapersView;       (* [None]: as the HTML has it *)
  authorsContainer : option RankingView;
  firstAuthorsContainer : option RankingView;
  authorsExpanded : bool;
  firstAuthorsExpanded : bool;
  listening : bool                           (* [setupFilters] has run *)
}.

Definition setRange (pg : Page) (r : YearRange) : Page :=
  mkPage r (allPapers pg) (currentVenue pg) (papersContainer pg)
         (authorsContainer pg) (firstAuthorsContainer pg)
         (authorsExpanded pg) (firstAuthorsExpanded pg) (listening pg).

Definition setAllPapers (pg : Page) (papers : list Paper) : Page :=
  mkPage (range pg) papers (currentVenue pg) (papersContainer pg)
         (authorsContainer pg) (firstAuthorsContainer pg)
         (authorsExpanded pg) (firstAuthorsExpanded pg) (listening pg).

Definition setCurrentVenue (pg : Page) (v : jsstring) : Page :=
  mkPage (range pg) (allPapers pg) v (papersContainer pg)
         (authorsContainer pg) (firstAuthorsContainer pg)
         (authorsExpanded pg) (firstAuthorsExpanded pg) (listening pg).

Definition setPapersContainer (pg : Page) (view : PapersView) : Page :=
  mkPage (range pg) (allPapers pg) (currentVenue pg) (Some view)
         (authorsContainer pg) (firstAuthorsContainer pg)
         (authorsExpanded pg) (firstAuthorsExpanded pg) (listening pg).

Definition setAuthorsContainer (pg : Page) (view : RankingView) : Page :=
  mkPage (range pg) (allPapers pg) (currentVenue pg) (papersContainer pg)
         (Some view) (firstAuthorsContainer pg)
         (authorsExpanded pg) (firstAuthorsExpanded pg) (listening pg).

Definition setFirstAuthorsContainer (pg : Page) (view : RankingView) : Page :=
  mkPage (range pg) (allPapers pg) (currentVenue pg) (papersContainer pg)
         (authorsContainer pg) (Some view)
         (authorsExpanded pg) (firstAuthorsExpanded pg) (listening pg).

Definition setListening (pg : Page) : Page :=
  mkPage (range pg) (allPapers pg) (currentVenue pg) (papersContainer pg)
         (authorsContainer pg) (firstAuthorsContainer pg)
         (authorsExpanded pg) (firstAuthorsExpanded pg) true.

(** A call that may throw, on the page: what it leaves behind stays. *)
Definition PageM := Page -> Completion unit * Page.

Definition andThen (m k : PageM) : PageM :=
  fun pg =>
    match m pg with
    | (Normal _, pg') => k pg'
    | (ThrowTypeError, pg') => (ThrowTypeError, pg')
    end.

(** [toggleAuthorsList] and [toggleFirstAuthorsList]; on a container the
    script has not written there is nothing the functions could find. *)
Definition toggleAuthorsList : PageM :=
  fun pg =>
    let view :=
      match authorsContainer pg with
      | Some view => view
      | None => NoAuthorsFound
      end in
    let '(outcome, (expanded, view')) := toggleList (authorsExpanded pg) view in
    (outcome,
     mkPage (range pg) (allPapers pg) (currentVenue pg) (papersContainer pg)
            (match authorsContainer pg with
             | Some _ => Some view'
             | None => None
             end)
            (firstAuthorsContainer pg) expanded (firstAuthorsExpanded pg)
            (listening pg)).

Definition toggleFirstAuthorsList : PageM :=
  fun pg =>
    let view :=
      match firstAuthorsContainer pg with
      | Some view => view
      | None => NoAuthorsFound
      end in
    let '(outcome, (expanded, view')) :=
      toggleList (firstAuthorsExpanded pg) view in
    (outcome,
     mkPage (range pg) (allPapers pg) (currentVenue pg) (papersContainer pg)
            (authorsContainer pg)
            (match firstAuthorsContainer pg with
             | Some _ => Some view'
             | None => None
             end)
            (authorsExpanded pg) expanded (listening pg)).

Section PageModel.
Variable localeCompare : jsstring -> jsstring -> Z.

(** The three render functions as they act on the page: each writes its
    container as its last step, so a call that throws leaves it as it was. *)
Definition showPapers (papers : list Paper) : PageM :=
  fun pg =>
    match renderPapers papers with
    | Normal view => (Normal tt, setPapersContainer pg view)
    | ThrowTypeError => (ThrowTypeError, pg)
    end.

Definition showAuthorsRanking (papers : list Paper) : PageM :=
  fun pg =>
    match renderAuthorsRanking localeCompare papers with
    | Normal authorList =>
        (Normal tt, setAuthorsContainer pg (rankingView authorList))
    | ThrowTypeError => (ThrowTypeError, pg)
    end.

Definition showFirstAuthorsRanking (papers : list Paper) : PageM :=
  fun pg =>
    match renderFirstAuthorsRanking localeCompare papers with
    | Normal authorList =>
        (Normal tt, setFirstAuthorsContainer pg (rankingView authorList))
    | ThrowTypeError => (ThrowTypeError, pg)
    end.

Definition renderAll (papers : list Paper) : PageM :=
  andThen (showPapers papers)
    (andThen (showAuthorsRanking papers) (showFirstAuthorsRanking papers)).

(** [applyFilters] with the three calls that end it. *)
Definition applyFiltersAndShow : PageM :=
  fun pg =>
    let filtered :=
      applyFilters (allPapers pg) (currentVenue pg)
                   (yearFrom (range pg)) (yearTo (range pg)) in
    renderAll filtered pg.

(** What [fetch] and [response.json()] give: a document with its [papers]
    array, or a rejection. *)
Inductive Response :=
| Fetched (papers : list Paper)
| Rejected.

(** The whole of [loadPapers]. *)
Definition loadPage (response : Response) (pg : Page) : Page :=
  match response with
  | Rejected => setPapersContainer pg ErrorLoadingPapers
  | Fetched papers =>
      let pg := setAllPapers pg papers in
      let pg := setRange pg (loadPapers (range pg) papers) in
      match renderAll papers pg with
      | (Normal _, pg') => setListening pg'
      | (ThrowTypeError, pg') => setPapersContainer pg' ErrorLoadingPapers
      end
  end.

(** What the user does to the filters: click an element that
    [setupFilters] gave the venue listener, or act on the year range. *)
Inductive PageEvent :=
| ClickVenue (venue : jsstring)
| OnRange (e : Event).

(** What the browser does to the sliders on its own. *)
Definition moveThumb (s : YearRange) (e : Event) : YearRange :=
  match e with
  | DragFrom v =>
      mkYearRange (yearFrom s) (yearTo s) (minYear s) (maxYear s)
                  (setValue (sliderFrom s) (Fin v)) (sliderTo s)
  | DragTo v =>
      mkYearRange (yearFrom s) (yearTo s) (minYear s) (maxYear s)
                  (sliderFrom s) (setValue (sliderTo s) (Fin v))
  | ClickReset => s
  end.

Definition handlePage (e : PageEvent) : PageM :=
  fun pg =>
    if listening pg
    then
      match e with
      | ClickVenue v => applyFiltersAndShow (setCurrentVenue pg v)
      | OnRange e => applyFiltersAndShow (setRange pg (handle (range pg) e))
      end
    else
      match e with
      | ClickVenue _ => (Normal tt, pg)
      | OnRange e => (Normal tt, setRange pg (moveThumb (range pg) e))
      end.

(** The outcomes of the listeners for a sequence of events, and the page
    at the end; a listener that throws ends, the page lives on. *)
Fixpoint handleAllPage (events : list PageEvent) (pg : Page)
  : list (Completion unit) * Page :=
  match events with
  | [] => ([], pg)
  | e :: events' =>
      let '(outcome, pg') := handlePage e pg in
      let '(outcomes, pg'') := handleAllPage events' pg' in
      (outcome :: outcomes, pg'')
  end.

(** The three containers show the collection [papers]. *)
Definition Shows (pg : Page) (papers : list Paper) : Prop :=
  (exists view,
     renderPapers papers = Normal view /\ papersContainer pg = Some view)
  /\ (exists authorList,
        renderAuthorsRanking localeCompare papers = Normal authorList
        /\ authorsContainer pg = Some (rankingView authorList))
  /\ (exists authorList,
        renderFirstAuthorsRanking localeCompare papers = Normal authorList
        /\ firstAuthorsContainer pg = Some (rankingView authorList)).

(** The listeners are installed, the rankings of the whole collection
    complete, and the containers show what the filter state selects. *)
Definition Live (pg : Page) : Prop :=
  listening pg = true
  /\ (exists authorList,
        renderAuthorsRanking localeCompare (allPapers pg) = Normal authorList)
  /\ Shows pg (applyFilters (allPapers pg) (currentVenue pg)
                            (yearFrom (range pg)) (yearTo (range pg))).
End PageModel.

(** The globals that no render function assigns. *)
Definition SameGlobals (pg pg' : Page) : Prop :=
  range pg' = range pg
  /\ allPapers pg' = allPapers pg
  /\ currentVenue pg' = currentVenue pg
  /\ authorsExpanded pg' = authorsExpanded pg
  /\ firstAuthorsExpanded pg' = firstAuthorsExpanded pg
  /\ listening pg' = listening pg.

(** ** The authors line of a paper: [formatAuthors] *)

(** A property read that is truthy: a present, non-empty string. *)
Definition truthy (s : option jsstring) : bool :=
  match s with
  | Some (_ :: _) => true
  | _ => false
  end.

(** A value inside a template literal; [undefined] prints its name. *)
Definition templateValue (s : option jsstring) : jsstring :=
  match s with
  | Some s => s
  | None => js "undefined"
  end.

(** Callback of [authors.map]; without an institution the result is
    [a.name] as it is, possibly [undefined]. *)
Definition formatAuthor (a : Author) : option jsstring :=
  if truthy (institution a)
  then Some (templateValue (name a) ++ js " ("
             ++ templateValue (institution a) ++ js ")")
  else name a.

(** [Array.prototype.join]: an element that is [undefined] counts as the
    empty string. *)
Fixpoint join (separator : jsstring) (l : list (option jsstring)) : jsstring :=
  match l with
  | [] => []
  | x :: rest =>
      let s := match x with Some s => s | None => [] end in
      match rest with
      | [] => s
      | _ :: _ => s ++ separator ++ join separator rest
      end
  end.

Definition formatAuthors (authors : AuthorsField) : jsstring :=
  match authors with
  | AuthorsArray (a :: l) => join (js ", ") (List.map formatAuthor (a :: l))
  | _ => []
  end.

(** ** Tabs and the URL hash: [initTabFromHash], [setupTabHashSync] *)

(** What is left of [s] after the prefix [pattern], if it starts with it. *)
Fixpoint stripPrefix (pattern s : jsstring) : option jsstring :=
  match pattern, s with
  | [], _ => Some s
  | p :: pattern', c :: s' =>
      if N.eqb p c then stripPrefix pattern' s' else None
  | _ :: _, [] => None
  end.

(** [s.replace(pattern, '')] with a string pattern: the first occurrence
    is taken out. *)
Fixpoint removeFirst (pattern s : jsstring) : jsstring :=
  match stripPrefix pattern s with
  | Some rest => rest
  | None =>
      match s with
      | [] => []
      | c :: s' => c :: removeFirst pattern s'
      end
  end.

(** The id that [initTabFromHash] looks up for [window.location.hash];
    [None] when the hash is empty and nothing is looked up. *)
Definition initTabFromHash (hash : jsstring) : option jsstring :=
  match hash with
  | [] => None
  | _ :: _ => Some (removeFirst (js "#") hash ++ js "-tab")
  end.

(** The URL that the [shown.bs.tab] listener hands to
    [history.replaceState], from the [data-bs-target] of the tab. *)
Definition shownTabUrl (target : jsstring) : jsstring :=
  let paneId := removeFirst (js "-pane") (removeFirst (js "#") target) in
  js "#" ++ paneId.

(** [pattern] occurs in [s]. *)
Definition Occurs (pattern s : jsstring) : Prop :=
  exists pre post, s = pre ++ pattern ++ post.

(** ** Sample data: the scenario of the specification *)

Definition author (s : string) : Author := mkAuthor (Some (js s)) None.

Definition paperP1 : Paper :=
  mkPaper (js "P1") (AuthorsArray [author "Alice Smith"])
          (js "CCS") 2020 (js "Best Paper") None.

Definition paperP2 : Paper :=
  mkPaper (js "P2") (AuthorsArray [author "Bob Lee"; author "Alice Smith"])
          (js "S&P") 2021 (js "Best Paper") None.

Definition scenario : list Paper := [paperP1; paperP2].

(** Five papers whose six authors have 5, 5, 3, 3, 3 and 1 papers. *)
Definition rankSample : list Paper :=
  let paper t y l :=
    mkPaper (js t) (AuthorsArray (List.map author l)) (js "NDSS") y
            (js "Distinguished Paper") None in
  [paper "Q1" 2019 ["A Ab"; "B Bb"; "C Cc"; "D Dd"; "E Ee"; "F Ff"];
   paper "Q2" 2020 ["A Ab"; "B Bb"; "C Cc"; "D Dd"; "E Ee"];
   paper "Q3" 2021 ["A Ab"; "B Bb"; "C Cc"; "D Dd"; "E Ee"];
   paper "Q4" 2022 ["A Ab"; "B Bb"];
   paper "Q5" 2023 ["A Ab"; "B Bb"]]%string.

(** Papers with a missing author list, a textual one, a nameless author. *)
Definition paperNoAuthors : Paper :=
  mkPaper (js "N1") AuthorsMissing (js "CCS") 2019 (js "Best Paper") None.

Definition paperTextAuthors : Paper :=
  mkPaper (js "N2") (AuthorsText (js "Carol Roe (MIT)")) (js "CCS") 2019
          (js "Best Paper") None.

Definition paperEmptyAuthors : Paper :=
  mkPaper (js "N3") (AuthorsArray []) (js "CCS") 2018 (js "Best Paper") None.

Definition nameless : Author := mkAuthor None (Some (js "MIT")).

(** The page before [loadPapers]: the globals as declared, two sliders. *)
Definition pageAtStart : YearRange :=
  mkYearRange None None (Fin 2012) (Fin 2025)
              (mkSlider (Fin 0) (Fin 100) 50) (mkSlider (Fin 0) (Fin 100) 50).

(** A store holding the scenario: two paper objects, the input array. *)
Definition scenarioStore : Store :=
  mkStore [paperP1; paperP2] [[0; 1]%nat].

(** A paper listing the same author twice. *)
Definition twiceListed : Paper :=
  mkPaper (js "P") (AuthorsArray [mkAuthor (Some (js "A B")) None;
                                  mkAuthor (Some (js "A B")) None])
          (js "CCS") 2020 (js "Best Paper") None.

(** A sample collation for running the functions: code unit order. *)
Fixpoint codeUnitCompare (s t : jsstring) : Z :=
  match s, t with
  | [], [] => 0
  | [], _ :: _ => -1
  | _ :: _, [] => 1
  | c :: s', d :: t' =>
      if (c <? d)%N then -1 else if (d <? c)%N then 1 else codeUnitCompare s' t'
  end.

(** One paper with 26 authors, "A Z" to "Z Z". *)
Definition crowd : list Paper :=
  [mkPaper (js "Crowd")
     (AuthorsArray
        (List.map (fun i => author (String (ascii_of_nat (65 + i)) " Z"))
                  (seq 0 26)))
     (js "CCS") 2020 (js "Best Paper") None].

(** A paper whose second author is named like a property of
    [Object.prototype]. *)
Definition paperConstructor : Paper :=
  mkPaper (js "P3") (AuthorsArray [author "Bob Lee"; author "constructor"])
          (js "CCS") 2022 (js "Best Paper") None.

(** The page as the script finds it: the globals as declared, nothing
    written yet, no listener. *)
Definition pageBeforeLoad : Page :=
  mkPage pageAtStart [] (js "all") None None None false false false.

(** The page when [papers] have been loaded. *)
Definition loaded (papers : list Paper) : Page :=
  loadPage codeUnitCompare (Fetched papers) pageBeforeLoad.

(** * Lemmas *)

Lemma jsstring_eqb_eq (s t : jsstring) : jsstring_eqb s t = true <-> s = t.
Proof.
  revert t; induction s as [|c s IH]; intros [|d t]; simpl;
    try (split; [discriminate | congruence]); try tauto.
  rewrite andb_true_iff, N.eqb_eq, IH. split.
  - intros [-> ->]; reflexivity.
  - intros E; inversion E; auto.
Qed.

Lemma jsstring_eqb_refl (s : jsstring) : jsstring_eqb s s = true.
Proof. apply jsstring_eqb_eq; reflexivity. Qed.

Lemma jsstring_eqb_neq (s t : jsstring) : jsstring_eqb s t = false <-> s <> t.
Proof.
  rewrite <- jsstring_eqb_eq. destruct (jsstring_eqb s t); split; congruence.
Qed.

Lemma filter_filter (A : Type) (f g : A -> bool) (l : list A) :
  List.filter f (List.filter g l) = List.filter (fun x => g x && f x) l.
Proof.
  induction l as [|x l IH]; simpl; auto.
  destruct (g x); simpl; [destruct (f x)|]; rewrite ?IH; auto.
Qed.

Lemma Subseq_filter (A : Type) (f : A -> bool) (l : list A) :
  Subseq (List.filter f l) l.
Proof.
  induction l as [|x l IH]; simpl; [constructor|].
  destruct (f x); constructor; exact IH.
Qed.

Lemma applyFilters_filter C v yFrom yTo :
  applyFilters C v (Some (Fin yFrom)) (Some (Fin yTo))
  = List.filter (keeps v yFrom yTo) C.
Proof.
  unfold applyFilters.
  destruct (jsstring_eqb v (js "all")) eqn:Ev; simpl.
  - rewrite filter_filter. apply filter_ext; intros p.
    unfold keeps, Num_geb, Num_leb. rewrite Ev. simpl. f_equal.
    apply Z.geb_leb.
  - rewrite !filter_filter. apply filter_ext; intros p.
    unfold keeps, Num_geb, Num_leb. rewrite Ev. simpl.
    rewrite Z.geb_leb, andb_assoc. reflexivity.
Qed.

(** C1. For every collection [C], venue [v] and integers [yFrom], [yTo],
    the filter returns exactly the papers of [C] with
    ([v] = "all" or venue = [v]) and [yFrom <= year <= yTo]: it is the
    [filter] of [C] by that predicate, so every returned paper satisfies it,
    no paper of [C] satisfying it is left out, and the result is a
    subsequence of [C] (relative order kept). *)
Theorem C1_filter_exact C v yFrom yTo :
  let R := applyFilters C v (Some (Fin yFrom)) (Some (Fin yTo)) in
  R = List.filter (keeps v yFrom yTo) C
  /\ (forall p, In p R ->
        (v = js "all" \/ venue p = v) /\ yFrom <= year p <= yTo)
  /\ (forall p, In p C ->
        (v = js "all" \/ venue p = v) -> yFrom <= year p <= yTo -> In p R)
  /\ Subseq R C.
Proof.
  intros R. assert (E : R = List.filter (keeps v yFrom yTo) C)
    by apply applyFilters_filter.
  split; [exact E|]. rewrite E. split; [|split].
  - intros p Hp. apply filter_In in Hp. destruct Hp as [_ Hk].
    unfold keeps in Hk.
    rewrite !andb_true_iff, orb_true_iff, !jsstring_eqb_eq, !Z.leb_le in Hk.
    tauto.
  - intros p Hp Hv Hy. apply filter_In. split; [exact Hp|].
    unfold keeps.
    rewrite !andb_true_iff, orb_true_iff, !jsstring_eqb_eq, !Z.leb_le. tauto.
  - apply Subseq_filter.
Qed.

(** C7. Called with [yearFrom > yearTo], the filter is still a total
    function and returns the empty array. *)
Theorem C7_inverted_range_empty C v yFrom yTo :
  yFrom > yTo -> applyFilters C v (Some (Fin yFrom)) (Some (Fin yTo)) = [].
Proof.
  intros H. rewrite applyFilters_filter.
  induction C as [|p C IH]; simpl; auto.
  replace (keeps v yFrom yTo p) with false; [exact IH|].
  unfold keeps. symmetry. apply andb_false_iff. right.
  apply andb_false_iff.
  destruct (Z.leb_spec yFrom (year p)); [right; apply Z.leb_gt; lia | now left].
Qed.

(** ** Facts about [Array_sort] *)

Section ArraySortFacts.
Variable A : Type.
Variable cmp : A -> A -> Z.

Lemma sort_insert_perm x l : Permutation (sort_insert cmp x l) (x :: l).
Proof.
  induction l as [|y l IH]; simpl; [reflexivity|].
  destruct (cmp x y <=? 0); [reflexivity|].
  rewrite IH. apply perm_swap.
Qed.

Lemma Array_sort_perm l : Permutation (Array_sort cmp l) l.
Proof.
  induction l as [|x l IH]; simpl; [constructor|].
  rewrite sort_insert_perm. constructor. exact IH.
Qed.

Lemma Array_sort_In x l : In x (Array_sort cmp l) <-> In x l.
Proof.
  split; apply Permutation_in;
    [apply Array_sort_perm | symmetry; apply Array_sort_perm].
Qed.

(** Stability: a class of elements that the comparator does not separate
    keeps its order. *)
Lemma sort_insert_filter (f : A -> bool) x l :
  (forall y, In y l -> f x = true -> f y = true -> cmp x y <= 0) ->
  List.filter f (sort_insert cmp x l) = List.filter f (x :: l).
Proof.
  induction l as [|y l IH]; intros H; simpl; [reflexivity|].
  destruct (Z.leb_spec (cmp x y) 0) as [Hle|Hgt]; [reflexivity|].
  simpl. rewrite IH by (intros z Hz; apply H; right; exact Hz). simpl.
  destruct (f x) eqn:Fx, (f y) eqn:Fy; try reflexivity.
  specialize (H y (or_introl eq_refl) eq_refl Fy). lia.
Qed.

Lemma Array_sort_stable (f : A -> bool) l :
  (forall x y, f x = true -> f y = true -> cmp x y <= 0) ->
  List.filter f (Array_sort cmp l) = List.filter f l.
Proof.
  intros H. induction l as [|x l IH]; simpl; [reflexivity|].
  rewrite sort_insert_filter by (intros; apply H; assumption).
  simpl. rewrite IH. reflexivity.
Qed.

Section Consistent.
Hypothesis cmp_total : forall x y, cmp x y <= 0 \/ cmp y x <= 0.
Hypothesis cmp_trans :
  forall x y z, cmp x y <= 0 -> cmp y z <= 0 -> cmp x z <= 0.

Lemma sort_insert_sorted x l :
  StronglySorted (fun a b => cmp a b <= 0) l ->
  StronglySorted (fun a b => cmp a b <= 0) (sort_insert cmp x l).
Proof.
  induction 1 as [|y l Hs IH Hy]; simpl.
  - repeat constructor.
  - destruct (Z.leb_spec (cmp x y) 0) as [Hle|Hgt].
    + constructor; [constructor; assumption|].
      constructor; [exact Hle|].
      rewrite Forall_forall in *. intros z Hz.
      apply cmp_trans with y; auto.
    + constructor; [exact IH|].
      rewrite Forall_forall in *. intros z Hz.
      apply (Permutation_in _ (sort_insert_perm x l)) in Hz.
      destruct Hz as [<-|Hz]; [|auto].
      destruct (cmp_total x y); [lia | assumption].
Qed.

Lemma Array_sort_sorted l :
  StronglySorted (fun a b => cmp a b <= 0) (Array_sort cmp l).
Proof.
  induction l as [|x l IH]; simpl; [constructor|].
  apply sort_insert_sorted, IH.
Qed.
End Consistent.
End ArraySortFacts.

Lemma StronglySorted_impl (A : Type) (R S : A -> A -> Prop) (l : list A) :
  (forall a b, R a b -> S a b) -> StronglySorted R l -> StronglySorted S l.
Proof.
  intros H. induction 1 as [|x l Hs IH Hx]; constructor; auto.
  eapply Forall_impl; [|exact Hx]. auto.
Qed.

Lemma StronglySorted_map (A B : Type) (f : A -> B) (R : B -> B -> Prop) l :
  StronglySorted (fun a b => R (f a) (f b)) l <-> StronglySorted R (List.map f l).
Proof.
  induction l as [|x l IH]; simpl.
  - split; constructor.
  - split; intros H; inversion H; subst; constructor;
      try (apply IH; assumption); rewrite Forall_forall in *.
    + intros y Hy. apply in_map_iff in Hy. destruct Hy as [z [<- Hz]]. auto.
    + intros y Hy. match goal with H : forall _, _ -> R _ _ |- _ => apply H end.
      apply in_map. exact Hy.
Qed.

Lemma compareYear_sorted l :
  StronglySorted (fun a b => year a >= year b) (Array_sort compareYear l).
Proof.
  apply StronglySorted_impl with (R := fun a b => compareYear a b <= 0).
  - unfold compareYear; intros; lia.
  - apply Array_sort_sorted; unfold compareYear; intros; lia.
Qed.

Lemma compareYear_stable y l :
  List.filter (fun p => year p =? y) (Array_sort compareYear l)
  = List.filter (fun p => year p =? y) l.
Proof.
  apply Array_sort_stable. intros a b Ha Hb.
  apply Z.eqb_eq in Ha, Hb. unfold compareYear. lia.
Qed.

(** ** Facts about property maps *)

Section PropMapFacts.
Variable V : Type.
Implicit Types (o : PropMap V) (k : jsstring) (v : V).

Lemma getOwn_setOwn o k v k' :
  getOwn (setOwn o k v) k' = if jsstring_eqb k k' then Some v else getOwn o k'.
Proof.
  induction o as [|[k1 v1] o IH]; simpl.
  - destruct (jsstring_eqb k k'); reflexivity.
  - destruct (jsstring_eqb k1 k) eqn:E1; simpl.
    + apply jsstring_eqb_eq in E1. subst k1.
      destruct (jsstring_eqb k k'); reflexivity.
    + destruct (jsstring_eqb k1 k') eqn:E2; [|exact IH].
      apply jsstring_eqb_eq in E2. subst k1.
      replace (jsstring_eqb k k') with false; [reflexivity|].
      symmetry. apply jsstring_eqb_neq. apply jsstring_eqb_neq in E1.
      congruence.
Qed.

Lemma setOwn_setOwn o k v v' : setOwn (setOwn o k v) k v' = setOwn o k v'.
Proof.
  induction o as [|[k1 v1] o IH]; simpl.
  - rewrite jsstring_eqb_refl. reflexivity.
  - destruct (jsstring_eqb k1 k) eqn:E1; simpl; rewrite E1;
      [reflexivity | rewrite IH; reflexivity].
Qed.

Lemma getOwn_None o k : getOwn o k = None <-> ~ In k (List.map fst o).
Proof.
  induction o as [|[k1 v1] o IH]; simpl; [tauto|].
  destruct (jsstring_eqb k1 k) eqn:E1.
  - apply jsstring_eqb_eq in E1. split; [discriminate | tauto].
  - apply jsstring_eqb_neq in E1. tauto.
Qed.

Lemma getOwn_In o k v : getOwn o k = Some v -> In (k, v) o.
Proof.
  induction o as [|[k1 v1] o IH]; simpl; [discriminate|].
  destruct (jsstring_eqb k1 k) eqn:E1; [|auto].
  apply jsstring_eqb_eq in E1. intros [= ->]. left; congruence.
Qed.

Lemma In_getOwn o k v :
  NoDup (List.map fst o) -> In (k, v) o -> getOwn o k = Some v.
Proof.
  induction o as [|[k1 v1] o IH]; simpl; [tauto|].
  intros Hnd [[= -> ->]|Hin].
  - rewrite jsstring_eqb_refl. reflexivity.
  - inversion Hnd; subst.
    destruct (jsstring_eqb k1 k) eqn:E1; [|auto].
    apply jsstring_eqb_eq in E1. subst k1.
    exfalso. match goal with H : ~ In _ _ |- _ => apply H end.
    change k with (fst (k, v)). apply in_map. exact Hin.
Qed.

Lemma keys_setOwn o k v :
  List.map fst (setOwn o k v)
  = match getOwn o k with
    | Some _ => List.map fst o
    | None => List.map fst o ++ [k]
    end.
Proof.
  induction o as [|[k1 v1] o IH]; simpl; [reflexivity|].
  destruct (jsstring_eqb k1 k) eqn:E1; simpl; [reflexivity|].
  rewrite IH. destruct (getOwn o k); reflexivity.
Qed.

Lemma NoDup_setOwn o k v :
  NoDup (List.map fst o) -> NoDup (List.map fst (setOwn o k v)).
Proof.
  intros H. rewrite keys_setOwn. destruct (getOwn o k) eqn:E; [exact H|].
  apply getOwn_None in E.
  apply (Permutation_NoDup (l := k :: List.map fst o)).
  - apply Permutation_cons_append.
  - constructor; assumption.
Qed.
End PropMapFacts.

Lemma filter_split_perm (A : Type) (f : A -> bool) (l : list A) :
  Permutation (List.filter f l ++ List.filter (fun x => negb (f x)) l) l.
Proof.
  induction l as [|x l IH]; simpl; [constructor|].
  destruct (f x); simpl.
  - constructor. exact IH.
  - rewrite <- Permutation_middle. constructor. exact IH.
Qed.

Lemma Object_entries_perm (V : Type) (o : PropMap V) :
  Permutation (Object_entries o) o.
Proof.
  unfold Object_entries. rewrite Array_sort_perm. apply filter_split_perm.
Qed.

(** ** The aggregation loops as a sequence of credits *)

Lemma bind_Normal (A B : Type) (c : Completion A) (k : A -> Completion B) b :
  bind c k = Normal b <-> exists a, c = Normal a /\ k a = Normal b.
Proof.
  destruct c as [a|]; simpl.
  - split; [eauto | intros [a' [[= <-] H]]; exact H].
  - split; [discriminate | intros [a' [[=] _]]].
Qed.

Lemma forEach_app (A S : Type) (f : A -> S -> Completion S) l1 l2 s :
  forEach f (l1 ++ l2) s = bind (forEach f l1 s) (forEach f l2).
Proof.
  revert s; induction l1 as [|x l1 IH]; intros s; simpl; [reflexivity|].
  destruct (f x s); simpl; auto.
Qed.

Lemma pushCredit_eq paper n (ap : AuthorPapers) :
  pushCredit paper n ap
  = match getOwn ap n with
    | Some arr => Normal (setOwn ap n (arr ++ [paper]))
    | None => if inherited n then ThrowTypeError
              else Normal (setOwn ap n [paper])
    end.
Proof.
  unfold pushCredit, getProp. destruct (getOwn ap n) eqn:E.
  - rewrite E. reflexivity.
  - destruct (inherited n) eqn:I.
    + rewrite E. reflexivity.
    + rewrite getOwn_setOwn, jsstring_eqb_refl, setOwn_setOwn. reflexivity.
Qed.

Lemma creditName_eq paper a ap :
  creditName paper (name a) ap
  = pushCredits (List.map (fun n => (n, paper)) (truthyName a)) ap.
Proof.
  unfold creditName, truthyName, pushCredits.
  destruct (name a) as [[|c s]|]; simpl; try reflexivity.
  destruct (pushCredit paper (c :: s) ap); reflexivity.
Qed.

Lemma eachPaperAll_eq p ap :
  eachPaperAll p ap = pushCredits (List.map (fun n => (n, p)) (namesAll p)) ap.
Proof.
  unfold eachPaperAll, namesAll. destruct (authors p) as [| |l]; try reflexivity.
  revert ap; induction l as [|a l IH]; intros ap; simpl; [reflexivity|].
  rewrite map_app. unfold pushCredits at 1. rewrite forEach_app.
  fold (pushCredits (List.map (fun n => (n, p)) (truthyName a)) ap).
  unfold eachAuthor. rewrite creditName_eq.
  destruct (pushCredits _ ap); simpl; [apply IH | reflexivity].
Qed.

Lemma eachPaperFirst_eq p ap :
  eachPaperFirst p ap
  = pushCredits (List.map (fun n => (n, p)) (namesFirst p)) ap.
Proof.
  unfold eachPaperFirst, namesFirst.
  destruct (authors p) as [| |[|a l]]; try reflexivity. apply creditName_eq.
Qed.

Lemma forEach_credits (each : Paper -> AuthorPapers -> Completion AuthorPapers)
    (names : Paper -> list jsstring) :
  (forall p ap, each p ap
                = pushCredits (List.map (fun n => (n, p)) (names p)) ap) ->
  forall papers ap,
    forEach each papers ap = pushCredits (credits names papers) ap.
Proof.
  intros H papers. induction papers as [|p papers IH]; intros ap; simpl;
    [reflexivity|].
  unfold pushCredits at 1. rewrite forEach_app.
  fold (pushCredits (List.map (fun n => (n, p)) (names p)) ap).
  rewrite H. destruct (pushCredits _ ap); simpl; [apply IH | reflexivity].
Qed.

Lemma creditedTo_cons c cs n :
  creditedTo n (c :: cs)
  = if jsstring_eqb (fst c) n then snd c :: creditedTo n cs
    else creditedTo n cs.
Proof.
  unfold creditedTo; simpl. destruct (jsstring_eqb (fst c) n); reflexivity.
Qed.

Lemma creditedTo_app n cs1 cs2 :
  creditedTo n (cs1 ++ cs2) = creditedTo n cs1 ++ creditedTo n cs2.
Proof. unfold creditedTo. rewrite filter_app, map_app. reflexivity. Qed.

Lemma pushCredit_getOwn c ap ap1 :
  pushCredit (snd c) (fst c) ap = Normal ap1 ->
  forall n, getOwn ap1 n = extend (getOwn ap n) (creditedTo n [c]).
Proof.
  rewrite pushCredit_eq. intros H n. rewrite creditedTo_cons.
  destruct (getOwn ap (fst c)) as [arr|] eqn:E;
    [|destruct (inherited (fst c)); [discriminate|]];
    injection H as <-; rewrite getOwn_setOwn;
    destruct (jsstring_eqb (fst c) n) eqn:En;
    try (apply jsstring_eqb_eq in En; subst n; rewrite E; reflexivity);
    unfold creditedTo; simpl; destruct (getOwn ap n); simpl;
    rewrite ?app_nil_r; reflexivity.
Qed.

Lemma extend_extend old l1 l2 :
  extend (extend old l1) l2 = extend old (l1 ++ l2).
Proof.
  destruct old as [l|]; simpl.
  - rewrite app_assoc. reflexivity.
  - destruct l1; simpl; [destruct l2|]; reflexivity.
Qed.

Lemma pushCredits_getOwn cs : forall ap ap',
  pushCredits cs ap = Normal ap' ->
  forall n, getOwn ap' n = extend (getOwn ap n) (creditedTo n cs).
Proof.
  induction cs as [|c cs IH]; intros ap ap' H n.
  - injection H as <-. destruct (getOwn ap n); simpl;
      rewrite ?app_nil_r; reflexivity.
  - unfold pushCredits in H; simpl in H.
    apply bind_Normal in H. destruct H as [ap1 [H1 H2]].
    rewrite (IH _ _ H2), (pushCredit_getOwn _ _ H1), extend_extend.
    rewrite <- creditedTo_app. reflexivity.
Qed.

Lemma pushCredit_WellFormed paper n ap ap1 :
  pushCredit paper n ap = Normal ap1 -> WellFormed ap -> WellFormed ap1.
Proof.
  rewrite pushCredit_eq. intros H [Hnd Hinh].
  destruct (getOwn ap n) as [arr|] eqn:E;
    [|destruct (inherited n) eqn:I; [discriminate|]];
    injection H as <-; (split; [apply NoDup_setOwn, Hnd|]);
    intros k; rewrite keys_setOwn, E; auto.
  rewrite in_app_iff. intros [Hk|[<-|[]]]; auto.
Qed.

Lemma pushCredits_WellFormed cs : forall ap ap',
  pushCredits cs ap = Normal ap' -> WellFormed ap -> WellFormed ap'.
Proof.
  induction cs as [|c cs IH]; intros ap ap' H W.
  - injection H as <-. exact W.
  - unfold pushCredits in H; simpl in H.
    apply bind_Normal in H. destruct H as [ap1 [H1 H2]].
    eapply IH; [exact H2|]. eapply pushCredit_WellFormed; eassumption.
Qed.

Lemma WellFormed_nil (V : Type) : WellFormed (@nil (jsstring * V)).
Proof. split; [constructor | intros k []]. Qed.

(** The aggregation completes normally exactly when no credited name is a
    property name of [Object.prototype]. *)
Lemma pushCredits_Normal_iff cs : forall ap, WellFormed ap ->
  ((exists ap', pushCredits cs ap = Normal ap')
   <-> forall c, In c cs -> inherited (fst c) = false).
Proof.
  induction cs as [|c cs IH]; intros ap W.
  - split; [intros _ c [] | intros _; exists ap; reflexivity].
  - unfold pushCredits; simpl. fold (pushCredits cs).
    destruct (pushCredit (snd c) (fst c) ap) as [ap1|] eqn:E1; simpl.
    + pose proof (pushCredit_WellFormed _ _ E1 W) as W1.
      rewrite (IH ap1 W1). split.
      * intros H c' [<-|Hc']; [|auto].
        apply W1. rewrite pushCredit_eq in E1.
        destruct (getOwn ap (fst c)) eqn:E;
          [|destruct (inherited (fst c)); [discriminate|]];
          injection E1 as <-; rewrite keys_setOwn, E.
        -- apply getOwn_In in E. change (fst c) with (fst (fst c, l)).
           apply in_map. exact E.
        -- apply in_or_app. right. left. reflexivity.
      * intros H c' Hc'. apply H. right. exact Hc'.
    + split; [intros [ap' [=]]|]. intros H. exfalso.
      rewrite pushCredit_eq in E1.
      destruct (getOwn ap (fst c)); [discriminate|].
      rewrite (H c (or_introl eq_refl)) in E1. discriminate.
Qed.

(** ** Facts about the rank loop and [rankAuthors] *)

Lemma assignRanks_fields (P : Type) (l : list (AuthorEntry P)) : forall pc r,
  List.map (fun e => (entry_name e, entry_papers e, count e))
           (assignRanks pc r l)
  = List.map (fun e => (entry_name e, entry_papers e, count e)) l.
Proof.
  induction l as [|a l IH]; intros pc r; simpl; [reflexivity|].
  rewrite IH. reflexivity.
Qed.

Lemma assignRanks_ranked (P : Type) (l : list (AuthorEntry P)) : forall pc r e,
  In e (assignRanks pc r l) -> exists k, rank e = Some k.
Proof.
  induction l as [|a l IH]; intros pc r e; simpl; [tauto|].
  intros [<-|H]; [eexists; reflexivity | eapply IH; exact H].
Qed.

Section ArraySortKey.
(** Sortedness for any transitive order that the comparator decides. *)
Variable A : Type.
Variable cmp : A -> A -> Z.
Variable R : A -> A -> Prop.
Hypothesis R_trans : forall x y z, R x y -> R y z -> R x z.
Hypothesis cmp_le : forall x y, cmp x y <= 0 -> R x y.
Hypothesis cmp_gt : forall x y, cmp x y > 0 -> R y x.

Lemma sort_insert_sorted_by x l :
  StronglySorted R l -> StronglySorted R (sort_insert cmp x l).
Proof.
  induction 1 as [|y l Hs IH Hy]; simpl.
  - repeat constructor.
  - destruct (Z.leb_spec (cmp x y) 0) as [Hle|Hgt].
    + constructor; [constructor; assumption|].
      constructor; [apply cmp_le, Hle|].
      rewrite Forall_forall in *. intros z Hz.
      apply R_trans with y; auto.
    + constructor; [exact IH|].
      rewrite Forall_forall in *. intros z Hz.
      apply (Permutation_in _ (sort_insert_perm cmp x l)) in Hz.
      destruct Hz as [<-|Hz]; [apply cmp_gt; lia | auto].
Qed.

Lemma Array_sort_sorted_by l : StronglySorted R (Array_sort cmp l).
Proof.
  induction l as [|x l IH]; simpl; [constructor|].
  apply sort_insert_sorted_by, IH.
Qed.
End ArraySortKey.

Section RankingFacts.
Variable localeCompare : jsstring -> jsstring -> Z.

Let baseList (ap : AuthorPapers) : list (AuthorEntry (list Paper)) :=
  List.map (fun e => mkEntry (fst e) (snd e) (length (snd e)) None)
           (Object_entries ap).

Let sortedList (ap : AuthorPapers) : list (AuthorEntry (list Paper)) :=
  Array_sort (compareAuthors localeCompare (P := list Paper)) (baseList ap).

Lemma rankAuthors_eq ap :
  rankAuthors localeCompare ap
  = List.map sortPapers (assignRanks None 0 (sortedList ap)).
Proof.
  unfold rankAuthors. fold (baseList ap). fold (sortedList ap).
  destruct (sortedList ap); reflexivity.
Qed.

Lemma rankAuthors_keys ap :
  List.map (fun e => (entry_name e, count e)) (rankAuthors localeCompare ap)
  = List.map (fun e => (entry_name e, count e)) (sortedList ap).
Proof.
  rewrite rankAuthors_eq.
  transitivity
    (List.map (fun t : jsstring * list Paper * nat => (fst (fst t), snd t))
       (List.map (fun e => (entry_name e, entry_papers e, count e))
          (assignRanks None 0 (sortedList ap)))).
  - rewrite !map_map. reflexivity.
  - rewrite assignRanks_fields, map_map. reflexivity.
Qed.

Lemma rankAuthors_In ap e :
  In e (rankAuthors localeCompare ap) ->
  exists l, In (entry_name e, l) ap
    /\ entry_papers e = Array_sort compareYear l
    /\ count e = length l
    /\ exists r, rank e = Some r.
Proof.
  rewrite rankAuthors_eq. intros H.
  apply in_map_iff in H. destruct H as [e1 [<- H1]].
  destruct (assignRanks_ranked _ _ _ _ H1) as [r Hr].
  apply (in_map (fun e => (entry_name e, entry_papers e, count e))) in H1.
  rewrite assignRanks_fields in H1.
  apply in_map_iff in H1. destruct H1 as [e0 [E0 H0]].
  apply Array_sort_In in H0. apply in_map_iff in H0.
  destruct H0 as [[n l] [<- Hnl]]. simpl in E0.
  apply (Permutation_in _ (Object_entries_perm ap)) in Hnl.
  injection E0 as En Ep Ec. exists l. simpl.
  rewrite <- En, <- Ep, <- Ec. eauto.
Qed.

Lemma rankAuthors_names ap :
  Permutation (List.map (@entry_name _) (rankAuthors localeCompare ap))
              (List.map fst ap).
Proof.
  transitivity
    (List.map fst (List.map (fun e => (entry_name e, count e))
                    (rankAuthors localeCompare ap))).
  { rewrite map_map. reflexivity. }
  rewrite rankAuthors_keys, map_map. simpl.
  change (fun x : AuthorEntry (list Paper) => entry_name x)
    with (@entry_name (list Paper)).
  unfold sortedList. rewrite Array_sort_perm. unfold baseList.
  rewrite map_map. simpl.
  apply Permutation_map, Object_entries_perm.
Qed.

Lemma rankAuthors_complete ap n l :
  In (n, l) ap -> exists e, In e (rankAuthors localeCompare ap)
                            /\ entry_name e = n.
Proof.
  intros H. apply (in_map fst) in H. simpl in H.
  apply (Permutation_in _ (Permutation_sym (rankAuthors_names ap))) in H.
  apply in_map_iff in H. destruct H as [e [<- He]]. eauto.
Qed.

(** What a ranking that completes normally contains. *)
Lemma ranking_spec names papers es :
  ranking localeCompare names papers = Normal es ->
  let cs := credits names papers in
  NoDup (List.map (@entry_name _) es)
  /\ (forall e, In e es ->
        creditedTo (entry_name e) cs <> []
        /\ entry_papers e = Array_sort compareYear (creditedTo (entry_name e) cs)
        /\ count e = length (creditedTo (entry_name e) cs)
        /\ exists r, rank e = Some r)
  /\ (forall n, creditedTo n cs <> [] ->
        exists e, In e es /\ entry_name e = n).
Proof.
  intros H cs. unfold ranking in H. fold cs in H.
  apply bind_Normal in H. destruct H as [ap [Hap [= <-]]].
  assert (W : WellFormed ap)
    by (eapply pushCredits_WellFormed; [exact Hap | apply WellFormed_nil]).
  pose proof (pushCredits_getOwn _ _ Hap) as G. simpl in G.
  split; [|split].
  - eapply Permutation_NoDup;
      [symmetry; apply rankAuthors_names | apply W].
  - intros e He. apply rankAuthors_In in He.
    destruct He as [l [Hl [Hp [Hc Hr]]]].
    apply (In_getOwn _ _ _ (proj1 W)) in Hl. rewrite G in Hl.
    destruct (creditedTo (entry_name e) cs) as [|p ps] eqn:E;
      [discriminate|]. injection Hl as <-.
    repeat split; auto. discriminate.
  - intros n Hn. specialize (G n).
    destruct (creditedTo n cs) as [|p ps] eqn:E; [congruence|].
    apply getOwn_In in G. eapply rankAuthors_complete; exact G.
Qed.

Lemma renderAuthorsRanking_eq papers :
  renderAuthorsRanking localeCompare papers
  = ranking localeCompare namesAll papers.
Proof.
  unfold renderAuthorsRanking, ranking.
  rewrite (forEach_credits _ _ eachPaperAll_eq). reflexivity.
Qed.

Lemma renderFirstAuthorsRanking_eq papers :
  renderFirstAuthorsRanking localeCompare papers
  = ranking localeCompare namesFirst papers.
Proof.
  unfold renderFirstAuthorsRanking, ranking.
  rewrite (forEach_credits _ _ eachPaperFirst_eq). reflexivity.
Qed.

(** The ranking functions return exactly when no credited name is a
    property name of [Object.prototype]. *)
Lemma ranking_Normal_iff names papers :
  (exists es, ranking localeCompare names papers = Normal es)
  <-> forall p n, In p papers -> In n (names p) -> inherited n = false.
Proof.
  unfold ranking.
  pose proof (pushCredits_Normal_iff (credits names papers)
                (WellFormed_nil (list Paper))) as I.
  split.
  - intros [es H] p n Hp Hn. apply bind_Normal in H.
    destruct H as [ap [Hap _]].
    apply (proj1 I (ex_intro _ ap Hap) (n, p)).
    unfold credits. apply in_flat_map. exists p. split; [exact Hp|].
    apply in_map_iff. exists n. split; [reflexivity | exact Hn].
  - intros H. destruct (proj2 I) as [ap Hap].
    + intros [n p] Hc. unfold credits in Hc. apply in_flat_map in Hc.
      destruct Hc as [q [Hq Hc]]. apply in_map_iff in Hc.
      destruct Hc as [m [[= <- <-] Hm]]. simpl. eauto.
    + rewrite Hap. simpl. eauto.
Qed.
End RankingFacts.

(** ** Credits in terms of the input papers *)

Lemma creditedTo_names X p (ns : list jsstring) :
  creditedTo X (List.map (fun n => (n, p)) ns)
  = repeat p (length (List.filter (fun n => jsstring_eqb n X) ns)).
Proof.
  induction ns as [|n ns IH]; [reflexivity|].
  simpl List.map. rewrite creditedTo_cons. simpl.
  destruct (jsstring_eqb n X); simpl; rewrite IH; reflexivity.
Qed.

Lemma filter_truthyName X l : X <> [] ->
  length (List.filter (fun n => jsstring_eqb n X) (flat_map truthyName l))
  = length (List.filter (namedExactly X) l).
Proof.
  intros HX. induction l as [|a l IH]; simpl; [reflexivity|].
  rewrite filter_app, length_app, IH. clear IH.
  unfold truthyName, namedExactly.
  destruct (name a) as [[|c n]|]; cbn -[jsstring_eqb].
  - replace (jsstring_eqb [] X) with false; [reflexivity|].
    symmetry. apply jsstring_eqb_neq. congruence.
  - destruct (jsstring_eqb (c :: n) X); reflexivity.
  - reflexivity.
Qed.

Lemma creditedTo_all X papers : X <> [] ->
  creditedTo X (credits namesAll papers) = papersCrediting X papers.
Proof.
  intros HX. unfold credits, papersCrediting.
  induction papers as [|p papers IH]; simpl; [reflexivity|].
  rewrite creditedTo_app, IH, creditedTo_names. f_equal. f_equal.
  unfold namesAll, recordsNamed. destruct (authors p); try reflexivity.
  apply filter_truthyName, HX.
Qed.

Lemma creditedTo_first X papers : X <> [] ->
  creditedTo X (credits namesFirst papers)
  = List.filter (firstAuthorIs X) papers.
Proof.
  intros HX. unfold credits.
  induction papers as [|p papers IH]; simpl; [reflexivity|].
  rewrite creditedTo_app, IH, creditedTo_names.
  unfold namesFirst, firstAuthorIs.
  destruct (authors p) as [| |[|a l]]; try reflexivity.
  pose proof (filter_truthyName [a] HX) as E. simpl in E.
  rewrite app_nil_r in E. rewrite E.
  destruct (namedExactly X a); reflexivity.
Qed.

Lemma credits_nonempty_name names papers n p :
  (forall q m, In m (names q) -> m <> []) ->
  In (n, p) (credits names papers) -> n <> [] /\ In p papers /\ In n (names p).
Proof.
  intros Hn H. unfold credits in H. apply in_flat_map in H.
  destruct H as [q [Hq H]]. apply in_map_iff in H.
  destruct H as [m [[= <- <-] Hm]]. eauto.
Qed.

Lemma truthyName_nonempty a m : In m (truthyName a) -> m <> [].
Proof.
  unfold truthyName. destruct (name a) as [[|c s]|]; simpl; try tauto.
  intros [<-|[]]. discriminate.
Qed.

Lemma namesAll_nonempty q m : In m (namesAll q) -> m <> [].
Proof.
  unfold namesAll. destruct (authors q); simpl; try tauto.
  intros H. apply in_flat_map in H. destruct H as [a [_ H]].
  eapply truthyName_nonempty; exact H.
Qed.

Lemma namesFirst_nonempty q m : In m (namesFirst q) -> m <> [].
Proof.
  unfold namesFirst. destruct (authors q) as [| |[|a l]]; simpl; try tauto.
  apply truthyName_nonempty.
Qed.

Lemma creditedTo_In n cs p :
  In p (creditedTo n cs) <-> In (n, p) cs.
Proof.
  unfold creditedTo. rewrite in_map_iff. split.
  - intros [[m q] [<- H]]. apply filter_In in H. destruct H as [H E].
    simpl in E. apply jsstring_eqb_eq in E. subst m. exact H.
  - intros H. exists (n, p). split; [reflexivity|].
    apply filter_In. split; [exact H | apply jsstring_eqb_refl].
Qed.

Lemma entry_name_nonempty lc names papers es e :
  (forall q m, In m (names q) -> m <> []) ->
  ranking lc names papers = Normal es -> In e es -> entry_name e <> [].
Proof.
  intros Hn H He. destruct (ranking_spec _ _ _ H) as [_ [S _]].
  destruct (S e He) as [Hne _].
  destruct (creditedTo (entry_name e) (credits names papers)) as [|p ps] eqn:E;
    [congruence|].
  assert (Hp : In p (creditedTo (entry_name e) (credits names papers)))
    by (rewrite E; left; reflexivity).
  apply creditedTo_In in Hp.
  eapply credits_nonempty_name; eassumption.
Qed.

Lemma creditedCount_spec lc names papers es X :
  ranking lc names papers = Normal es ->
  creditedCount X es = length (creditedTo X (credits names papers)).
Proof.
  intros H. destruct (ranking_spec _ _ _ H) as [_ [S C]].
  unfold creditedCount.
  destruct (find (fun e => jsstring_eqb (entry_name e) X) es) as [e|] eqn:F.
  - apply find_some in F. destruct F as [He E].
    apply jsstring_eqb_eq in E. subst X. apply (S e He).
  - destruct (creditedTo X (credits names papers)) as [|p ps] eqn:E;
      [reflexivity|].
    destruct (C X) as [e [He En]]; [congruence|].
    apply (find_none _ _ F) in He. rewrite En, jsstring_eqb_refl in He.
    discriminate.
Qed.

Lemma recordsNamed_hasAuthor X p :
  hasAuthor X p = negb (Nat.eqb (recordsNamed X p) 0).
Proof.
  unfold hasAuthor, recordsNamed. destruct (authors p) as [| |l]; try reflexivity.
  induction l as [|a l IH]; simpl; [reflexivity|].
  destruct (namedExactly X a); simpl; [reflexivity | exact IH].
Qed.

Lemma authorRecordsNamed_once X papers :
  (forall p, In p papers -> (recordsNamed X p <= 1)%nat) ->
  authorRecordsNamed X papers = papersWithAuthor X papers.
Proof.
  unfold authorRecordsNamed, papersWithAuthor.
  induction papers as [|p papers IH]; intros H; simpl; [reflexivity|].
  rewrite IH by (intros q Hq; apply H; right; exact Hq).
  rewrite recordsNamed_hasAuthor.
  specialize (H p (or_introl eq_refl)).
  destruct (recordsNamed X p) as [|[|k]]; simpl; lia.
Qed.

Lemma length_papersCrediting X papers :
  length (papersCrediting X papers) = authorRecordsNamed X papers.
Proof.
  unfold papersCrediting, authorRecordsNamed.
  induction papers as [|p papers IH]; simpl; [reflexivity|].
  rewrite length_app, repeat_length, IH. reflexivity.
Qed.

Lemma papersCrediting_once X papers :
  (forall p, In p papers -> (recordsNamed X p <= 1)%nat) ->
  papersCrediting X papers = List.filter (hasAuthor X) papers.
Proof.
  unfold papersCrediting.
  induction papers as [|p papers IH]; intros H; simpl; [reflexivity|].
  rewrite IH by (intros q Hq; apply H; right; exact Hq).
  rewrite recordsNamed_hasAuthor.
  specialize (H p (or_introl eq_refl)).
  destruct (recordsNamed X p) as [|[|k]]; simpl; try reflexivity; lia.
Qed.

Lemma credits_app names l1 l2 :
  credits names (l1 ++ l2) = credits names l1 ++ credits names l2.
Proof. unfold credits. apply flat_map_app. Qed.

Lemma ranking_skip lc names l1 p l2 :
  names p = [] ->
  ranking lc names (l1 ++ p :: l2) = ranking lc names (l1 ++ l2).
Proof.
  intros H. unfold ranking. rewrite !credits_app.
  unfold credits at 2. simpl. rewrite H. reflexivity.
Qed.

Lemma render_eq lc mode papers :
  render lc mode papers = ranking lc (selected mode) papers.
Proof.
  destruct mode; simpl;
    [apply renderAuthorsRanking_eq | apply renderFirstAuthorsRanking_eq].
Qed.

Lemma selected_nonempty mode q m : In m (selected mode q) -> m <> [].
Proof.
  destruct mode; simpl; [apply namesAll_nonempty | apply namesFirst_nonempty].
Qed.

Lemma creditedPapers_first X papers :
  creditedPapers FIRST_AUTHOR_ONLY X papers
  = List.filter (firstAuthorIs X) papers.
Proof.
  unfold creditedPapers. induction papers as [|p papers IH];
    [reflexivity|].
  simpl in *. rewrite IH. destruct (firstAuthorIs X p); reflexivity.
Qed.

Lemma creditedTo_selected mode X papers : X <> [] ->
  creditedTo X (credits (selected mode) papers) = creditedPapers mode X papers.
Proof.
  destruct mode; simpl; intros HX.
  - apply creditedTo_all, HX.
  - rewrite creditedPapers_first. apply creditedTo_first, HX.
Qed.

Lemma selected_hasAuthor mode p n :
  In n (selected mode p) -> hasAuthor n p = true.
Proof.
  assert (T : forall a, In n (truthyName a) -> namedExactly n a = true).
  { intros a. unfold truthyName, namedExactly.
    destruct (name a) as [[|c s]|]; cbn -[jsstring_eqb]; try tauto.
    intros [<-|[]]. apply jsstring_eqb_refl. }
  unfold hasAuthor. destruct mode; simpl; unfold namesAll, namesFirst;
    destruct (authors p) as [| |l]; simpl; try tauto.
  - intros H. apply in_flat_map in H. destruct H as [a [Ha H]].
    apply existsb_exists. exists a. auto.
  - destruct l as [|a l]; simpl; [tauto|]. intros H.
    rewrite (T a H). reflexivity.
Qed.

(** Either function returns exactly when no name it credits is a property
    name of [Object.prototype]; otherwise it throws. *)
Lemma render_Normal_iff lc mode papers :
  (exists es, render lc mode papers = Normal es)
  <-> forall p n, In p papers -> In n (selected mode p) -> inherited n = false.
Proof. rewrite render_eq. apply ranking_Normal_iff. Qed.

Lemma render_throws lc mode papers p n :
  In p papers -> In n (selected mode p) -> inherited n = true ->
  render lc mode papers = ThrowTypeError.
Proof.
  intros Hp Hn Hi. destruct (render lc mode papers) as [es|] eqn:E;
    [|reflexivity].
  pose proof (proj1 (render_Normal_iff lc mode papers) (ex_intro _ es E)
                p n Hp Hn). congruence.
Qed.

(** ** The rank loop is dense, the author sort is by count *)

Lemma assignRanks_head (P : Type) (l : list (AuthorEntry P)) pc r e :
  nth_error (assignRanks pc r l) 0 = Some e ->
  exists a, nth_error l 0 = Some a /\ count e = count a
    /\ rank e = Some (if countChanged (count a) pc then S r else r).
Proof.
  destruct l as [|a l]; simpl; [discriminate|].
  intros [= <-]. exists a. auto.
Qed.

Lemma assignRanks_step (P : Type) (l : list (AuthorEntry P)) :
  forall pc r i a b,
    nth_error (assignRanks pc r l) i = Some a ->
    nth_error (assignRanks pc r l) (S i) = Some b ->
    exists k, rank a = Some k
      /\ rank b = Some (if Nat.eqb (count b) (count a) then k else S k).
Proof.
  induction l as [|x l IH]; intros pc r i a b; simpl; [destruct i; discriminate|].
  destruct i as [|i]; simpl.
  - intros [= <-] Hb. apply assignRanks_head in Hb.
    destruct Hb as [b0 [_ [Ec Er]]]. eexists. split; [reflexivity|].
    simpl. rewrite Er, Ec. simpl.
    destruct (Nat.eqb (count b0) (count x)); reflexivity.
  - apply IH.
Qed.

Lemma StronglySorted_adjacent (A : Type) (R : A -> A -> Prop) (l : list A) :
  StronglySorted R l ->
  forall i a b, nth_error l i = Some a -> nth_error l (S i) = Some b -> R a b.
Proof.
  induction 1 as [|x l Hs IH Hx]; intros i a b; [destruct i; discriminate|].
  destruct i as [|i]; simpl.
  - intros [= <-] Hb. rewrite Forall_forall in Hx. apply Hx.
    apply (nth_error_In l 0). exact Hb.
  - apply IH.
Qed.

Lemma rankAuthors_by_count lc ap :
  StronglySorted (fun a b => (count b <= count a)%nat) (rankAuthors lc ap).
Proof.
  apply (StronglySorted_map (@count (list Paper))
           (fun m n => (n <= m)%nat)).
  replace (List.map (@count _) (rankAuthors lc ap))
    with (List.map snd (List.map (fun e => (entry_name e, count e))
                                 (rankAuthors lc ap)))
    by (rewrite map_map; reflexivity).
  rewrite rankAuthors_keys, map_map. simpl.
  apply -> (StronglySorted_map (@count (list Paper))
              (fun m n => (n <= m)%nat)).
  apply Array_sort_sorted_by with (cmp := compareAuthors lc (P := list Paper)).
  - intros; lia.
  - intros a b. unfold compareAuthors.
    destruct (Nat.eqb_spec (count b) (count a)); simpl; lia.
  - intros a b. unfold compareAuthors.
    destruct (Nat.eqb_spec (count b) (count a)); simpl; lia.
Qed.

Lemma ranking_rankAuthors lc names papers es :
  ranking lc names papers = Normal es ->
  exists ap, pushCredits (credits names papers) [] = Normal ap
             /\ es = rankAuthors lc ap.
Proof.
  unfold ranking. intros H. apply bind_Normal in H.
  destruct H as [ap [Hap [= <-]]]. eauto.
Qed.

(** ** [getSurname] yields the last whitespace-separated token *)

Lemma trimStart_spec s :
  exists w, s = w ++ trimStart s
    /\ Forall (fun c => isWhiteSpace c = true) w
    /\ (trimStart s = []
        \/ exists c r, trimStart s = c :: r /\ isWhiteSpace c = false).
Proof.
  induction s as [|c s IH]; simpl.
  - exists []. auto.
  - destruct (isWhiteSpace c) eqn:Wc.
    + destruct IH as [w [E [Fw T]]]. exists (c :: w). simpl.
      rewrite <- E. auto.
    + exists []. split; [reflexivity|]. split; [constructor|].
      right. eauto.
Qed.

Lemma trimEnd_spec u :
  exists w, u = trimEnd u ++ w
    /\ Forall (fun c => isWhiteSpace c = true) w
    /\ (trimEnd u = []
        \/ exists r c, trimEnd u = r ++ [c] /\ isWhiteSpace c = false).
Proof.
  unfold trimEnd. destruct (trimStart_spec (rev u)) as [w [E [Fw T]]].
  exists (rev w). split; [|split].
  - rewrite <- rev_app_distr, <- E, rev_involutive. reflexivity.
  - apply Forall_rev, Fw.
  - destruct T as [->|[c [r [-> Wc]]]]; [left; reflexivity|].
    right. exists (rev r), c. simpl. auto.
Qed.

Lemma split_aux_nonempty s : forall b cur, split_aux b cur s <> [].
Proof.
  induction s as [|c s IH]; intros b cur; simpl; [discriminate|].
  destruct (isWhiteSpace c); [destruct b|]; try apply IH. discriminate.
Qed.

Lemma last_cons_nonempty (A : Type) (x : A) l d : l <> [] ->
  last (x :: l) d = last l d.
Proof. destruct l; [congruence | reflexivity]. Qed.

Lemma split_aux_last s : forall b cur,
  Forall (fun c => isWhiteSpace c = false) cur ->
  exists pre key,
    rev cur ++ s = pre ++ key
    /\ last (split_aux b cur s) [] = key
    /\ Forall (fun c => isWhiteSpace c = false) key
    /\ (pre = [] \/ exists pre' c, pre = pre' ++ [c] /\ isWhiteSpace c = true).
Proof.
  induction s as [|c s IH]; intros b cur Hcur.
  - exists [], (rev cur). simpl. rewrite app_nil_r.
    repeat split; auto. apply Forall_rev, Hcur.
  - simpl. destruct (isWhiteSpace c) eqn:Wc.
    + destruct (IH true [] (Forall_nil _)) as [pre [key [E [L [Fk Hpre]]]]].
      simpl in E.
      exists (rev cur ++ c :: pre), key. split; [|split; [|split]].
      * rewrite E, <- app_assoc. reflexivity.
      * destruct b; [exact L|].
        rewrite last_cons_nonempty by apply split_aux_nonempty. exact L.
      * exact Fk.
      * right. destruct Hpre as [->|[pre' [d [-> Wd]]]].
        -- exists (rev cur), c. auto.
        -- exists (rev cur ++ c :: pre'), d. rewrite <- app_assoc. auto.
    + destruct (IH false (c :: cur)) as [pre [key [E [L [Fk Hpre]]]]];
        [constructor; assumption|].
      exists pre, key. simpl in E. rewrite <- app_assoc in E. auto.
Qed.

Lemma getSurname_LastToken s : LastToken s (getSurname s).
Proof.
  unfold getSurname, trim, split_ws.
  destruct (trimStart_spec s) as [w1 [E1 [F1 _]]].
  destruct (trimEnd_spec (trimStart s)) as [w2 [E2 [F2 T]]].
  set (t := trimEnd (trimStart s)) in *.
  destruct (split_aux_last t false (cur := []) (Forall_nil _))
    as [pre [key [E [L [Fk Hpre]]]]].
  simpl in E. rewrite L. clear L.
  exists (w1 ++ pre), w2. split; [|split; [|split; [|split]]].
  - rewrite E1 at 1. rewrite E2 at 1. rewrite E, <- !app_assoc. reflexivity.
  - exact F2.
  - exact Fk.
  - destruct Hpre as [->|[pre' [c [-> Wc]]]].
    + rewrite app_nil_r. destruct (rev w1) as [|c r] eqn:Er.
      * left. apply (f_equal (@rev N)) in Er.
        rewrite rev_involutive in Er. exact Er.
      * right. exists (rev r), c. split.
        -- apply (f_equal (@rev N)) in Er.
           rewrite rev_involutive in Er. exact Er.
        -- apply Forall_rev in F1. rewrite Er in F1.
           inversion F1; assumption.
    + right. exists (w1 ++ pre'), c. rewrite <- app_assoc. auto.
  - intros ->. rewrite app_nil_r in E.
    assert (Et : t = []).
    { destruct T as [Et|[r [c [Et Wc]]]]; [exact Et|].
      destruct Hpre as [Hp|[pre' [d [Hp Wd]]]]; [congruence|].
      rewrite E, Hp in Et. apply app_inj_tail in Et.
      destruct Et as [_ ->]. congruence. }
    rewrite E1, E2, Et. simpl. apply Forall_app. auto.
Qed.

Lemma trimStart_ws w s :
  Forall (fun c => isWhiteSpace c = true) w -> trimStart (w ++ s) = trimStart s.
Proof.
  induction 1 as [|c w Wc F IH]; simpl; [reflexivity|]. rewrite Wc. exact IH.
Qed.

Lemma takeToken_app k s :
  Forall (fun c => isWhiteSpace c = false) k ->
  (s = [] \/ exists c s', s = c :: s' /\ isWhiteSpace c = true) ->
  takeToken (k ++ s) = k.
Proof.
  intros F Hs. induction F as [|c k Wc F IH]; simpl.
  - destruct Hs as [->|[c [s' [-> Wc]]]]; simpl; [|rewrite Wc]; reflexivity.
  - rewrite Wc, IH. reflexivity.
Qed.

(** The last token is determined by the string. *)
Lemma LastToken_takeToken s key :
  LastToken s key -> key = rev (takeToken (trimStart (rev s))).
Proof.
  intros [pre [post [E [Fpost [Fkey [Hpre Hempty]]]]]].
  destruct key as [|c key].
  - specialize (Hempty eq_refl). apply Forall_rev in Hempty.
    rewrite <- (app_nil_r (rev s)), trimStart_ws by exact Hempty.
    reflexivity.
  - rewrite E, !rev_app_distr, <- app_assoc.
    rewrite trimStart_ws by (apply Forall_rev; exact Fpost).
    assert (Hk : trimStart (rev (c :: key) ++ rev pre)
                 = rev (c :: key) ++ rev pre).
    { apply Forall_rev in Fkey.
      destruct (rev (c :: key)) as [|d r] eqn:Er.
      - apply (f_equal (@length N)) in Er. rewrite length_rev in Er.
        discriminate.
      - inversion Fkey as [|? ? Wd _]; subst. simpl. rewrite Wd. reflexivity. }
    rewrite Hk, takeToken_app, rev_involutive; [reflexivity | |].
    + apply Forall_rev. exact Fkey.
    + destruct Hpre as [->|[pre' [d [-> Wd]]]]; [left; reflexivity|].
      right. rewrite rev_app_distr. simpl. eauto.
Qed.

Lemma LastToken_getSurname s key : LastToken s key <-> key = getSurname s.
Proof.
  split.
  - intros H. rewrite (LastToken_takeToken H).
    symmetry. apply LastToken_takeToken, getSurname_LastToken.
  - intros ->. apply getSurname_LastToken.
Qed.

(** * The claims about the ranking engine *)

Section RankingClaims.
Variable localeCompare : jsstring -> jsstring -> Z.

(** C2, as amended.  When [renderAuthorsRanking] completes, the count it
    shows for a non-empty name [X] is the number of author records named
    exactly [X] over all papers, whatever their position; a paper that
    lists [X] several times counts that many times.  All occurrences
    accumulate in one entry (entry names are distinct).  When no paper
    lists [X] more than once, the count is the number of papers whose
    author list contains [X]. *)
Theorem C2_all_authors_count papers es X :
  renderAuthorsRanking localeCompare papers = Normal es ->
  X <> [] ->
  creditedCount X es = authorRecordsNamed X papers
  /\ NoDup (List.map (@entry_name _) es)
  /\ ((forall p, In p papers -> (recordsNamed X p <= 1)%nat) ->
      creditedCount X es = papersWithAuthor X papers).
Proof.
  rewrite renderAuthorsRanking_eq. intros H HX.
  assert (E : creditedCount X es = authorRecordsNamed X papers).
  { rewrite (creditedCount_spec _ _ _ X H), creditedTo_all by exact HX.
    apply length_papersCrediting. }
  split; [exact E|]. split.
  - apply (ranking_spec _ _ _ H).
  - intros Once. rewrite E. apply authorRecordsNamed_once, Once.
Qed.

(** C5.  When [renderFirstAuthorsRanking] completes, every paper in an
    entry is an input paper whose author record at index 0 bears the
    entry's name; the entry's count is the number of such papers; and a
    paper with an empty author list changes nothing: the ranking of the
    input without it is the same. *)
Theorem C5_first_author_only papers es :
  renderFirstAuthorsRanking localeCompare papers = Normal es ->
  (forall e p, In e es -> In p (entry_papers e) ->
      In p papers /\ firstAuthorIs (entry_name e) p = true)
  /\ (forall e, In e es ->
        count e = length (List.filter (firstAuthorIs (entry_name e)) papers))
  /\ (forall X, X <> [] ->
        creditedCount X es = length (List.filter (firstAuthorIs X) papers))
  /\ (forall l1 p l2, papers = l1 ++ p :: l2 -> authors p = AuthorsArray [] ->
        renderFirstAuthorsRanking localeCompare (l1 ++ l2) = Normal es).
Proof.
  rewrite renderFirstAuthorsRanking_eq. intros H.
  destruct (ranking_spec _ _ _ H) as [_ [S _]].
  assert (Hne : forall e, In e es -> entry_name e <> [])
    by (intros e He;
        exact (entry_name_nonempty _ _ _ e namesFirst_nonempty H He)).
  split; [|split; [|split]].
  - intros e p He Hp. destruct (S e He) as [_ [Ep _]]. rewrite Ep in Hp.
    apply Array_sort_In in Hp.
    rewrite creditedTo_first in Hp by auto.
    apply filter_In in Hp. exact Hp.
  - intros e He. destruct (S e He) as [_ [_ [Ec _]]].
    rewrite Ec, creditedTo_first by auto. reflexivity.
  - intros X HX. rewrite (creditedCount_spec _ _ _ X H), creditedTo_first
      by exact HX. reflexivity.
  - intros l1 p l2 -> Hp. rewrite renderFirstAuthorsRanking_eq.
    rewrite <- H. symmetry. apply ranking_skip.
    unfold namesFirst. rewrite Hp. reflexivity.
Qed.

(** C8.  In either mode, the papers of every entry are in descending year
    order; they are a rearrangement of the papers crediting the entry's
    name; and for each year, the papers of that year stand as in the input
    collection: they are the input, in its order, restricted to the papers
    of that year crediting the name. *)
Theorem C8_papers_by_year_stable mode papers es e :
  render localeCompare mode papers = Normal es ->
  In e es ->
  StronglySorted (fun a b => year a >= year b) (entry_papers e)
  /\ Permutation (entry_papers e) (creditedPapers mode (entry_name e) papers)
  /\ forall y,
       List.filter (fun p => year p =? y) (entry_papers e)
       = List.filter (fun p => year p =? y)
                     (creditedPapers mode (entry_name e) papers).
Proof.
  rewrite render_eq. intros H He.
  pose proof (entry_name_nonempty _ _ _ e (selected_nonempty mode) H He) as Hne.
  destruct (ranking_spec _ _ _ H) as [_ [S _]].
  destruct (S e He) as [_ [Ep _]].
  rewrite creditedTo_selected in Ep by exact Hne. rewrite Ep.
  split; [apply compareYear_sorted|].
  split; [apply Array_sort_perm | intros y; apply compareYear_stable].
Qed.

(** C9.  In either mode a paper whose [authors] is missing or not an
    array is passed over without a throw and the ranking is that of the
    input without it; an author record without a name is passed over
    without a throw and the loop goes on with the remaining records; and
    every entry of the output bears a non-empty name that occurs in the
    author array of each of its papers. *)
Theorem C9_malformed_skipped mode :
  (forall p ap, notArray p -> eachPaper mode p ap = Normal ap)
  /\ (forall l1 p l2, notArray p ->
        render localeCompare mode (l1 ++ p :: l2)
        = render localeCompare mode (l1 ++ l2))
  /\ (forall p a ap, name a = None -> eachAuthor p a ap = Normal ap)
  /\ (forall p a1 a a2 ap, name a = None ->
        forEach (eachAuthor p) (a1 ++ a :: a2) ap
        = forEach (eachAuthor p) (a1 ++ a2) ap)
  /\ (forall p a rest ap, authors p = AuthorsArray (a :: rest) ->
        name a = None -> eachPaperFirst p ap = Normal ap)
  /\ (forall papers es e, render localeCompare mode papers = Normal es ->
        In e es ->
        entry_name e <> []
        /\ forall p, In p (entry_papers e) ->
             In p papers /\ hasAuthor (entry_name e) p = true).
Proof.
  split; [|split; [|split; [|split; [|split]]]].
  - intros p ap [H|[s H]]; destruct mode; simpl;
      unfold eachPaperAll, eachPaperFirst; rewrite H; reflexivity.
  - intros l1 p l2 Hp. rewrite !render_eq. apply ranking_skip.
    destruct Hp as [H|[s H]]; destruct mode; simpl;
      unfold namesAll, namesFirst; rewrite H; reflexivity.
  - intros p a ap H. unfold eachAuthor. rewrite H. reflexivity.
  - intros p a1 a a2 ap H. rewrite !forEach_app. simpl.
    unfold eachAuthor at 2. rewrite H. simpl.
    destruct (forEach (eachAuthor p) a1 ap); reflexivity.
  - intros p a rest ap Hp H. unfold eachPaperFirst. rewrite Hp, H.
    reflexivity.
  - intros papers es e H He. rewrite render_eq in H.
    split; [apply (entry_name_nonempty _ _ _ e (selected_nonempty mode) H He)|].
    intros p Hp. destruct (ranking_spec _ _ _ H) as [_ [S _]].
    destruct (S e He) as [_ [Ep _]]. rewrite Ep in Hp.
    apply Array_sort_In, creditedTo_In in Hp.
    apply (credits_nonempty_name _ _ _ _ (selected_nonempty mode)) in Hp.
    destruct Hp as [_ [Hin Hn]]. split; [exact Hin|].
    eapply selected_hasAuthor; exact Hn.
Qed.

(** C3.  In either mode the ranks of the output are dense: the first
    entry has rank 1, and every further entry has the rank of its
    predecessor when the counts are equal and that rank plus 1 otherwise,
    the counts never increasing along the sequence. *)
Theorem C3_dense_ranks mode papers es :
  render localeCompare mode papers = Normal es ->
  (forall e, nth_error es 0 = Some e -> rank e = Some 1%nat)
  /\ (forall i a b,
        nth_error es i = Some a -> nth_error es (S i) = Some b ->
        (count b <= count a)%nat
        /\ exists k, rank a = Some k
             /\ rank b = Some (if Nat.eqb (count b) (count a)
                               then k else S k)).
Proof.
  rewrite render_eq. intros H.
  apply ranking_rankAuthors in H. destruct H as [ap [_ ->]].
  split.
  - intros e. rewrite rankAuthors_eq, nth_error_map.
    destruct (nth_error _ 0) as [e1|] eqn:E1; [|discriminate].
    intros [= <-]. apply assignRanks_head in E1.
    destruct E1 as [a [_ [_ Er]]]. exact Er.
  - intros i a b Ha Hb. split.
    + exact (StronglySorted_adjacent (rankAuthors_by_count localeCompare ap)
               _ Ha Hb).
    + rewrite rankAuthors_eq, nth_error_map in Ha, Hb.
      destruct (nth_error _ i) as [a1|] eqn:Ea; [|discriminate].
      destruct (nth_error _ (S i)) as [b1|] eqn:Eb; [|discriminate].
      injection Ha as <-. injection Hb as <-.
      exact (assignRanks_step _ _ _ _ Ea Eb).
Qed.
End RankingClaims.

(** The author sort needs a consistent comparator: [localeCompare] is taken
    to be a total preorder on strings, as a collation is. *)
Section AuthorOrder.
Variable localeCompare : jsstring -> jsstring -> Z.
Hypothesis localeCompare_total :
  forall s t, localeCompare s t <= 0 \/ localeCompare t s <= 0.
Hypothesis localeCompare_trans :
  forall s t u, localeCompare s t <= 0 -> localeCompare t u <= 0 ->
                localeCompare s u <= 0.

Let before (a b : jsstring * nat) : Prop :=
  (snd b < snd a)%nat
  \/ (snd a = snd b
      /\ localeCompare (getSurname (fst a)) (getSurname (fst b)) <= 0).

Lemma rankAuthors_sorted ap :
  StronglySorted
    (fun a b => before (entry_name a, count a) (entry_name b, count b))
    (rankAuthors localeCompare ap).
Proof.
  apply (StronglySorted_map
           (fun e : AuthorEntry (list Paper) => (entry_name e, count e))
           before).
  rewrite rankAuthors_keys.
  apply -> (StronglySorted_map
              (fun e : AuthorEntry (list Paper) => (entry_name e, count e))
              before).
  apply Array_sort_sorted_by
    with (cmp := compareAuthors localeCompare (P := list Paper));
    unfold before, compareAuthors; simpl.
  - intros x y z [Hxy|[Exy Lxy]] [Hyz|[Eyz Lyz]]; try (left; lia).
    right. split; [lia|]. eapply localeCompare_trans; eassumption.
  - intros a b. destruct (Nat.eqb_spec (count b) (count a)); simpl;
      intros H; [right; split; [lia | exact H] | left; lia].
  - intros a b. destruct (Nat.eqb_spec (count b) (count a)); simpl;
      intros H; [|left; lia].
    right. split; [lia|].
    destruct (localeCompare_total (getSurname (entry_name a))
                                  (getSurname (entry_name b))); [lia|].
    assumption.
Qed.

(** C4.  In either mode the output is sorted by count descending, and of
    any two entries with equal counts the earlier one has the surname key
    that [localeCompare] places first (or level); the surname key is the
    last whitespace-separated token of the entry's name, and nothing
    else is. *)
Theorem C4_sorted_by_count_then_surname mode papers es :
  render localeCompare mode papers = Normal es ->
  StronglySorted
    (fun a b =>
       (count b <= count a)%nat
       /\ (count a = count b ->
           localeCompare (getSurname (entry_name a))
                         (getSurname (entry_name b)) <= 0)) es
  /\ forall e key, In e es ->
       (LastToken (entry_name e) key <-> key = getSurname (entry_name e)).
Proof.
  rewrite render_eq. intros H.
  apply ranking_rankAuthors in H. destruct H as [ap [_ ->]].
  split; [|intros e key _; apply LastToken_getSurname].
  eapply StronglySorted_impl; [|apply rankAuthors_sorted].
  unfold before; simpl. intros a b [Hlt|[E L]]; split; lia.
Qed.
End AuthorOrder.

(** * The claims about the year range *)

Lemma fold_min_max years : forall lo hi, lo <= hi ->
  fold_left Z.min years lo <= fold_left Z.max years hi.
Proof.
  induction years as [|y years IH]; intros lo hi H; simpl; [exact H|].
  apply IH. lia.
Qed.

Ltac range_fields :=
  cbn [minYear maxYear yearFrom yearTo sliderFrom sliderTo].

(** Writing a number into a slider whose limits are the integers [lo] and
    [hi], in order. *)
Lemma setValue_within sl v lo hi :
  slider_min sl = Fin lo -> slider_max sl = Fin hi -> lo <= hi ->
  slider_min (setValue sl (Fin v)) = Fin lo
  /\ slider_max (setValue sl (Fin v)) = Fin hi
  /\ slider_value (setValue sl (Fin v)) = Z.max lo (Z.min hi v).
Proof.
  intros A B H. unfold setValue, minimum, maximum. rewrite A, B. simpl.
  split; [reflexivity|]. split; [reflexivity|].
  destruct (Z.ltb_spec v lo); [lia|].
  destruct (Z.ltb_spec hi v), (Z.leb_spec lo hi); simpl; lia.
Qed.

Lemma initYearSlider_InRange s lo hi :
  minYear s = Fin lo -> maxYear s = Fin hi -> lo <= hi ->
  InRangeOf lo hi (initYearSlider s).
Proof.
  intros A B H. unfold InRangeOf, initYearSlider. rewrite A, B. range_fields.
  destruct (@setValue_within (mkSlider (Fin lo) (Fin hi)
                                (slider_value (sliderFrom s))) lo lo hi)
    as [F1 [F2 F3]]; try reflexivity; try exact H.
  destruct (@setValue_within (mkSlider (Fin lo) (Fin hi)
                                (slider_value (sliderTo s))) hi lo hi)
    as [T1 [T2 T3]]; try reflexivity; try exact H.
  rewrite F1, F2, F3, T1, T2, T3.
  replace (Z.max lo (Z.min hi lo)) with lo by lia.
  replace (Z.max lo (Z.min hi hi)) with hi by lia.
  repeat split; auto; lia.
Qed.

Lemma loadPapers_InRange s papers :
  papers <> [] -> InRange (loadPapers s papers).
Proof.
  intros H. destruct papers as [|p papers]; [congruence|].
  unfold loadPapers. simpl List.map. unfold Math_min, Math_max.
  eexists _, _. apply initYearSlider_InRange; [reflexivity..|].
  apply fold_min_max. lia.
Qed.

Lemma handle_InRange lo hi s e :
  InRangeOf lo hi s -> InRangeOf lo hi (handle s e).
Proof.
  unfold InRangeOf. intros [A [B [C [D [E [F [G [H [I [J K]]]]]]]]]].
  assert (L : lo <= hi) by lia.
  destruct e as [v|v|]; unfold handle, onInputFrom, onInputTo, onReset;
    range_fields.
  - destruct (@setValue_within (sliderFrom s) v lo hi C D L) as [S1 [S2 S3]].
    rewrite Z.gtb_ltb.
    destruct (Z.ltb_spec (slider_value (sliderTo s))
                (slider_value (setValue (sliderFrom s) (Fin v))));
      range_fields.
    + destruct (@setValue_within (setValue (sliderFrom s) (Fin v))
                  (slider_value (sliderTo s)) lo hi S1 S2 L)
        as [R1 [R2 R3]].
      rewrite R1, R2, R3.
      replace (Z.max lo (Z.min hi (slider_value (sliderTo s))))
        with (slider_value (sliderTo s)) by lia.
      repeat split; auto; lia.
    + rewrite S1, S2. repeat split; auto; lia.
  - destruct (@setValue_within (sliderTo s) v lo hi E F L) as [S1 [S2 S3]].
    destruct (Z.ltb_spec (slider_value (setValue (sliderTo s) (Fin v)))
                (slider_value (sliderFrom s))); range_fields.
    + destruct (@setValue_within (setValue (sliderTo s) (Fin v))
                  (slider_value (sliderFrom s)) lo hi S1 S2 L)
        as [R1 [R2 R3]].
      rewrite R1, R2, R3.
      replace (Z.max lo (Z.min hi (slider_value (sliderFrom s))))
        with (slider_value (sliderFrom s)) by lia.
      repeat split; auto; lia.
    + rewrite S1, S2. repeat split; auto; lia.
  - rewrite A, B.
    destruct (@setValue_within (sliderFrom s) lo lo hi C D L) as [S1 [S2 S3]].
    destruct (@setValue_within (sliderTo s) hi lo hi E F L) as [T1 [T2 T3]].
    rewrite S1, S2, S3, T1, T2, T3.
    replace (Z.max lo (Z.min hi lo)) with lo by lia.
    replace (Z.max lo (Z.min hi hi)) with hi by lia.
    repeat split; auto; lia.
Qed.


Lemma handle_bounds s e :
  minYear (handle s e) = minYear s /\ maxYear (handle s e) = maxYear s.
Proof.
  destruct e as [v|v|]; unfold handle, onInputFrom, onInputTo; simpl;
    try match goal with |- context [if ?b then _ else _] => destruct b end;
    simpl; auto.
Qed.

Lemma handleAll_bounds events : forall s,
  minYear (handleAll events s) = minYear s
  /\ maxYear (handleAll events s) = maxYear s.
Proof.
  induction events as [|e events IH]; intros s; simpl; [auto|].
  destruct (IH (handle s e)) as [-> ->]. apply handle_bounds.
Qed.



(** * The store model refines the value model *)

Lemma nth_error_replaceAt_eq (A : Type) (l : list A) : forall n x,
  (n < length l)%nat -> nth_error (replaceAt n x l) n = Some x.
Proof.
  induction l as [|y l IH]; intros [|n] x H; simpl in *; try lia; auto.
  apply IH. lia.
Qed.

Lemma nth_error_replaceAt_neq (A : Type) (l : list A) : forall n m x,
  n <> m -> nth_error (replaceAt n x l) m = nth_error l m.
Proof.
  induction l as [|y l IH]; intros [|n] [|m] x H; simpl; try congruence; auto.
Qed.

Lemma replaceAt_app_r (A : Type) (l1 : list A) : forall n x l2,
  (length l1 <= n)%nat ->
  replaceAt n x (l1 ++ l2) = l1 ++ replaceAt (n - length l1) x l2.
Proof.
  induction l1 as [|y l1 IH]; intros n x l2 H; simpl.
  - rewrite Nat.sub_0_r. reflexivity.
  - destruct n as [|n]; simpl in *; [lia|].
    destruct l2; rewrite IH by lia; reflexivity.
Qed.

Lemma setOwn_absent (V : Type) (o : PropMap V) k v :
  getOwn o k = None -> setOwn o k v = o ++ [(k, v)].
Proof.
  induction o as [|[k1 v1] o IH]; simpl; [reflexivity|].
  destruct (jsstring_eqb k1 k); [discriminate|].
  intros H. rewrite IH by exact H. reflexivity.
Qed.

Lemma Forall2_impl_In (A B : Type) (R R' : A -> B -> Prop) l1 l2 :
  Forall2 R l1 l2 -> (forall a b, In a l1 -> R a b -> R' a b) ->
  Forall2 R' l1 l2.
Proof.
  induction 1 as [|a b l1 l2 Hab H IH]; intros Himp; constructor.
  - apply Himp; [left; reflexivity | exact Hab].
  - apply IH. intros a' b' Ha'. apply Himp. right. exact Ha'.
Qed.

(** Sorting and filtering related lists gives related lists. *)
Section RelatedLists.
Variables A B : Type.
Variable R : A -> B -> Prop.

Lemma Forall2_filter (f : A -> bool) (g : B -> bool) l1 l2 :
  (forall a b, R a b -> f a = g b) ->
  Forall2 R l1 l2 -> Forall2 R (List.filter f l1) (List.filter g l2).
Proof.
  intros H. induction 1 as [|a b l1 l2 Hab F IH]; simpl; [constructor|].
  rewrite (H a b Hab). destruct (g b); [constructor|]; assumption.
Qed.

Variable cmp1 : A -> A -> Z.
Variable cmp2 : B -> B -> Z.
Hypothesis cmp_agree :
  forall a b a' b', R a b -> R a' b' -> cmp1 a a' = cmp2 b b'.

Lemma Forall2_sort_insert a b l1 l2 :
  R a b -> Forall2 R l1 l2 ->
  Forall2 R (sort_insert cmp1 a l1) (sort_insert cmp2 b l2).
Proof.
  intros Hab. induction 1 as [|a' b' l1 l2 Hab' F IH]; simpl.
  - repeat constructor. exact Hab.
  - rewrite (cmp_agree Hab Hab'). destruct (cmp2 b b' <=? 0);
      repeat constructor; assumption.
Qed.

Lemma Forall2_Array_sort l1 l2 :
  Forall2 R l1 l2 -> Forall2 R (Array_sort cmp1 l1) (Array_sort cmp2 l2).
Proof.
  induction 1 as [|a b l1 l2 Hab F IH]; simpl; [constructor|].
  apply Forall2_sort_insert; assumption.
Qed.
End RelatedLists.

Lemma Forall2_Object_entries (V W : Type) (R : jsstring * V -> jsstring * W -> Prop)
    (o1 : PropMap V) (o2 : PropMap W) :
  (forall a b, R a b -> fst a = fst b) ->
  Forall2 R o1 o2 -> Forall2 R (Object_entries o1) (Object_entries o2).
Proof.
  intros K F. unfold Object_entries. apply Forall2_app.
  - apply Forall2_Array_sort.
    + intros a b a' b' H H'. unfold indexValue.
      rewrite (K _ _ H), (K _ _ H'). reflexivity.
    + apply Forall2_filter; [|exact F].
      intros a b H. unfold isIndexKey. rewrite (K _ _ H). reflexivity.
  - apply Forall2_filter; [|exact F].
    intros a b H. unfold isIndexKey. rewrite (K _ _ H). reflexivity.
Qed.

Lemma assignRanks_papers (P : Type) (l : list (AuthorEntry P)) pc r :
  List.map (@entry_papers P) (assignRanks pc r l) = List.map (@entry_papers P) l.
Proof.
  transitivity
    (List.map (fun t : jsstring * P * nat => snd (fst t))
       (List.map (fun e => (entry_name e, entry_papers e, count e))
          (assignRanks pc r l))).
  - rewrite map_map. reflexivity.
  - rewrite assignRanks_fields, map_map. reflexivity.
Qed.

Section StoreSim.
Variable s0 : Store.
Variable input : list Ref.

Lemma Extends_refl : Extends s0 s0.
Proof. split; [reflexivity|]. exists []. rewrite app_nil_r. reflexivity. Qed.

Lemma Sim_bind (A B A' B' : Type) (R1 : Store -> A -> B -> Prop)
    (R2 : Store -> A' -> B' -> Prop) m k st c kp :
  Sim s0 R1 m st c ->
  (forall a b st', Extends s0 st' -> R1 st' a b ->
                   Sim s0 R2 (k a) st' (kp b)) ->
  Sim s0 R2 (bindS m k) st (bind c kp).
Proof.
  intros H K. destruct c as [b|]; simpl in *.
  - destruct H as [a [st' [E [X R]]]]. specialize (K a b st' X R).
    unfold Sim in *. destruct (kp b); unfold bindS; rewrite E; exact K.
  - destruct H as [st' [E X]]. exists st'. unfold bindS. rewrite E. auto.
Qed.

Lemma Sim_ret (A B : Type) (R : Store -> A -> B -> Prop) a b st :
  Extends s0 st -> R st a b -> Sim s0 R (ret a) st (Normal b).
Proof. intros X H. exists a, st. auto. Qed.

(** Related maps answer property reads alike. *)
Lemma MapRel_getOwn st apS ap n :
  MapRel s0 input st apS ap ->
  match getOwn ap n with
  | Some ps => exists l, getOwn apS n = Some l /\ Holds s0 input st l ps
  | None => getOwn apS n = None
  end.
Proof.
  intros [F _]. induction F as [|[k l] [k' ps] apS ap [Ek H] F IH]; simpl;
    [reflexivity|].
  simpl in Ek. subst k'. destruct (jsstring_eqb k n); [eauto | exact IH].
Qed.

Lemma Holds_lt st l ps : Holds s0 input st l ps -> (l < length (arrays st))%nat.
Proof.
  intros [_ [refs [E _]]]. apply nth_error_Some. congruence.
Qed.

Lemma MapRel_update st st' apS ap n l v :
  MapRel s0 input st apS ap ->
  getOwn apS n = Some l ->
  (forall l' ps, l' <> l -> Holds s0 input st l' ps ->
                 Holds s0 input st' l' ps) ->
  Holds s0 input st' l v ->
  MapRel s0 input st' apS (setOwn ap n v).
Proof.
  intros [F ND] G Hother Hnew. split; [|exact ND].
  revert G ND.
  induction F as [|[k l1] [k' ps] apS ap [Ek H] F IH]; simpl;
    [discriminate|].
  simpl in Ek. subst k'. intros G ND. inversion ND as [|? ? Hnot ND']; subst.
  destruct (jsstring_eqb k n) eqn:E.
  - injection G as ->. constructor; [split; [reflexivity | exact Hnew]|].
    eapply Forall2_impl_In; [exact F|].
    intros [k2 l2] [k2' ps2] Hin [E2 H2]. split; [exact E2|].
    apply Hother; [|exact H2]. simpl. intros ->. apply Hnot.
    change l with (snd (k2, l)). apply in_map. exact Hin.
  - constructor; [|apply IH; assumption].
    split; [reflexivity|]. apply Hother; [|exact H]. simpl. intros ->.
    apply Hnot. apply getOwn_In in G.
    change l with (snd (n, l)). apply in_map. exact G.
Qed.

Lemma MapRel_add st st' apS ap n l v :
  MapRel s0 input st apS ap ->
  (forall l' ps, Holds s0 input st l' ps -> Holds s0 input st' l' ps) ->
  (forall l', In l' (List.map snd apS) -> l' <> l) ->
  Holds s0 input st' l v ->
  MapRel s0 input st' (apS ++ [(n, l)]) (ap ++ [(n, v)]).
Proof.
  intros [F ND] Hold Hfresh Hnew. split.
  - apply Forall2_app.
    + eapply Forall2_impl; [|exact F]. intros a b [E H]. auto.
    + constructor; [auto | constructor].
  - rewrite map_app. simpl.
    apply (Permutation_NoDup (l := l :: List.map snd apS));
      [apply Permutation_cons_append|].
    constructor; [|exact ND]. intros Hin. exact (Hfresh l Hin eq_refl).
Qed.
Lemma Holds_frame st st' l ps :
  Holds s0 input st l ps ->
  nth_error (arrays st') l = nth_error (arrays st) l ->
  Holds s0 input st' l ps.
Proof.
  intros [B [refs [E H]]] Eq. split; [exact B|].
  exists refs. rewrite Eq. auto.
Qed.

Lemma Extends_replaceAt st l a :
  Extends s0 st -> (length (arrays s0) <= l)%nat ->
  Extends s0 (mkStore (objects st) (replaceAt l a (arrays st))).
Proof.
  intros [O [fresh E]] B. split; [exact O|]. simpl.
  rewrite E, replaceAt_app_r by exact B. eauto.
Qed.

Lemma pushCreditS_sim st apS ap r p n :
  Extends s0 st -> MapRel s0 input st apS ap ->
  nth_error (objects s0) r = Some p -> In r input ->
  Sim s0 (MapRel s0 input) (pushCreditS r n apS) st (pushCredit p n ap).
Proof.
  intros X MR Hr Hin. rewrite pushCredit_eq.
  pose proof (MapRel_getOwn n MR) as G.
  destruct (getOwn ap n) as [arr|] eqn:Gap.
  - destruct G as [l [GS H]]. pose proof H as [B [refs [E [Rs Inc]]]].
    unfold pushCreditS, getProp, bindS, ret, pushArray, readArray,
      writeArray, bindS. rewrite GS. simpl. rewrite GS, E. simpl.
    eexists _, _. split; [reflexivity|]. split.
    + apply Extends_replaceAt; assumption.
    + eapply MapRel_update; [exact MR | exact GS | |].
      * intros l' ps Hne Hl'. eapply Holds_frame; [exact Hl'|]. simpl.
        apply nth_error_replaceAt_neq. congruence.
      * split; [exact B|]. exists (refs ++ [r]). simpl. split; [|split].
        -- apply nth_error_replaceAt_eq. eapply Holds_lt; exact H.
        -- apply Forall2_app; [exact Rs | repeat constructor; exact Hr].
        -- apply incl_app; [exact Inc|]. intros x [<-|[]]. exact Hin.
  - unfold pushCreditS, getProp. rewrite G.
    destruct (inherited n) eqn:I.
    + unfold bindS, ret, throw. simpl. rewrite G. exists st. auto.
    + unfold bindS, ret, newArray, pushArray, readArray, writeArray, bindS.
      simpl. rewrite getOwn_setOwn, jsstring_eqb_refl. simpl.
      rewrite nth_error_app2, Nat.sub_diag by reflexivity. simpl.
      rewrite replaceAt_app_r, Nat.sub_diag by reflexivity. simpl.
      rewrite !setOwn_absent by assumption.
      destruct X as [O [fresh E]].
      eexists _, _. split; [reflexivity|]. split.
      * split; [exact O|]. simpl. rewrite E, <- app_assoc. eauto.
      * apply MapRel_add with (st := st); [exact MR | | |].
        -- intros l' ps Hl'. eapply Holds_frame; [exact Hl'|]. simpl.
           apply nth_error_app1. eapply Holds_lt; exact Hl'.
        -- intros l' Hl'. destruct MR as [F _].
           assert (L : (l' < length (arrays st))%nat); [|lia].
           apply in_map_iff in Hl'. destruct Hl' as [[k l2] [<- Hk]].
           clear - F Hk. induction F as [|a b apS ap [_ H] F IH];
             [destruct Hk|].
           destruct Hk as [->|Hk]; [eapply Holds_lt; exact H | auto].
        -- split; [rewrite E, length_app; lia|]. exists [r]. simpl.
           split; [|split].
           ++ rewrite nth_error_app2, Nat.sub_diag by reflexivity.
              reflexivity.
           ++ repeat constructor. exact Hr.
           ++ intros x [<-|[]]. exact Hin.
Qed.
Lemma creditNameS_sim st apS ap r p nm :
  Extends s0 st -> MapRel s0 input st apS ap ->
  nth_error (objects s0) r = Some p -> In r input ->
  Sim s0 (MapRel s0 input) (creditNameS r nm apS) st (creditName p nm ap).
Proof.
  intros X MR Hr Hin. unfold creditNameS, creditName.
  destruct nm as [[|c n]|]; try (apply Sim_ret; assumption).
  apply pushCreditS_sim; assumption.
Qed.

Lemma eachAuthorS_sim r p l : forall st apS ap,
  Extends s0 st -> MapRel s0 input st apS ap ->
  nth_error (objects s0) r = Some p -> In r input ->
  Sim s0 (MapRel s0 input) (forEachM (eachAuthorS r) l apS) st
      (forEach (eachAuthor p) l ap).
Proof.
  induction l as [|a l IH]; intros st apS ap X MR Hr Hin; simpl.
  - apply Sim_ret; assumption.
  - eapply Sim_bind.
    + apply creditNameS_sim; eassumption.
    + intros apS' ap' st' X' MR'. apply IH; assumption.
Qed.

Lemma getPaper_eq st r p :
  Extends s0 st -> nth_error (objects s0) r = Some p ->
  getPaper r st = (Normal p, st).
Proof.
  intros [O _] Hr. unfold getPaper. rewrite O, Hr. reflexivity.
Qed.

Lemma eachPaperS_sim mode st apS ap r p :
  Extends s0 st -> MapRel s0 input st apS ap ->
  nth_error (objects s0) r = Some p -> In r input ->
  Sim s0 (MapRel s0 input)
      (match mode with
       | ALL_AUTHORS => eachPaperAllS
       | FIRST_AUTHOR_ONLY => eachPaperFirstS
       end r apS) st (eachPaper mode p ap).
Proof.
  intros X MR Hr Hin.
  assert (B : forall (k : Paper -> StoreM (PropMap Loc)) c,
             Sim s0 (MapRel s0 input) (k p) st c ->
             Sim s0 (MapRel s0 input) (q <- getPaper r ;; k q) st c).
  { intros k c H. unfold Sim in *. unfold bindS.
    rewrite getPaper_eq with (p := p) by assumption. exact H. }
  destruct mode; simpl; unfold eachPaperAllS, eachPaperFirstS,
    eachPaperAll, eachPaperFirst; apply B.
  - destruct (authors p) as [| |l]; try (apply Sim_ret; assumption).
    apply eachAuthorS_sim; assumption.
  - destruct (authors p) as [| |[|a l]]; try (apply Sim_ret; assumption).
    apply creditNameS_sim; assumption.
Qed.

(** The loop over the input array: the array is read again at every
    turn and is found as it was. *)
Lemma forEachFrom_sim mode inp ps : forall n k st apS ap,
  nth_error (arrays s0) inp = Some input ->
  Resolves s0 (skipn k input) ps ->
  n = length ps ->
  Extends s0 st -> MapRel s0 input st apS ap ->
  Sim s0 (MapRel s0 input)
      (forEachFrom inp
         (match mode with
          | ALL_AUTHORS => eachPaperAllS
          | FIRST_AUTHOR_ONLY => eachPaperFirstS
          end) k n apS) st
      (forEach (eachPaper mode) ps ap).
Proof.
  revert ps. intros ps n. revert ps.
  induction n as [|n IH]; intros ps k st apS ap Hinp Rs Hn X MR.
  - destruct ps; [|discriminate]. apply Sim_ret; assumption.
  - destruct ps as [|p ps]; [discriminate|].
    inversion Rs as [|r p' refs ps' Hr Rs' Esk]; subst.
    assert (Hk : nth_error input k = Some r).
    { rewrite <- (Nat.add_0_r k), <- nth_error_skipn, <- Esk. reflexivity. }
    assert (Hsk : skipn (S k) input = refs).
    { replace (S k) with (1 + k)%nat by lia.
      rewrite <- skipn_skipn, <- Esk. reflexivity. }
    assert (Harr : nth_error (arrays st) inp = Some input).
    { destruct X as [_ [fresh E]]. rewrite E.
      rewrite nth_error_app1; [exact Hinp|].
      apply nth_error_Some. congruence. }
    change (forEach (eachPaper mode) (p :: ps) ap)
      with (bind (eachPaper mode p ap) (forEach (eachPaper mode) ps)).
    assert (Step : forall c,
      Sim s0 (MapRel s0 input)
          (s' <- match mode with
                 | ALL_AUTHORS => eachPaperAllS
                 | FIRST_AUTHOR_ONLY => eachPaperFirstS
                 end r apS ;;
           forEachFrom inp
             (match mode with
              | ALL_AUTHORS => eachPaperAllS
              | FIRST_AUTHOR_ONLY => eachPaperFirstS
              end) (S k) n s') st c ->
      Sim s0 (MapRel s0 input)
          (forEachFrom inp
             (match mode with
              | ALL_AUTHORS => eachPaperAllS
              | FIRST_AUTHOR_ONLY => eachPaperFirstS
              end) k (S n) apS) st c).
    { intros c H. unfold Sim in *. simpl forEachFrom.
      rewrite Harr, Hk. exact H. }
    apply Step. eapply Sim_bind.
    + apply eachPaperS_sim; try assumption.
      eapply nth_error_In; exact Hk.
    + intros apS' ap' st' X' MR'. apply IH; try assumption.
      * rewrite Hsk. exact Rs'.
      * simpl in Hn. lia.
Qed.
Lemma Forall2_assignRanks st l l0 : forall pc r,
  Forall2 (EntryRel s0 input st) l l0 ->
  Forall2 (EntryRel s0 input st) (assignRanks pc r l) (assignRanks pc r l0).
Proof.
  intros pc r F. revert pc r.
  induction F as [|e e0 l l0 [En [Ec [Er H]]] F IH]; intros pc r; simpl;
    [constructor|].
  rewrite Ec. constructor; [|apply IH].
  unfold EntryRel; simpl. auto.
Qed.

Lemma entriesS_sim st esS es :
  Forall2 (fun a b => fst a = fst b /\ Holds s0 input st (snd a) (snd b))
          esS es ->
  exists entries,
    entriesS esS st = (Normal entries, st)
    /\ Forall2 (EntryRel s0 input st) entries
         (List.map (fun e => mkEntry (fst e) (snd e) (length (snd e)) None) es)
    /\ List.map (@entry_papers Loc) entries = List.map snd esS.
Proof.
  induction 1 as [|[k l] [k' ps] esS es [Ek H] F IH]; simpl.
  - exists []. repeat split; constructor.
  - simpl in Ek, H. subst k'. destruct IH as [entries [E [FE M]]].
    pose proof H as [B [refs [Er [Rs Inc]]]].
    unfold bindS, readArray, ret. simpl. rewrite Er, E.
    eexists. split; [reflexivity|]. split.
    + constructor; [|exact FE]. unfold EntryRel; simpl.
      split; [reflexivity|]. split; [eapply Forall2_length; exact Rs|].
      split; [reflexivity | exact H].
    + simpl. rewrite M. reflexivity.
Qed.

Lemma readAll_eq st refs ps :
  Extends s0 st -> Resolves s0 refs ps ->
  forEachM (fun r u => _ <- getPaper r ;; ret u) refs tt st = (Normal tt, st).
Proof.
  intros X. induction 1 as [|r p refs ps Hr Rs IH]; simpl; [reflexivity|].
  unfold bindS at 1. unfold bindS at 1.
  rewrite getPaper_eq with (p := p) by assumption. simpl. exact IH.
Qed.

Lemma yearOf_eq st r p :
  Extends s0 st -> nth_error (objects s0) r = Some p -> yearOf st r = year p.
Proof. intros [O _] H. unfold yearOf. rewrite O, H. reflexivity. Qed.

(** The in-place sorts: each reaches its own array and no other. *)
Lemma sortPapersS_sim l : forall l0 st,
  Extends s0 st ->
  Forall2 (EntryRel s0 input st) l l0 ->
  NoDup (List.map (@entry_papers Loc) l) ->
  exists st',
    forEachM sortPapersS l tt st = (Normal tt, st')
    /\ Extends s0 st'
    /\ Forall2 (EntryRel s0 input st') l (List.map sortPapers l0)
    /\ (forall loc, ~ In loc (List.map (@entry_papers Loc) l) ->
          nth_error (arrays st') loc = nth_error (arrays st) loc).
Proof.
  induction l as [|e l IH]; intros l0 st X F ND;
    inversion F as [|? e0 ? l0' [En [Ec [Er H]]] F' E1' E2']; subst; simpl.
  - exists st. split; [reflexivity|]. split; [exact X|].
    split; [constructor | reflexivity].
  - inversion ND as [|? ? Hnot ND']; subst.
    pose proof H as [B [refs [Earr [Rs Inc]]]].
    set (st1 := mkStore (objects st)
                  (replaceAt (entry_papers e)
                     (Array_sort (fun x y => yearOf st y - yearOf st x) refs)
                     (arrays st))).
    assert (E1 : sortPapersS e tt st = (Normal tt, st1)).
    { unfold sortPapersS, bindS, readArray. rewrite Earr.
      rewrite readAll_eq with (ps := entry_papers e0) by assumption.
      reflexivity. }
    assert (X1 : Extends s0 st1) by (apply Extends_replaceAt; assumption).
    assert (F1 : Forall2 (EntryRel s0 input st1) l l0').
    { eapply Forall2_impl_In; [exact F'|].
      intros a b Ha [An [Ac [Ar Hh]]].
      split; [exact An|]. split; [exact Ac|]. split; [exact Ar|].
      eapply Holds_frame; [exact Hh|]. simpl.
      apply nth_error_replaceAt_neq. intros Eq. apply Hnot. rewrite Eq.
      apply in_map. exact Ha. }
    destruct (IH l0' st1 X1 F1 ND') as [st' [E' [X' [F2 Fr]]]].
    exists st'. split; [|split; [exact X'|split]].
    + unfold bindS. rewrite E1. exact E'.
    + constructor; [|exact F2].
      unfold EntryRel; simpl. repeat split; auto.
      exists (Array_sort (fun x y => yearOf st y - yearOf st x) refs).
      split; [|split].
      * rewrite (Fr _ Hnot). simpl. apply nth_error_replaceAt_eq.
        eapply Holds_lt; exact H.
      * apply Forall2_Array_sort; [|exact Rs].
        intros a b a' b' Hab Hab'. unfold compareYear.
        rewrite (yearOf_eq _ X Hab), (yearOf_eq _ X Hab'). reflexivity.
      * intros x Hx. apply Array_sort_In in Hx. auto.
    + intros loc Hloc. rewrite Fr by (intros Hl; apply Hloc; right; exact Hl).
      simpl. apply nth_error_replaceAt_neq. intros Eq. apply Hloc. left.
      exact Eq.
Qed.

Lemma rankAuthorsS_sim lc st apS ap :
  Extends s0 st -> MapRel s0 input st apS ap ->
  Sim s0 (fun st' es es0 =>
            Forall2 (EntryRel s0 input st') es es0
            /\ NoDup (List.map (@entry_papers Loc) es))
      (rankAuthorsS lc apS) st (Normal (rankAuthors lc ap)).
Proof.
  intros X [F ND].
  assert (FO : Forall2 (fun a b => fst a = fst b
                                   /\ Holds s0 input st (snd a) (snd b))
                 (Object_entries apS) (Object_entries ap))
    by (apply Forall2_Object_entries; [intros a b [E _]; exact E | exact F]).
  destruct (entriesS_sim FO) as [entries [E [FE M]]].
  assert (FS : Forall2 (EntryRel s0 input st)
                 (Array_sort (compareAuthors lc (P := Loc)) entries)
                 (Array_sort (compareAuthors lc (P := list Paper))
                    (List.map (fun e => mkEntry (fst e) (snd e)
                                          (length (snd e)) None)
                              (Object_entries ap)))).
  { apply Forall2_Array_sort; [|exact FE].
    intros a b a' b' [An [Ac _]] [An' [Ac' _]]. unfold compareAuthors.
    rewrite An, Ac, An', Ac'. reflexivity. }
  assert (NS : NoDup (List.map (@entry_papers Loc)
                        (Array_sort (compareAuthors lc (P := Loc)) entries))).
  { eapply Permutation_NoDup; [|exact ND].
    rewrite Array_sort_perm, M. symmetry.
    apply Permutation_map, Object_entries_perm. }
  unfold rankAuthorsS, rankAuthors, Sim, bindS. rewrite E.
  remember (Array_sort (compareAuthors lc (P := Loc)) entries) as sortedS.
  remember (Array_sort (compareAuthors lc (P := list Paper))
              (List.map (fun e => mkEntry (fst e) (snd e)
                                    (length (snd e)) None)
                        (Object_entries ap))) as sorted0.
  clear HeqsortedS Heqsorted0.
  destruct FS as [|e e0 l l0 He Ft].
  - exists [], st. split; [reflexivity|]. split; [exact X|].
    split; constructor.
  - pose proof (Forall2_assignRanks None 0 (Forall2_cons _ _ He Ft)) as FR.
    destruct (sortPapersS_sim X FR) as [st' [E' [X' [F' _]]]];
      [rewrite assignRanks_papers; exact NS|].
    rewrite E'. unfold ret.
    eexists _, st'. split; [reflexivity|]. split; [exact X'|].
    split; [exact F'|]. rewrite assignRanks_papers. exact NS.
Qed.
End StoreSim.

Lemma renderStore_sim lc mode s0 papers input ps :
  nth_error (arrays s0) papers = Some input ->
  Resolves s0 input ps ->
  Sim s0 (fun st' es es0 =>
            Forall2 (EntryRel s0 input st') es es0
            /\ NoDup (List.map (@entry_papers Loc) es))
      (renderStore lc mode papers) s0 (render lc mode ps).
Proof.
  intros Hin Rs.
  replace (render lc mode ps)
    with (bind (forEach (eachPaper mode) ps [])
               (fun ap => Normal (rankAuthors lc ap)))
    by (destruct mode; reflexivity).
  unfold renderStore. eapply Sim_bind with (R1 := MapRel s0 input).
  - assert (Step : forall c,
      Sim s0 (MapRel s0 input)
          (forEachFrom papers
             (match mode with
              | ALL_AUTHORS => eachPaperAllS
              | FIRST_AUTHOR_ONLY => eachPaperFirstS
              end) 0 (length input) []) s0 c ->
      Sim s0 (MapRel s0 input)
          (Array_forEach papers
             (match mode with
              | ALL_AUTHORS => eachPaperAllS
              | FIRST_AUTHOR_ONLY => eachPaperFirstS
              end) []) s0 c).
    { intros c H. unfold Sim in *. unfold Array_forEach, bindS, readArray.
      rewrite Hin. exact H. }
    apply Step. apply forEachFrom_sim; try assumption.
    + apply Forall2_length in Rs. exact Rs.
    + apply Extends_refl.
    + split; constructor.
  - intros apS ap st' X MR. apply rankAuthorsS_sim; assumption.
Qed.

(** C10.  Run on a store whose array [papers] holds references to paper
    objects, either ranking function ends as the value model does and leaves
    a store with the same paper objects, in which every array that existed
    before is unchanged (the input array among them) and further arrays have
    been added.  The [papers] of each output entry is one of the added
    arrays, no two entries share one, and it holds references taken from the
    input array: the input's own paper objects, in the order the value model
    gives. *)
Theorem C10_input_unchanged lc mode st papers input ps outcome st' :
  nth_error (arrays st) papers = Some input ->
  Resolves st input ps ->
  renderStore lc mode papers st = (outcome, st') ->
  objects st' = objects st
  /\ (exists fresh, arrays st' = arrays st ++ fresh)
  /\ nth_error (arrays st') papers = Some input
  /\ match outcome, render lc mode ps with
     | Normal es, Normal es0 =>
         Forall2 (EntryRel st input st') es es0
         /\ NoDup (List.map (@entry_papers Loc) es)
     | ThrowTypeError, ThrowTypeError => True
     | _, _ => False
     end.
Proof.
  intros Hin Rs Run.
  pose proof (renderStore_sim lc mode papers Hin Rs) as S.
  assert (Fr : Extends st st' ->
               objects st' = objects st
               /\ (exists fresh, arrays st' = arrays st ++ fresh)
               /\ nth_error (arrays st') papers = Some input).
  { intros [O [fresh E]]. split; [exact O|]. split; [eauto|].
    rewrite E, nth_error_app1; [exact Hin|].
    apply nth_error_Some. congruence. }
  unfold Sim in S. destruct (render lc mode ps) as [es0|].
  - destruct S as [es [st1 [E [X R]]]]. rewrite Run in E.
    injection E as -> ->. destruct (Fr X) as [A [B C]]. auto.
  - destruct S as [st1 [E X]]. rewrite Run in E.
    injection E as -> ->. destruct (Fr X) as [A [B C]]. auto.
Qed.

(** * The claims at work on sample data *)

Lemma codeUnitCompare_total s : forall t,
  codeUnitCompare s t <= 0 \/ codeUnitCompare t s <= 0.
Proof.
  induction s as [|c s IH]; intros [|d t]; simpl; try lia.
  destruct (N.ltb_spec c d), (N.ltb_spec d c); try lia. apply IH.
Qed.

Lemma codeUnitCompare_trans s : forall t u,
  codeUnitCompare s t <= 0 -> codeUnitCompare t u <= 0 ->
  codeUnitCompare s u <= 0.
Proof.
  induction s as [|c s IH]; intros [|d t] [|e u]; simpl; try lia.
  destruct (N.ltb_spec c d), (N.ltb_spec d c), (N.ltb_spec d e),
    (N.ltb_spec e d), (N.ltb_spec c e), (N.ltb_spec e c); try lia.
  apply IH.
Qed.

(** The listing of one author twice on a paper is counted twice, whereas one
    paper contains that name: the count of C2 as stated fails. *)
Lemma C2_counterexample :
  exists es,
    renderAuthorsRanking codeUnitCompare [twiceListed] = Normal es
    /\ creditedCount (js "A B") es = 2%nat
    /\ papersWithAuthor (js "A B") [twiceListed] = 1%nat
    /\ creditedCount (js "A B") es <> papersWithAuthor (js "A B") [twiceListed].
Proof.
  exists (valueOr [] (renderAuthorsRanking codeUnitCompare [twiceListed])).
  split; [vm_compute; reflexivity|]. split; [vm_compute; reflexivity|].
  split; [vm_compute; reflexivity | vm_compute; discriminate].
Qed.

Lemma C2_witness :
  exists es,
    renderAuthorsRanking codeUnitCompare scenario = Normal es
    /\ js "Alice Smith" <> []
    /\ creditedCount (js "Alice Smith") es = 2%nat
    /\ authorRecordsNamed (js "Alice Smith") scenario = 2%nat
    /\ papersWithAuthor (js "Alice Smith") scenario = 2%nat.
Proof.
  pose (es := valueOr [] (renderAuthorsRanking codeUnitCompare scenario)).
  assert (H : renderAuthorsRanking codeUnitCompare scenario = Normal es)
    by (vm_compute; reflexivity).
  assert (HX : js "Alice Smith" <> []) by discriminate.
  exists es. split; [exact H|]. split; [exact HX|].
  destruct (C2_all_authors_count codeUnitCompare scenario H HX)
    as [E [_ Once]].
  split; [vm_compute; reflexivity|]. split; [rewrite <- E|];
    vm_compute; reflexivity.
Defined.

Lemma C3_witness :
  exists es,
    render codeUnitCompare ALL_AUTHORS rankSample = Normal es
    /\ List.map (@count _) es = [5; 5; 3; 3; 3; 1]%nat
    /\ List.map (@rank _) es
       = List.map Some [1; 1; 2; 2; 2; 3]%nat
    /\ (forall e, nth_error es 0 = Some e -> rank e = Some 1%nat).
Proof.
  pose (es := valueOr [] (render codeUnitCompare ALL_AUTHORS rankSample)).
  assert (H : render codeUnitCompare ALL_AUTHORS rankSample = Normal es)
    by (vm_compute; reflexivity).
  exists es. split; [exact H|].
  split; [vm_compute; reflexivity|]. split; [vm_compute; reflexivity|].
  apply (C3_dense_ranks codeUnitCompare ALL_AUTHORS rankSample H).
Defined.

Lemma C4_witness :
  exists es,
    render codeUnitCompare FIRST_AUTHOR_ONLY scenario = Normal es
    /\ List.map (fun e => getSurname (entry_name e)) es = [js "Lee"; js "Smith"]
    /\ StronglySorted
         (fun a b =>
            (count b <= count a)%nat
            /\ (count a = count b ->
                codeUnitCompare (getSurname (entry_name a))
                                (getSurname (entry_name b)) <= 0)) es.
Proof.
  pose (es := valueOr [] (render codeUnitCompare FIRST_AUTHOR_ONLY scenario)).
  assert (H : render codeUnitCompare FIRST_AUTHOR_ONLY scenario = Normal es)
    by (vm_compute; reflexivity).
  exists es. split; [exact H|]. split; [vm_compute; reflexivity|].
  apply (@C4_sorted_by_count_then_surname codeUnitCompare
           codeUnitCompare_total codeUnitCompare_trans
           FIRST_AUTHOR_ONLY scenario es H).
Defined.

Lemma C5_witness :
  exists es,
    renderFirstAuthorsRanking codeUnitCompare
      [paperP1; paperEmptyAuthors; paperP2] = Normal es
    /\ List.map (fun e => (entry_name e, count e)) es
       = [(js "Bob Lee", 1%nat); (js "Alice Smith", 1%nat)]
    /\ renderFirstAuthorsRanking codeUnitCompare ([paperP1] ++ [paperP2])
       = Normal es.
Proof.
  pose (es := valueOr [] (renderFirstAuthorsRanking codeUnitCompare
                            [paperP1; paperEmptyAuthors; paperP2])).
  assert (H : renderFirstAuthorsRanking codeUnitCompare
                [paperP1; paperEmptyAuthors; paperP2] = Normal es)
    by (vm_compute; reflexivity).
  exists es. split; [exact H|]. split; [vm_compute; reflexivity|].
  destruct (C5_first_author_only codeUnitCompare
              [paperP1; paperEmptyAuthors; paperP2] H)
    as [_ [_ [_ Skip]]].
  apply (Skip [paperP1] paperEmptyAuthors [paperP2]); reflexivity.
Defined.



Lemma C7_witness :
  2021 > 2020
  /\ applyFilters scenario (js "all") (Some (Fin 2021)) (Some (Fin 2020)) = [].
Proof.
  assert (H : 2021 > 2020) by lia.
  split; [exact H|].
  apply (C7_inverted_range_empty scenario (js "all") H).
Defined.

Lemma C8_witness :
  exists es e,
    render codeUnitCompare ALL_AUTHORS scenario = Normal es
    /\ In e es
    /\ entry_name e = js "Alice Smith"
    /\ List.map year (entry_papers e) = [2021; 2020]
    /\ StronglySorted (fun a b => year a >= year b) (entry_papers e).
Proof.
  pose (es := valueOr [] (render codeUnitCompare ALL_AUTHORS scenario)).
  pose (e := mkEntry (js "Alice Smith") [paperP2; paperP1] 2 (Some 1%nat)).
  assert (H : render codeUnitCompare ALL_AUTHORS scenario = Normal es)
    by (vm_compute; reflexivity).
  assert (He : In e es) by (left; vm_compute; reflexivity).
  exists es, e. split; [exact H|]. split; [exact He|].
  split; [reflexivity|]. split; [reflexivity|].
  apply (C8_papers_by_year_stable codeUnitCompare ALL_AUTHORS scenario e H He).
Defined.

Lemma C9_witness :
  notArray paperNoAuthors
  /\ notArray paperTextAuthors
  /\ render codeUnitCompare ALL_AUTHORS
       ([paperP1] ++ paperNoAuthors :: [paperTextAuthors; paperP2])
     = render codeUnitCompare ALL_AUTHORS
         ([paperP1] ++ [paperTextAuthors; paperP2])
  /\ name nameless = None
  /\ forEach (eachAuthor paperP2)
       ([author "Bob Lee"] ++ nameless :: [author "Alice Smith"]) []
     = forEach (eachAuthor paperP2)
         ([author "Bob Lee"] ++ [author "Alice Smith"]) [].
Proof.
  assert (N1 : notArray paperNoAuthors) by (left; reflexivity).
  assert (N2 : notArray paperTextAuthors) by (right; eexists; reflexivity).
  split; [exact N1|]. split; [exact N2|].
  destruct (C9_malformed_skipped codeUnitCompare ALL_AUTHORS)
    as [_ [Skip [_ [Rest _]]]].
  split; [apply (Skip [paperP1] paperNoAuthors [paperTextAuthors; paperP2] N1)|].
  split; [reflexivity|]. apply Rest. reflexivity.
Defined.

Lemma C10_witness :
  exists outcome st',
    renderStore codeUnitCompare ALL_AUTHORS 0%nat scenarioStore
    = (outcome, st')
    /\ nth_error (arrays scenarioStore) 0 = Some [0; 1]%nat
    /\ Resolves scenarioStore [0; 1]%nat scenario
    /\ objects st' = objects scenarioStore
    /\ nth_error (arrays st') 0 = Some [0; 1]%nat
    /\ arrays st' = [[0; 1]; [1; 0]; [1]]%nat.
Proof.
  pose (run := renderStore codeUnitCompare ALL_AUTHORS 0%nat scenarioStore).
  assert (H : renderStore codeUnitCompare ALL_AUTHORS 0%nat scenarioStore
              = (fst run, snd run)) by (vm_compute; reflexivity).
  assert (I : nth_error (arrays scenarioStore) 0 = Some [0; 1]%nat)
    by reflexivity.
  assert (R : Resolves scenarioStore [0; 1]%nat scenario)
    by (repeat constructor).
  exists (fst run), (snd run). split; [exact H|].
  split; [exact I|]. split; [exact R|].
  destruct (@C10_input_unchanged codeUnitCompare ALL_AUTHORS scenarioStore
              0%nat [0; 1]%nat scenario (fst run) (snd run) I R H)
    as [O [_ [I' _]]].
  split; [exact O|]. split; [exact I' | vm_compute; reflexivity].
Defined.

(** * Further properties of the rankings *)

Lemma list_sum_map_add (A : Type) (f g : A -> nat) (l : list A) :
  list_sum (List.map (fun x => (f x + g x)%nat) l)
  = (list_sum (List.map f l) + list_sum (List.map g l))%nat.
Proof. induction l as [|x l IH]; simpl; [reflexivity | rewrite IH; lia]. Qed.

Lemma sum_indicator_absent (n : jsstring) (names : list jsstring) :
  ~ In n names ->
  list_sum (List.map (fun m => if jsstring_eqb n m then 1 else 0)%nat names)
  = 0%nat.
Proof.
  induction names as [|m names IH]; simpl; [reflexivity|]. intros H.
  destruct (jsstring_eqb n m) eqn:E.
  - apply jsstring_eqb_eq in E. subst m. exfalso. apply H. left. reflexivity.
  - apply IH. intros Hin. apply H. right. exact Hin.
Qed.

Lemma sum_indicator (n : jsstring) (names : list jsstring) :
  NoDup names -> In n names ->
  list_sum (List.map (fun m => if jsstring_eqb n m then 1 else 0)%nat names)
  = 1%nat.
Proof.
  induction 1 as [|m names Hm ND IH]; simpl; [tauto|]. intros [->|Hin].
  - rewrite jsstring_eqb_refl, sum_indicator_absent by exact Hm. reflexivity.
  - destruct (jsstring_eqb n m) eqn:E; [|apply IH, Hin].
    apply jsstring_eqb_eq in E. subst m. tauto.
Qed.

(** Credits sorted into distinct names that cover them are all accounted
    for. *)
Lemma credits_partition (cs : list Credit) (names : list jsstring) :
  NoDup names -> (forall c, In c cs -> In (fst c) names) ->
  list_sum (List.map (fun n => length (creditedTo n cs)) names) = length cs.
Proof.
  intros ND. induction cs as [|c cs IH]; intros Hcov.
  - clear. induction names as [|n names IH]; simpl; auto.
  - rewrite (map_ext _
      (fun n => ((if jsstring_eqb (fst c) n then 1 else 0)
                 + length (creditedTo n cs))%nat)).
    + rewrite list_sum_map_add, sum_indicator, IH; auto.
      * intros c' Hc'. apply Hcov. right. exact Hc'.
      * apply Hcov. left. reflexivity.
    + intros n. rewrite creditedTo_cons.
      destruct (jsstring_eqb (fst c) n); reflexivity.
Qed.

Lemma length_credits names papers :
  length (credits names papers)
  = list_sum (List.map (fun p => length (names p)) papers).
Proof.
  unfold credits. induction papers as [|p papers IH]; simpl; [reflexivity|].
  etransitivity; [apply length_app|].
  f_equal; [apply length_map | exact IH].
Qed.

Lemma credits_In names papers n p :
  In (n, p) (credits names papers) <-> In p papers /\ In n (names p).
Proof.
  unfold credits. rewrite in_flat_map. split.
  - intros [q [Hq H]]. apply in_map_iff in H.
    destruct H as [m [[= <- <-] Hm]]. auto.
  - intros [Hp Hn]. exists p. split; [exact Hp|].
    apply in_map_iff. exists n. auto.
Qed.

Lemma creditedTo_nonempty n cs :
  creditedTo n cs <> [] <-> exists p, In (n, p) cs.
Proof.
  split.
  - destruct (creditedTo n cs) as [|p ps] eqn:E; [congruence|]. intros _.
    exists p. apply creditedTo_In. rewrite E. left. reflexivity.
  - intros [p Hp] E. apply creditedTo_In in Hp. rewrite E in Hp. exact Hp.
Qed.

Lemma assignRanks_bounds (P : Type) (l : list (AuthorEntry P)) :
  forall pc r i e,
    nth_error (assignRanks pc r l) i = Some e ->
    exists k, rank e = Some k /\ (r <= k <= r + S i)%nat.
Proof.
  induction l as [|a l IH]; intros pc r i e; simpl; [destruct i; discriminate|].
  destruct i as [|i]; simpl.
  - intros [= <-]. simpl. eexists. split; [reflexivity|].
    destruct (countChanged (count a) pc); lia.
  - intros H. apply IH in H. destruct H as [k [Hk B]]. exists k.
    split; [exact Hk|]. destruct (countChanged (count a) pc); lia.
Qed.

Lemma assignRanks_top_bounds (P : Type) (l : list (AuthorEntry P)) i e :
  nth_error (assignRanks None 0 l) i = Some e ->
  exists k, rank e = Some k /\ (1 <= k <= S i)%nat.
Proof.
  destruct l as [|a l]; simpl; [destruct i; discriminate|].
  destruct i as [|i]; simpl.
  - intros [= <-]. simpl. exists 1%nat. split; [reflexivity | lia].
  - intros H. apply assignRanks_bounds in H. destruct H as [k [Hk B]].
    exists k. split; [exact Hk | lia].
Qed.

(** In a count-sorted list the rank loop gives every entry after one of
    count [c] and rank [r] either the same count and rank, or a smaller
    count and a larger rank. *)
Lemma assignRanks_after (P : Type) (l : list (AuthorEntry P)) :
  forall c r e,
    StronglySorted (fun a b => (count b <= count a)%nat) l ->
    Forall (fun a => (count a <= c)%nat) l ->
    In e (assignRanks (Some c) r l) ->
    (count e = c /\ rank e = Some r)
    \/ ((count e < c)%nat /\ exists k, rank e = Some k /\ (r < k)%nat).
Proof.
  induction l as [|a l IH]; intros c r e Hs Hc; simpl; [tauto|].
  inversion Hs as [|? ? Hs' Ha]; subst. inversion Hc as [|? ? Hac Hc']; subst.
  assert (St : Forall (fun b => (count b <= count a)%nat) l) by exact Ha.
  destruct (Nat.eqb_spec (count a) c) as [E|NE]; simpl.
  - intros [<-|H]; simpl; [left; auto|].
    rewrite <- E. apply IH; assumption.
  - intros [<-|H]; simpl.
    + right. split; [lia|]. eexists. split; [reflexivity | lia].
    + right. destruct (IH (count a) (S r) e Hs' St H)
        as [[Ec Er]|[Lt [k [Hk Lk]]]].
      * split; [lia|]. exists (S r). split; [exact Er | lia].
      * split; [lia|]. exists k. split; [exact Hk | lia].
Qed.

Lemma assignRanks_AheadOf (P : Type) (l : list (AuthorEntry P)) :
  forall pc r,
    StronglySorted (fun a b => (count b <= count a)%nat) l ->
    StronglySorted (@AheadOf P) (assignRanks pc r l).
Proof.
  induction l as [|a l IH]; intros pc r Hs; simpl; [constructor|].
  inversion Hs as [|? ? Hs' Ha]; subst.
  constructor; [apply IH, Hs'|].
  apply Forall_forall. intros e He.
  destruct (@assignRanks_after P l _ _ e Hs' Ha He)
    as [[Ec Er]|[Lt [k [Hk Lk]]]].
  - eexists _, _. split; [reflexivity|]. split; [exact Er|]. left. auto.
  - eexists _, k. split; [reflexivity|]. split; [exact Hk|]. right. auto.
Qed.

Lemma StronglySorted_In_cases (A : Type) (R : A -> A -> Prop) (l : list A) a b :
  StronglySorted R l -> In a l -> In b l -> a = b \/ R a b \/ R b a.
Proof.
  induction 1 as [|x l Hs IH Hx]; simpl; [tauto|].
  rewrite Forall_forall in Hx.
  intros [->|Ha] [->|Hb]; auto.
Qed.

Section SortThenFilter.
Variable A : Type.
Variable cmp : A -> A -> Z.
Variable g : A -> bool.
Hypothesis cmp_total : forall x y, cmp x y <= 0 \/ cmp y x <= 0.
Hypothesis cmp_trans :
  forall x y z, cmp x y <= 0 -> cmp y z <= 0 -> cmp x z <= 0.

Lemma sort_insert_front x l :
  (forall z, In z l -> cmp x z <= 0) -> sort_insert cmp x l = x :: l.
Proof.
  destruct l as [|y l]; simpl; [reflexivity|]. intros H.
  destruct (Z.leb_spec (cmp x y) 0); [reflexivity|].
  specialize (H y (or_introl eq_refl)). lia.
Qed.

Lemma filter_sort_insert x l :
  StronglySorted (fun a b => cmp a b <= 0) l ->
  List.filter g (sort_insert cmp x l)
  = if g x then sort_insert cmp x (List.filter g l) else List.filter g l.
Proof.
  induction 1 as [|y l Hs IH Hy]; simpl.
  - destruct (g x); reflexivity.
  - rewrite Forall_forall in Hy.
    destruct (Z.leb_spec (cmp x y) 0) as [Hle|Hgt]; simpl.
    + destruct (g x) eqn:Gx; [|reflexivity].
      rewrite sort_insert_front; [reflexivity|].
      intros z Hz. assert (Hz' : In z (y :: l)).
      { destruct (g y); [|right; apply filter_In in Hz; tauto].
        destruct Hz as [<-|Hz]; [left; reflexivity|].
        right. apply filter_In in Hz. tauto. }
      destruct Hz' as [<-|Hz']; [exact Hle|].
      apply cmp_trans with y; auto.
    + rewrite IH. destruct (g y) eqn:Gy, (g x) eqn:Gx; simpl;
        try reflexivity.
      destruct (Z.leb_spec (cmp x y) 0); [lia | reflexivity].
Qed.

Lemma filter_Array_sort l :
  List.filter g (Array_sort cmp l) = Array_sort cmp (List.filter g l).
Proof.
  induction l as [|x l IH]; simpl; [reflexivity|].
  rewrite filter_sort_insert by (apply Array_sort_sorted; assumption).
  rewrite IH. destruct (g x); reflexivity.
Qed.
End SortThenFilter.

Lemma filter_repeat (A : Type) (g : A -> bool) (x : A) (k : nat) :
  List.filter g (repeat x k) = if g x then repeat x k else [].
Proof.
  induction k as [|k IH]; simpl; [destruct (g x); reflexivity|].
  rewrite IH. destruct (g x); reflexivity.
Qed.

Lemma creditedTo_filter names (g : Paper -> bool) X papers :
  creditedTo X (credits names (List.filter g papers))
  = List.filter g (creditedTo X (credits names papers)).
Proof.
  induction papers as [|p papers IH]; [reflexivity|].
  change (credits names (p :: papers))
    with (List.map (fun n => (n, p)) (names p) ++ credits names papers).
  rewrite creditedTo_app, filter_app, <- IH, creditedTo_names, filter_repeat.
  simpl. destruct (g p); [|reflexivity].
  change (credits names (p :: List.filter g papers))
    with (List.map (fun n => (n, p)) (names p)
          ++ credits names (List.filter g papers)).
  rewrite creditedTo_app, creditedTo_names. reflexivity.
Qed.

Lemma filter_compareYear (g : Paper -> bool) l :
  List.filter g (Array_sort compareYear l)
  = Array_sort compareYear (List.filter g l).
Proof. apply filter_Array_sort; unfold compareYear; intros; lia. Qed.

Lemma namesFirst_namesAll p n : In n (namesFirst p) -> In n (namesAll p).
Proof.
  unfold namesFirst, namesAll. destruct (authors p) as [| |[|a l]]; simpl;
    try tauto.
  intros H. apply in_or_app. left. exact H.
Qed.

Lemma creditedTo_first_le X papers :
  (length (creditedTo X (credits namesFirst papers))
   <= length (creditedTo X (credits namesAll papers)))%nat.
Proof.
  induction papers as [|p papers IH]; [simpl; lia|].
  change (credits namesFirst (p :: papers))
    with (List.map (fun n => (n, p)) (namesFirst p)
          ++ credits namesFirst papers).
  change (credits namesAll (p :: papers))
    with (List.map (fun n => (n, p)) (namesAll p) ++ credits namesAll papers).
  rewrite !creditedTo_app, !length_app, !creditedTo_names, !repeat_length.
  apply Nat.add_le_mono; [|exact IH].
  unfold namesFirst, namesAll. destruct (authors p) as [| |[|a l]]; simpl;
    try lia.
  rewrite filter_app, length_app. lia.
Qed.

Section RankingExtras.
Variable localeCompare : jsstring -> jsstring -> Z.

(** X1.  A ranking that completes lists exactly the credited names: a name
    has an entry if and only if some input paper credits it (in all-authors
    mode through any author record with a non-empty name, in first-author
    mode through the record at index 0). *)
Theorem X1_entries_are_the_credited_names mode papers es X :
  render localeCompare mode papers = Normal es ->
  ((exists e, In e es /\ entry_name e = X)
   <-> exists p, In p papers /\ In X (selected mode p)).
Proof.
  rewrite render_eq. intros H.
  destruct (ranking_spec _ _ _ H) as [_ [S C]]. split.
  - intros [e [He <-]]. destruct (S e He) as [Hne _].
    apply creditedTo_nonempty in Hne. destruct Hne as [p Hp].
    apply credits_In in Hp. eauto.
  - intros [p [Hp Hn]]. apply C. apply creditedTo_nonempty. exists p.
    apply credits_In. auto.
Qed.

(** X2.  In a ranking that completes, the count of an entry is the length
    of the paper list shown with it and is at least 1, and the entry at
    position [i] (from 0) has a rank between 1 and [i + 1]. *)
Theorem X2_count_and_rank_bounds mode papers es i e :
  render localeCompare mode papers = Normal es ->
  nth_error es i = Some e ->
  count e = length (entry_papers e)
  /\ (1 <= count e)%nat
  /\ exists k, rank e = Some k /\ (1 <= k <= S i)%nat.
Proof.
  rewrite render_eq. intros H Hi.
  destruct (ranking_spec _ _ _ H) as [_ [S _]].
  destruct (S e (nth_error_In _ _ Hi)) as [Hne [Ep [Ec _]]].
  split; [rewrite Ep, Array_sort_perm; exact Ec|].
  split.
  - rewrite Ec.
    destruct (creditedTo (entry_name e) (credits (selected mode) papers));
      [congruence | simpl; lia].
  - apply ranking_rankAuthors in H. destruct H as [ap [_ ->]].
    rewrite rankAuthors_eq, nth_error_map in Hi.
    destruct (nth_error _ i) as [e1|] eqn:E1; [|discriminate].
    injection Hi as <-. apply assignRanks_top_bounds in E1. exact E1.
Qed.

(** X3.  The counts of a ranking add up to the number of credits given: the
    number of author records with a non-empty name in all-authors mode, the
    number of papers whose first author has one in first-author mode. *)
Theorem X3_counts_add_up mode papers es :
  render localeCompare mode papers = Normal es ->
  list_sum (List.map (@count _) es)
  = list_sum (List.map (fun p => length (selected mode p)) papers).
Proof.
  rewrite render_eq. intros H.
  destruct (ranking_spec _ _ _ H) as [ND [S C]].
  rewrite <- length_credits.
  rewrite <- (credits_partition (credits (selected mode) papers) ND).
  - rewrite map_map. f_equal. apply map_ext_in. intros e He.
    apply (S e He).
  - intros [n p] Hc. simpl.
    destruct (C n) as [e [He <-]];
      [apply creditedTo_nonempty; eauto|].
    apply in_map. exact He.
Qed.

(** X4.  In a ranking that completes, rank follows count: two entries have
    the same rank exactly when they have the same count, and one has the
    smaller rank exactly when it has the larger count. *)
Theorem X4_rank_follows_count mode papers es a b :
  render localeCompare mode papers = Normal es ->
  In a es -> In b es ->
  exists ra rb, rank a = Some ra /\ rank b = Some rb
    /\ (ra = rb <-> count a = count b)
    /\ ((ra < rb)%nat <-> (count b < count a)%nat).
Proof.
  rewrite render_eq. intros H Ha Hb.
  apply ranking_rankAuthors in H. destruct H as [ap [_ ->]].
  assert (Hs : StronglySorted (@AheadOf (list Paper))
                 (rankAuthors localeCompare ap)).
  { rewrite rankAuthors_eq.
    apply -> (StronglySorted_map sortPapers (@AheadOf (list Paper))).
    eapply StronglySorted_impl; [|apply assignRanks_AheadOf].
    - intros x y Hxy. exact Hxy.
    - pose proof (rankAuthors_by_count localeCompare ap) as Hc.
      apply (StronglySorted_map (@count (list Paper))
               (fun m n => (n <= m)%nat)) in Hc.
      replace (List.map (@count _) (rankAuthors localeCompare ap))
        with (List.map snd (List.map (fun e => (entry_name e, count e))
                                     (rankAuthors localeCompare ap))) in Hc
        by (rewrite map_map; reflexivity).
      rewrite rankAuthors_keys, map_map in Hc. simpl in Hc.
      apply (StronglySorted_map (@count (list Paper))
               (fun m n => (n <= m)%nat)). exact Hc. }
  destruct (@StronglySorted_In_cases _ _ _ a b Hs Ha Hb)
    as [<-|[[ra [rb [Ra [Rb Hab]]]]|[rb [ra [Rb [Ra Hab]]]]]].
  - destruct (rankAuthors_In _ _ _ Ha) as [_ [_ [_ [_ [r Hr]]]]].
    exists r, r. repeat split; auto; lia.
  - exists ra, rb. split; [exact Ra|]. split; [exact Rb|]. lia.
  - exists ra, rb. split; [exact Ra|]. split; [exact Rb|]. lia.
Qed.

(** X5.  When the all-authors ranking completes, so does the first-author
    ranking; every first-author entry has an all-authors entry of the same
    name with at least that count and all of its papers. *)
Theorem X5_first_author_within_all papers esA :
  renderAuthorsRanking localeCompare papers = Normal esA ->
  exists esF,
    renderFirstAuthorsRanking localeCompare papers = Normal esF
    /\ (forall X, (creditedCount X esF <= creditedCount X esA)%nat)
    /\ forall eF, In eF esF ->
         exists eA, In eA esA /\ entry_name eA = entry_name eF
           /\ (count eF <= count eA)%nat
           /\ incl (entry_papers eF) (entry_papers eA).
Proof.
  rewrite renderAuthorsRanking_eq. intros HA.
  destruct (proj2 (ranking_Normal_iff localeCompare namesFirst papers))
    as [esF HF].
  { intros p n Hp Hn.
    apply (proj1 (ranking_Normal_iff localeCompare namesAll papers)
             (ex_intro _ esA HA) p n Hp).
    apply namesFirst_namesAll, Hn. }
  exists esF. split; [rewrite renderFirstAuthorsRanking_eq; exact HF|].
  split.
  - intros X. rewrite (creditedCount_spec _ _ _ X HF).
    rewrite (creditedCount_spec _ _ _ X HA). apply creditedTo_first_le.
  - intros eF He.
    destruct (ranking_spec _ _ _ HF) as [_ [SF _]].
    destruct (ranking_spec _ _ _ HA) as [_ [SA CA]].
    destruct (SF eF He) as [Hne [Ep [Ec _]]].
    destruct (CA (entry_name eF)) as [eA [HeA En]].
    { apply creditedTo_nonempty in Hne. destruct Hne as [p Hp].
      apply creditedTo_nonempty. exists p. apply credits_In in Hp.
      apply credits_In. split; [tauto|]. apply namesFirst_namesAll. tauto. }
    exists eA. split; [exact HeA|]. split; [exact En|].
    destruct (SA eA HeA) as [_ [EpA [EcA _]]]. rewrite En in EpA, EcA.
    split; [rewrite Ec, EcA; apply creditedTo_first_le|].
    intros p Hp. rewrite Ep in Hp. rewrite EpA.
    apply Array_sort_In in Hp. apply Array_sort_In.
    apply creditedTo_In in Hp. apply creditedTo_In.
    apply credits_In in Hp. apply credits_In.
    split; [tauto|]. apply namesFirst_namesAll. tauto.
Qed.

(** X6.  Ranking the filtered collection, as [applyFilters] does, restricts
    the ranking of the whole collection: when the latter completes so does
    the former, each of its entries shows exactly the papers of the
    same-named entry that pass the filter, in the same order, and an author
    is listed exactly when one of their papers passes. *)
Theorem X6_ranking_of_filtered mode allPapers v yFrom yTo esA :
  render localeCompare mode allPapers = Normal esA ->
  exists esF,
    render localeCompare mode
      (applyFilters allPapers v (Some (Fin yFrom)) (Some (Fin yTo))) = Normal esF
    /\ (forall eF, In eF esF ->
          exists eA, In eA esA /\ entry_name eA = entry_name eF
            /\ entry_papers eF
               = List.filter (keeps v yFrom yTo) (entry_papers eA)
            /\ (count eF <= count eA)%nat)
    /\ (forall eA, In eA esA ->
          List.filter (keeps v yFrom yTo) (entry_papers eA) <> [] ->
          exists eF, In eF esF /\ entry_name eF = entry_name eA).
Proof.
  rewrite applyFilters_filter, !render_eq. intros HA.
  set (g := keeps v yFrom yTo).
  destruct (proj2 (ranking_Normal_iff localeCompare (selected mode)
                     (List.filter g allPapers))) as [esF HF].
  { intros p n Hp Hn. apply filter_In in Hp.
    apply (proj1 (ranking_Normal_iff localeCompare (selected mode) allPapers)
             (ex_intro _ esA HA) p n); tauto. }
  exists esF. split; [exact HF|].
  destruct (ranking_spec _ _ _ HF) as [_ [SF CF]].
  destruct (ranking_spec _ _ _ HA) as [_ [SA CA]].
  split.
  - intros eF He. destruct (SF eF He) as [Hne [Ep [Ec _]]].
    rewrite creditedTo_filter in Hne, Ep, Ec.
    destruct (CA (entry_name eF)) as [eA [HeA En]].
    { intros E. rewrite E in Hne. apply Hne. reflexivity. }
    exists eA. split; [exact HeA|]. split; [exact En|].
    destruct (SA eA HeA) as [_ [EpA [EcA _]]]. rewrite En in EpA, EcA.
    split.
    + rewrite Ep, EpA. symmetry. apply filter_compareYear.
    + rewrite Ec, EcA. apply filter_length_le.
  - intros eA HeA Hne. destruct (SA eA HeA) as [_ [EpA _]].
    rewrite EpA, filter_compareYear in Hne.
    apply CF. rewrite creditedTo_filter. intros E. apply Hne.
    rewrite E. reflexivity.
Qed.
End RankingExtras.

(** * Further properties of the filter *)

Lemma keeps_narrow w v f t f' t' p :
  w = js "all" \/ w = v -> f <= f' -> t' <= t ->
  keeps v f' t' p && keeps w f t p = keeps v f' t' p.
Proof.
  intros Hw Hf Ht. unfold keeps.
  destruct (Z.leb_spec f' (year p)), (Z.leb_spec (year p) t'),
    (Z.leb_spec f (year p)), (Z.leb_spec (year p) t);
    rewrite ?andb_false_r; simpl; try reflexivity; try lia.
  rewrite !andb_true_r. destruct Hw as [->| ->].
  - rewrite jsstring_eqb_refl. simpl. apply andb_true_r.
  - apply andb_diag.
Qed.

(** X7.  Filtering what a wider filter has kept gives what the narrower
    filter keeps of the whole collection: the wider one may have any venue
    when it is "all", or the same venue, and a year range that contains the
    narrower one.  In particular filtering twice with the same state changes
    nothing. *)
Theorem X7_filter_of_filtered allPapers w v f t f' t' :
  w = js "all" \/ w = v -> f <= f' -> t' <= t ->
  applyFilters (applyFilters allPapers w (Some (Fin f)) (Some (Fin t))) v
               (Some (Fin f')) (Some (Fin t'))
  = applyFilters allPapers v (Some (Fin f')) (Some (Fin t'))
  /\ Subseq (applyFilters allPapers v (Some (Fin f')) (Some (Fin t')))
            (applyFilters allPapers w (Some (Fin f)) (Some (Fin t))).
Proof.
  intros Hw Hf Ht. rewrite !applyFilters_filter.
  assert (E : List.filter (keeps v f' t') (List.filter (keeps w f t) allPapers)
              = List.filter (keeps v f' t') allPapers).
  { rewrite filter_filter. apply filter_ext. intros p.
    rewrite andb_comm. apply keeps_narrow; assumption. }
  split; [exact E|]. rewrite <- E. apply Subseq_filter.
Qed.

Lemma fold_min_lower years : forall lo,
  fold_left Z.min years lo <= lo
  /\ Forall (fun y => fold_left Z.min years lo <= y) years.
Proof.
  induction years as [|y years IH]; intros lo; simpl;
    [split; [lia|constructor]|].
  destruct (IH (Z.min lo y)) as [A B]. split; [lia|].
  constructor; [lia | exact B].
Qed.

Lemma fold_max_upper years : forall hi,
  hi <= fold_left Z.max years hi
  /\ Forall (fun y => y <= fold_left Z.max years hi) years.
Proof.
  induction years as [|y years IH]; intros hi; simpl;
    [split; [lia|constructor]|].
  destruct (IH (Z.max hi y)) as [A B]. split; [lia|].
  constructor; [lia | exact B].
Qed.

(** The bounds that [loadPapers] computes for a collection with a paper
    are integers that enclose the year of every paper. *)
Lemma loadPapers_encloses s papers :
  papers <> [] ->
  exists lo hi,
    minYear (loadPapers s papers) = Fin lo
    /\ maxYear (loadPapers s papers) = Fin hi
    /\ forall p, In p papers -> lo <= year p <= hi.
Proof.
  intros Hne. destruct papers as [|p0 papers]; [congruence|].
  unfold loadPapers. simpl List.map. unfold Math_min, Math_max.
  eexists _, _. split; [reflexivity|]. split; [reflexivity|].
  intros p Hp. apply (in_map year) in Hp. simpl in Hp.
  destruct (fold_min_lower (List.map year papers) (year p0)) as [A B].
  destruct (fold_max_upper (List.map year papers) (year p0)) as [C D].
  rewrite Forall_forall in B, D.
  destruct Hp as [<-|Hp]; [lia|]. split; [apply B | apply D]; exact Hp.
Qed.

Lemma loadPapers_full s papers :
  yearFrom (loadPapers s papers) = Some (minYear (loadPapers s papers))
  /\ yearTo (loadPapers s papers) = Some (maxYear (loadPapers s papers)).
Proof. split; reflexivity. Qed.

Lemma applyFilters_nil v f t : applyFilters [] v f t = [].
Proof.
  unfold applyFilters.
  destruct (negb (jsstring_eqb v (js "all"))), f, t; reflexivity.
Qed.

Lemma filter_all (A : Type) (g : A -> bool) (l : list A) :
  (forall x, In x l -> g x = true) -> List.filter g l = l.
Proof.
  induction l as [|x l IH]; simpl; [reflexivity|]. intros H.
  rewrite (H x (or_introl eq_refl)), IH; [reflexivity|].
  intros y Hy. apply H. right. exact Hy.
Qed.

Lemma applyFilters_full_range papers lo hi :
  (forall p, In p papers -> lo <= year p <= hi) ->
  applyFilters papers (js "all") (Some (Fin lo)) (Some (Fin hi)) = papers.
Proof.
  intros H. rewrite applyFilters_filter. apply filter_all. intros p Hp.
  unfold keeps. specialize (H p Hp). simpl.
  destruct (Z.leb_spec lo (year p)), (Z.leb_spec (year p) hi);
    try reflexivity; lia.
Qed.

(** X8.  With the venue "all", the year range that [loadPapers] sets keeps
    every paper of the collection, and so does the range after a click on
    reset, whatever slider and reset events came before. *)
Theorem X8_full_range_keeps_all page papers s0 events :
  loadPapers page papers = s0 ->
  applyFilters papers (js "all") (yearFrom s0) (yearTo s0) = papers
  /\ applyFilters papers (js "all")
       (yearFrom (handle (handleAll events s0) ClickReset))
       (yearTo (handle (handleAll events s0) ClickReset)) = papers.
Proof.
  intros <-. destruct papers as [|p0 papers].
  { split; apply applyFilters_nil. }
  destruct (@loadPapers_encloses page (p0 :: papers)) as [lo [hi [A [B Enc]]]];
    [discriminate|].
  split.
  - destruct (loadPapers_full page (p0 :: papers)) as [-> ->].
    rewrite A, B. apply applyFilters_full_range, Enc.
  - unfold handle, onReset. range_fields.
    destruct (handleAll_bounds events (loadPapers page (p0 :: papers)))
      as [-> ->].
    rewrite A, B. apply applyFilters_full_range, Enc.
Qed.

(** * Papers by year *)

(** ** Years as property names *)

Lemma digitsValue_acc (d : Decimal.uint) : forall a : positive,
  fold_left (fun acc c => 10 * acc + (c - 48))%N
            (js (NilEmpty.string_of_uint d)) (N.pos a)
  = N.pos (Pos.of_uint_acc d a).
Proof.
  unfold js. induction d; intros a; [reflexivity|..];
    cbn [NilEmpty.string_of_uint list_ascii_of_string List.map fold_left
         Pos.of_uint_acc];
    rewrite <- IHd; apply f_equal;
    match goal with
    | |- context [N_of_ascii ?c] =>
        let v := eval vm_compute in (N_of_ascii c) in
        change (N_of_ascii c) with v
    end; lia.
Qed.

Lemma digitsValue_of_uint (d : Decimal.uint) :
  digitsValue (js (NilEmpty.string_of_uint d)) = Pos.of_uint d.
Proof.
  unfold digitsValue. induction d; [reflexivity|exact IHd|..];
    exact (digitsValue_acc d _).
Qed.

Lemma isDigit_of_uint (d : Decimal.uint) :
  forallb isDigit (js (NilEmpty.string_of_uint d)) = true.
Proof. induction d; simpl; auto. Qed.

Lemma string_of_uint_head (d : Decimal.uint) :
  d <> Decimal.Nil ->
  exists c r, js (NilEmpty.string_of_uint d) = c :: r /\ isDigit c = true.
Proof.
  destruct d; intros H; try congruence;
    eexists _, _; (split; [unfold js; simpl; reflexivity|]); reflexivity.
Qed.

Lemma isDigit_range (c : N) : isDigit c = true -> (48 <= c <= 57)%N.
Proof.
  unfold isDigit. intros H. apply andb_true_iff in H.
  destruct H as [A B]. apply N.leb_le in A, B. lia.
Qed.

Lemma string_of_uint_nonnil (d : Decimal.uint) :
  d <> Decimal.Nil -> NilZero.string_of_uint d = NilEmpty.string_of_uint d.
Proof. destruct d; intros H; [congruence | reflexivity..]. Qed.

(** [Number(String(y))] is [y]. *)
Lemma toNumber_yearKey (y : Z) : toNumber (yearKey y) = Some y.
Proof.
  unfold yearKey. destruct y as [|p|p]; [reflexivity| |]; simpl.
  - pose proof (Unsigned.to_uint_nonnil p) as Hn.
    pose proof (DecimalPos.Unsigned.of_to p) as Hv.
    pose proof (isDigit_of_uint (Pos.to_uint p)) as Hd.
    pose proof (digitsValue_of_uint (Pos.to_uint p)) as Hw.
    destruct (string_of_uint_head Hn) as [c [r [E Hc]]].
    rewrite (string_of_uint_nonnil (Unsigned.to_uint_nonnil p)).
    rewrite E in *. unfold toNumber.
    replace (c =? 45)%N with false
      by (apply isDigit_range in Hc; symmetry; apply N.eqb_neq; lia).
    rewrite Hd, Hw, Hv. reflexivity.
  - pose proof (Unsigned.to_uint_nonnil p) as Hn.
    pose proof (DecimalPos.Unsigned.of_to p) as Hv.
    pose proof (isDigit_of_uint (Pos.to_uint p)) as Hd.
    pose proof (digitsValue_of_uint (Pos.to_uint p)) as Hw.
    destruct (string_of_uint_head Hn) as [c [r [E Hc]]].
    rewrite (string_of_uint_nonnil (Unsigned.to_uint_nonnil p)).
    change (List.map N_of_ascii
              (list_ascii_of_string
                 (NilEmpty.string_of_uint (Pos.to_uint p))))
      with (js (NilEmpty.string_of_uint (Pos.to_uint p))).
    rewrite Hd, Hw, Hv, E. reflexivity.
Qed.

Lemma yearKey_inj (x y : Z) : yearKey x = yearKey y -> x = y.
Proof.
  intros H. apply (f_equal toNumber) in H.
  rewrite !toNumber_yearKey in H. congruence.
Qed.

Lemma yearKey_eqb (x y : Z) : jsstring_eqb (yearKey x) (yearKey y) = (x =? y).
Proof.
  destruct (Z.eqb_spec x y) as [->|N]; [apply jsstring_eqb_refl|].
  destruct (jsstring_eqb (yearKey x) (yearKey y)) eqn:E; [|reflexivity].
  apply jsstring_eqb_eq, yearKey_inj in E. contradiction.
Qed.

(** A key that starts with a digit or a minus sign names no property of
    [Object.prototype]. *)
Lemma inherited_head (c : N) (r : jsstring) :
  isDigit c = true \/ c = 45%N -> inherited (c :: r) = false.
Proof.
  intros H. unfold inherited, Object_prototype_keys. simpl.
  assert (L : (c <= 57)%N)
    by (destruct H as [H| ->]; [apply isDigit_range in H|]; lia).
  repeat match goal with
         | |- context [N.eqb c ?n] =>
             destruct (N.eqb_spec c n); [exfalso; lia|]
         end.
  reflexivity.
Qed.

Lemma inherited_yearKey (y : Z) : inherited (yearKey y) = false.
Proof.
  unfold yearKey. destruct y as [|p|p]; [reflexivity| |]; simpl.
  - destruct (string_of_uint_head (Unsigned.to_uint_nonnil p))
      as [c [r [E Hc]]].
    rewrite (string_of_uint_nonnil (Unsigned.to_uint_nonnil p)).
    rewrite E. apply inherited_head. left. exact Hc.
  - apply (@inherited_head 45%N). right. reflexivity.
Qed.

Lemma compareKeys_yearKey (x y : Z) :
  compareKeys (yearKey x) (yearKey y) = y - x.
Proof. unfold compareKeys. rewrite !toNumber_yearKey. reflexivity. Qed.

(** ** The grouping *)

Lemma groupByYear_credits papers ap :
  forEach groupByYear papers ap = pushCredits (credits yearName papers) ap.
Proof.
  apply forEach_credits. intros p ap'.
  unfold groupByYear, pushCredits, yearName. simpl.
  destruct (pushCredit p (yearKey (year p)) ap'); reflexivity.
Qed.

Lemma creditedTo_yearName y papers :
  creditedTo (yearKey y) (credits yearName papers)
  = List.filter (fun p => year p =? y) papers.
Proof.
  induction papers as [|p papers IH]; [reflexivity|].
  change (credits yearName (p :: papers))
    with ((yearKey (year p), p) :: credits yearName papers).
  rewrite creditedTo_cons, IH. simpl. rewrite yearKey_eqb. reflexivity.
Qed.

Section SortMapped.
Variables A B : Type.
Variable f : A -> B.
Variable cmpA : A -> A -> Z.
Variable cmpB : B -> B -> Z.
Hypothesis cmp_f : forall x y, cmpB (f x) (f y) = cmpA x y.

Lemma sort_insert_map x l :
  sort_insert cmpB (f x) (List.map f l) = List.map f (sort_insert cmpA x l).
Proof.
  induction l as [|y l IH]; simpl; [reflexivity|]. rewrite cmp_f.
  destruct (cmpA x y <=? 0); simpl; [reflexivity|]. rewrite IH. reflexivity.
Qed.

Lemma Array_sort_map l :
  Array_sort cmpB (List.map f l) = List.map f (Array_sort cmpA l).
Proof.
  induction l as [|x l IH]; simpl; [reflexivity|].
  rewrite IH. apply sort_insert_map.
Qed.
End SortMapped.

Lemma StronglySorted_strict (l : list Z) :
  NoDup l -> StronglySorted (fun a b => b - a <= 0) l ->
  StronglySorted Z.gt l.
Proof.
  induction 1 as [|x l Hx ND IH]; intros Hs; [constructor|].
  inversion Hs as [|? ? Hs' Hall]; subst. constructor; [apply IH, Hs'|].
  rewrite Forall_forall in *. intros y Hy. specialize (Hall y Hy).
  assert (x <> y) by (intros ->; contradiction). lia.
Qed.

Lemma yearSection_run papersByYear papers : forall ys html,
  (forall y, In y ys ->
     getOwn papersByYear (yearKey y)
     = Some (List.filter (fun p => year p =? y) papers)) ->
  forEach (yearSection papersByYear) (List.map yearKey ys) html
  = Normal (html ++ sectionsOf papers ys).
Proof.
  induction ys as [|y ys IH]; intros html H; simpl;
    [rewrite app_nil_r; reflexivity|].
  unfold yearSection at 1, getProp. rewrite (H y (or_introl eq_refl)). simpl.
  rewrite IH by (intros; apply H; right; assumption).
  rewrite <- app_assoc. reflexivity.
Qed.

Lemma renderPapers_nonempty papers :
  papers <> [] ->
  renderPapers papers
  = bind (forEach groupByYear papers []) (fun papersByYear =>
    let years :=
      Array_sort compareKeys (List.map fst (Object_entries papersByYear)) in
    bind (forEach (yearSection papersByYear) years []) (fun html =>
    Normal (YearSections html))).
Proof. destruct papers; [congruence | reflexivity]. Qed.

(** The number a key stands for. *)
Lemma numberOf_yearKey (keys : list jsstring) :
  (forall k, In k keys -> exists y, k = yearKey y) ->
  exists ys, keys = List.map yearKey ys.
Proof.
  induction keys as [|k keys IH]; intros H; [exists []; reflexivity|].
  destruct (H k (or_introl eq_refl)) as [y ->].
  destruct IH as [ys ->]; [intros k Hk; apply H; right; exact Hk|].
  exists (y :: ys). reflexivity.
Qed.

Lemma NoDup_map_yearKey (ys : list Z) :
  NoDup (List.map yearKey ys) -> NoDup ys.
Proof.
  induction ys as [|y ys IH]; simpl; intros H; [constructor|].
  inversion H as [|? ? Hy ND]; subst. constructor; [|apply IH, ND].
  intros Hin. apply Hy, in_map, Hin.
Qed.

Lemma In_map_yearKey (y : Z) (ys : list Z) :
  In (yearKey y) (List.map yearKey ys) <-> In y ys.
Proof.
  split; [|apply in_map]. intros H. apply in_map_iff in H.
  destruct H as [y' [E Hy']]. apply yearKey_inj in E. subst y'. exact Hy'.
Qed.

(** What [renderPapers] shows for a collection that is not empty. *)
Lemma renderPapers_sections papers :
  papers <> [] ->
  exists ys,
    renderPapers papers = Normal (YearSections (sectionsOf papers ys))
    /\ StronglySorted Z.gt ys
    /\ NoDup ys
    /\ forall y, In y ys <-> exists p, In p papers /\ year p = y.
Proof.
  intros Hne. rewrite (renderPapers_nonempty Hne), groupByYear_credits.
  destruct (proj2 (pushCredits_Normal_iff (credits yearName papers)
                     (@WellFormed_nil (list Paper)))) as [ap Hap].
  { intros [n p] Hc. apply credits_In in Hc. destruct Hc as [_ [<-|[]]].
    apply inherited_yearKey. }
  rewrite Hap. cbn [bind].
  destruct (@pushCredits_WellFormed _ _ _ Hap (@WellFormed_nil _)) as [ND _].
  assert (G : forall y,
             getOwn ap (yearKey y)
             = extend None (List.filter (fun p => year p =? y) papers)).
  { intros y. rewrite (@pushCredits_getOwn _ _ _ Hap), creditedTo_yearName.
    reflexivity. }
  assert (K : forall k, In k (List.map fst ap) -> exists y, k = yearKey y).
  { intros k Hk. destruct (getOwn ap k) as [l|] eqn:E;
      [|apply getOwn_None in E; contradiction].
    rewrite (@pushCredits_getOwn _ _ _ Hap) in E. simpl in E.
    destruct (creditedTo k (credits yearName papers)) as [|p l'] eqn:C;
      [discriminate|].
    assert (Hp : In p (creditedTo k (credits yearName papers)))
      by (rewrite C; left; reflexivity).
    apply creditedTo_In, credits_In in Hp. destruct Hp as [_ [<-|[]]].
    eauto. }
  assert (P : Permutation (List.map fst (Object_entries ap)) (List.map fst ap))
    by (apply Permutation_map, Object_entries_perm).
  destruct (@numberOf_yearKey (List.map fst (Object_entries ap))) as [ys0 E0].
  { intros k Hk. apply K. eapply Permutation_in; [exact P | exact Hk]. }
  cbv zeta. rewrite E0.
  rewrite (Array_sort_map yearKey (fun a b => b - a) compareKeys
             compareKeys_yearKey).
  set (ys := Array_sort (fun a b => b - a) ys0).
  assert (ND0 : NoDup ys0).
  { apply NoDup_map_yearKey. rewrite <- E0.
    eapply Permutation_NoDup; [symmetry; exact P | exact ND]. }
  assert (NDs : NoDup ys).
  { eapply Permutation_NoDup; [symmetry; apply Array_sort_perm | exact ND0]. }
  assert (M : forall y, In y ys <-> exists p, In p papers /\ year p = y).
  { intros y. unfold ys. rewrite Array_sort_In, <- In_map_yearKey, <- E0.
    assert (Q : In (yearKey y) (List.map fst (Object_entries ap))
                <-> In (yearKey y) (List.map fst ap)).
    { split; apply Permutation_in; [exact P | symmetry; exact P]. }
    rewrite Q. split.
    - intros Hk. destruct (getOwn ap (yearKey y)) as [l|] eqn:E;
        [|apply getOwn_None in E; contradiction].
      rewrite G in E.
      destruct (List.filter (fun p => year p =? y) papers) as [|p l'] eqn:F;
        [discriminate|].
      assert (Hp : In p (List.filter (fun p => year p =? y) papers))
        by (rewrite F; left; reflexivity).
      apply filter_In in Hp. destruct Hp as [Hp Hy].
      exists p. split; [exact Hp | apply Z.eqb_eq, Hy].
    - intros [p [Hp Hy]].
      destruct (getOwn ap (yearKey y)) as [l|] eqn:E;
        [apply getOwn_In in E; apply (in_map fst) in E; exact E|].
      rewrite G in E.
      assert (Hf : In p (List.filter (fun p => year p =? y) papers))
        by (apply filter_In; split; [exact Hp | apply Z.eqb_eq, Hy]).
      destruct (List.filter (fun p => year p =? y) papers);
        [destruct Hf | discriminate]. }
  exists ys. split; [|split; [|split; [exact NDs | exact M]]].
  - rewrite (@yearSection_run ap papers ys []); [reflexivity|].
    intros y Hy. rewrite G. apply M in Hy. destruct Hy as [p [Hp Hy]].
    assert (Hf : In p (List.filter (fun p => year p =? y) papers))
      by (apply filter_In; split; [exact Hp | apply Z.eqb_eq, Hy]).
    destruct (List.filter (fun p => year p =? y) papers);
      [destruct Hf | reflexivity].
  - apply StronglySorted_strict; [exact NDs|].
    apply Array_sort_sorted; intros; lia.
Qed.

Lemma renderPapers_Normal papers :
  exists view, renderPapers papers = Normal view.
Proof.
  destruct papers as [|p papers]; [exists NoPapersFound; reflexivity|].
  destruct (@renderPapers_sections (p :: papers)) as [ys [H _]];
    [discriminate|]. eauto.
Qed.

(** ** Every paper is shown once *)

Lemma flat_map_nil (A B : Type) (g : A -> list B) (l : list A) :
  (forall x, In x l -> g x = []) -> flat_map g l = [].
Proof.
  induction l as [|x l IH]; simpl; [reflexivity|]. intros H.
  rewrite (H x (or_introl eq_refl)), IH; [reflexivity|].
  intros y Hy. apply H. right. exact Hy.
Qed.

Lemma flat_map_app_perm (A B : Type) (a b : A -> list B) (l : list A) :
  Permutation (flat_map (fun x => a x ++ b x) l)
              (flat_map a l ++ flat_map b l).
Proof.
  induction l as [|x l IH]; simpl; [constructor|].
  rewrite IH, <- !app_assoc. apply Permutation_app_head.
  rewrite !app_assoc. apply Permutation_app_tail, Permutation_app_comm.
Qed.

Lemma flat_map_single (p : Paper) (ys : list Z) :
  NoDup ys -> In (year p) ys ->
  flat_map (fun y => if year p =? y then [p] else []) ys = [p].
Proof.
  induction 1 as [|y ys Hy ND IH]; simpl; [tauto|]. intros [->|Hin].
  - rewrite Z.eqb_refl. simpl. f_equal. apply flat_map_nil.
    intros y Hin. destruct (Z.eqb_spec (year p) y); [|reflexivity].
    subst y. contradiction.
  - destruct (Z.eqb_spec (year p) y) as [E|_]; [subst y; contradiction|].
    apply IH, Hin.
Qed.

Lemma sections_partition (ys : list Z) : NoDup ys -> forall papers,
  (forall p, In p papers -> In (year p) ys) ->
  Permutation (flat_map snd (sectionsOf papers ys)) papers.
Proof.
  intros ND papers. unfold sectionsOf. rewrite flat_map_concat_map, map_map.
  rewrite <- flat_map_concat_map. simpl.
  induction papers as [|p papers IH]; intros H; simpl.
  - rewrite flat_map_nil by reflexivity. constructor.
  - rewrite (flat_map_ext _
      (fun y => (if year p =? y then [p] else [])
                ++ List.filter (fun q => year q =? y) papers))
      by (intros y; destruct (year p =? y); reflexivity).
    rewrite flat_map_app_perm, flat_map_single;
      [|exact ND|apply H; left; reflexivity].
    simpl. constructor. apply IH. intros q Hq. apply H. right. exact Hq.
Qed.

(** X9.  For a collection whose years are safe integers, [renderPapers]
    never throws.  It shows the "no papers" message exactly for the empty
    collection.  Otherwise it shows one section per year that occurs, the
    years strictly descending, each section under the digits of its year
    and holding the papers of that year in the order of the collection;
    every paper is shown once. *)
Theorem X9_papers_grouped_by_year papers :
  SafeYears papers ->
  exists view,
    renderPapers papers = Normal view
    /\ (view = NoPapersFound <-> papers = [])
    /\ (papers <> [] ->
        exists ys,
          view = YearSections (sectionsOf papers ys)
          /\ StronglySorted Z.gt ys
          /\ (forall y, In y ys <-> exists p, In p papers /\ year p = y)
          /\ Permutation (flat_map snd (sectionsOf papers ys)) papers).
Proof.
  intros _. destruct papers as [|p0 papers].
  - exists NoPapersFound. split; [reflexivity|]. split; [tauto|].
    intros H. congruence.
  - destruct (@renderPapers_sections (p0 :: papers)) as [ys [H [S [ND M]]]];
      [discriminate|].
    exists (YearSections (sectionsOf (p0 :: papers) ys)).
    split; [exact H|]. split; [split; discriminate|].
    intros _. exists ys. split; [reflexivity|]. split; [exact S|].
    split; [exact M|]. apply sections_partition; [exact ND|].
    intros p Hp. apply M. eauto.
Qed.

(** ** Grouping what the filter keeps *)

Lemma StronglySorted_filter (A : Type) (R : A -> A -> Prop) (g : A -> bool) l :
  StronglySorted R l -> StronglySorted R (List.filter g l).
Proof.
  induction 1 as [|x l Hs IH Hx]; simpl; [constructor|].
  destruct (g x); [|exact IH]. constructor; [exact IH|].
  rewrite Forall_forall in *. intros y Hy. apply filter_In in Hy.
  apply Hx. tauto.
Qed.

(** A strictly descending list is determined by its elements. *)
Lemma descending_unique (l1 : list Z) : forall l2,
  StronglySorted Z.gt l1 -> StronglySorted Z.gt l2 ->
  (forall y, In y l1 <-> In y l2) -> l1 = l2.
Proof.
  induction l1 as [|x l1 IH]; intros l2 S1 S2 M.
  - destruct l2 as [|y l2]; [reflexivity|].
    destruct (proj2 (M y) (or_introl eq_refl)).
  - destruct l2 as [|y l2]; [destruct (proj1 (M x) (or_introl eq_refl))|].
    inversion S1 as [|? ? S1' F1]; subst.
    inversion S2 as [|? ? S2' F2]; subst.
    rewrite Forall_forall in F1, F2.
    assert (E : x = y).
    { destruct (proj1 (M x) (or_introl eq_refl)) as [E|Hx]; [auto|].
      destruct (proj2 (M y) (or_introl eq_refl)) as [E|Hy]; [auto|].
      specialize (F1 y Hy). specialize (F2 x Hx). lia. }
    subst y. f_equal. apply IH; [exact S1' | exact S2'|].
    intros z. split; intros Hz.
    + destruct (proj1 (M z) (or_intror Hz)) as [E|H]; [|exact H].
      specialize (F1 z Hz). lia.
    + destruct (proj2 (M z) (or_intror Hz)) as [E|H]; [|exact H].
      specialize (F2 z Hz). lia.
Qed.

Lemma restrictSections_sectionsOf (g : Paper -> bool) papers ys :
  restrictSections g (sectionsOf papers ys)
  = sectionsOf (List.filter g papers)
      (List.filter
         (fun y => match List.filter (fun p => year p =? y)
                                     (List.filter g papers) with
                   | [] => false
                   | _ :: _ => true
                   end) ys).
Proof.
  unfold restrictSections, sectionsOf.
  assert (C : forall y,
             List.filter g (List.filter (fun p => year p =? y) papers)
             = List.filter (fun p => year p =? y) (List.filter g papers)).
  { intros y. rewrite !filter_filter. apply filter_ext. intros p.
    apply andb_comm. }
  induction ys as [|y ys IH]; simpl; [reflexivity|].
  rewrite C, IH.
  destruct (List.filter (fun p => year p =? y) (List.filter g papers))
    eqn:E; simpl; rewrite ?E; reflexivity.
Qed.

Lemma sectionsOf_nil papers ys :
  sectionsOf papers ys = [] -> ys = [].
Proof. destruct ys; [reflexivity | discriminate]. Qed.

(** What [renderPapers] shows for a part of a collection, from what it
    shows for the whole. *)
Lemma renderPapers_filter (g : Paper -> bool) papers sections :
  renderPapers papers = Normal (YearSections sections) ->
  renderPapers (List.filter g papers)
  = Normal (viewOfSections (restrictSections g sections)).
Proof.
  intros H.
  assert (Hne : papers <> []) by (intros ->; discriminate).
  destruct (renderPapers_sections Hne) as [ys [H' [S [ND M]]]].
  rewrite H' in H. injection H as <-.
  rewrite restrictSections_sectionsOf.
  set (ys'' := List.filter _ ys).
  assert (M'' : forall y, In y ys''
                  <-> exists p, In p (List.filter g papers) /\ year p = y).
  { intros y. unfold ys''. rewrite filter_In. split.
    - intros [_ Hy].
      destruct (List.filter (fun p => year p =? y) (List.filter g papers))
        as [|p l] eqn:E; [discriminate|].
      assert (Hp : In p (List.filter (fun p => year p =? y)
                                     (List.filter g papers)))
        by (rewrite E; left; reflexivity).
      apply filter_In in Hp. destruct Hp as [Hp Ey].
      exists p. split; [exact Hp | apply Z.eqb_eq, Ey].
    - intros [p [Hp Ey]]. split.
      + apply M. exists p. apply filter_In in Hp. tauto.
      + assert (Hf : In p (List.filter (fun p => year p =? y)
                                       (List.filter g papers)))
          by (apply filter_In; split; [exact Hp | apply Z.eqb_eq, Ey]).
        destruct (List.filter (fun p => year p =? y) (List.filter g papers));
          [destruct Hf | reflexivity]. }
  destruct (List.filter g papers) as [|p0 l0] eqn:E.
  - assert (N : ys'' = []).
    { destruct ys'' as [|y l]; [reflexivity|].
      destruct (proj1 (M'' y) (or_introl eq_refl)) as [p [[] _]]. }
    rewrite N. reflexivity.
  - rewrite <- E in *.
    assert (Hne' : List.filter g papers <> []) by (rewrite E; discriminate).
    destruct (renderPapers_sections Hne') as [ys' [H'' [S' [_ M']]]].
    assert (U : ys' = ys'').
    { apply descending_unique; [exact S'| |].
      - apply StronglySorted_filter, S.
      - intros y. rewrite M', M''. reflexivity. }
    rewrite H'', U.
    destruct ys'' as [|y l]; [|reflexivity].
    destruct (proj2 (M'' (year p0))) as [].
    exists p0. split; [rewrite E; left|]; reflexivity.
Qed.

(** X18.  For a collection whose years are safe integers, what the papers
    container shows under a filter is what it shows for the whole
    collection with the papers that do not pass taken out of their sections
    and the sections left empty dropped; when nothing passes, the "no
    papers" message. *)
Theorem X18_sections_of_filtered allPapers v yFrom yTo sections :
  SafeYears allPapers ->
  renderPapers allPapers = Normal (YearSections sections) ->
  renderPapers (applyFilters allPapers v (Some (Fin yFrom)) (Some (Fin yTo)))
  = Normal (viewOfSections
              (restrictSections (keeps v yFrom yTo) sections)).
Proof.
  intros _ H. rewrite applyFilters_filter. apply renderPapers_filter, H.
Qed.
(** * The ranking lists and their toggles *)

Lemma authorRows_authors showAll authorList : forall index,
  List.map row_author (authorRows showAll index authorList) = authorList.
Proof.
  induction authorList as [|a l IH]; intros k; simpl; [reflexivity|].
  rewrite IH. reflexivity.
Qed.

Lemma authorRows_nth showAll authorList : forall index i row,
  nth_error (authorRows showAll index authorList) i = Some row ->
  hiddenClass row = displayNone row
  /\ displayNone row = negb showAll && (INITIAL_LIMIT <=? index + i)%nat.
Proof.
  induction authorList as [|a l IH]; intros k i row; simpl;
    [destruct i; discriminate|].
  destruct i as [|i]; simpl.
  - intros [= <-]. simpl. rewrite Nat.add_0_r. auto.
  - intros H. apply IH in H. rewrite Nat.add_succ_r. exact H.
Qed.

Lemma authorRows_fresh showAll authorList index row :
  In row (authorRows showAll index authorList) ->
  hiddenClass row = displayNone row.
Proof.
  intros H. apply In_nth_error in H. destruct H as [i H].
  apply authorRows_nth in H. tauto.
Qed.

Lemma authorRows_hidden authorList : forall index,
  length (List.filter hiddenClass (authorRows false index authorList))
  = (length authorList - (INITIAL_LIMIT - index))%nat.
Proof.
  induction authorList as [|a l IH]; intros k; [reflexivity|].
  cbn [authorRows negb andb].
  destruct (Nat.leb_spec INITIAL_LIMIT k);
    cbn [List.filter hiddenClass length]; rewrite IH;
    unfold INITIAL_LIMIT in *; lia.
Qed.

Lemma authorRows_shown authorList : forall index,
  length (List.filter (fun row => negb (displayNone row))
                      (authorRows false index authorList))
  = Nat.min (length authorList) (INITIAL_LIMIT - index).
Proof.
  induction authorList as [|a l IH]; intros k; [reflexivity|].
  cbn [authorRows negb andb].
  destruct (Nat.leb_spec INITIAL_LIMIT k);
    cbn [List.filter displayNone negb length]; rewrite IH;
    unfold INITIAL_LIMIT in *; lia.
Qed.

Lemma authorRows_all_shown authorList : forall index,
  List.filter (fun row => negb (displayNone row))
              (authorRows true index authorList)
  = authorRows true index authorList.
Proof.
  induction authorList as [|a l IH]; intros k; simpl; [reflexivity|].
  rewrite IH. reflexivity.
Qed.

Lemma length_authorRows showAll authorList : forall index,
  length (authorRows showAll index authorList) = length authorList.
Proof.
  induction authorList as [|a l IH]; intros k; simpl; [reflexivity|].
  rewrite IH. reflexivity.
Qed.

(** What a list with more than [INITIAL_LIMIT] authors is rendered as. *)
Lemma rankingView_long authorList :
  (INITIAL_LIMIT < length authorList)%nat ->
  rankingView authorList
  = AuthorsList (authorRows false 0 authorList)
                (Some (ShowAllAuthors (length authorList))).
Proof.
  intros H. unfold rankingView. destruct authorList as [|a l]; [inversion H|].
  destruct (Nat.leb_spec (length (a :: l)) INITIAL_LIMIT); [lia|].
  destruct (Nat.ltb_spec INITIAL_LIMIT (length (a :: l))); [reflexivity | lia].
Qed.

Lemma setDisplay_fresh (rows : list AuthorRow) :
  (forall row, In row rows -> hiddenClass row = displayNone row) ->
  List.map (setDisplay false) rows = rows.
Proof.
  intros H. rewrite <- (map_id rows) at 2. apply map_ext_in. intros row Hr.
  specialize (H row Hr). unfold setDisplay. destruct row as [a h d].
  simpl in *. subst d. destruct h; reflexivity.
Qed.

Lemma setDisplay_back (rows : list AuthorRow) :
  (forall row, In row rows -> hiddenClass row = displayNone row) ->
  List.map (setDisplay false) (List.map (setDisplay true) rows) = rows.
Proof.
  intros H. rewrite map_map. rewrite <- (map_id rows) at 2.
  apply map_ext_in. intros row Hr.
  specialize (H row Hr). unfold setDisplay. destruct row as [a h d].
  simpl in *. subst d. destruct h; reflexivity.
Qed.

Lemma setDisplay_hidden expanded (rows : list AuthorRow) :
  List.filter hiddenClass (List.map (setDisplay expanded) rows)
  = List.map (setDisplay expanded) (List.filter hiddenClass rows).
Proof.
  induction rows as [|row rows IH]; simpl; [reflexivity|].
  assert (E : hiddenClass (setDisplay expanded row) = hiddenClass row)
    by (unfold setDisplay; destruct (hiddenClass row) eqn:E; simpl; auto).
  rewrite E, IH. destruct (hiddenClass row); reflexivity.
Qed.

Lemma setDisplay_shown (rows : list AuthorRow) row :
  (forall row, In row rows -> hiddenClass row = displayNone row) ->
  In row (List.map (setDisplay true) rows) -> displayNone row = false.
Proof.
  intros H Hr. apply in_map_iff in Hr. destruct Hr as [r [<- Hin]].
  specialize (H r Hin). unfold setDisplay.
  destruct (hiddenClass r) eqn:E; simpl; congruence.
Qed.

Lemma setDisplay_author expanded (rows : list AuthorRow) :
  List.map row_author (List.map (setDisplay expanded) rows)
  = List.map row_author rows.
Proof.
  rewrite map_map. apply map_ext. intros row. unfold setDisplay.
  destruct (hiddenClass row); reflexivity.
Qed.

(** The toggle on a list as rendered, with the flag up already. *)
Lemma toggleList_stale authorList :
  (INITIAL_LIMIT < length authorList)%nat ->
  toggleList true (rankingView authorList)
  = (Normal tt, (false, rankingView authorList)).
Proof.
  intros H. rewrite (@rankingView_long authorList H). unfold toggleList.
  simpl negb.
  cbv iota beta zeta.
  rewrite setDisplay_fresh by (intros row; apply authorRows_fresh).
  rewrite authorRows_hidden. unfold INITIAL_LIMIT in *.
  replace (length authorList - (25 - 0) + 25)%nat with (length authorList)
    by lia.
  reflexivity.
Qed.

(** X10.  A ranking with at least one author is shown as one row per
    entry, in order; the row at position [i] (from 0) is hidden exactly
    when [i >= 25], so the first 25 are shown; the button is there exactly
    when the list has more than 25 entries and then reads "Show all n
    authors" with [n] the number of entries. *)
Theorem X10_first_25_shown authorList :
  authorList <> [] ->
  exists rows button,
    rankingView authorList = AuthorsList rows button
    /\ List.map row_author rows = authorList
    /\ (forall i row, nth_error rows i = Some row ->
          hiddenClass row = displayNone row
          /\ (displayNone row = true <-> (25 <= i)%nat))
    /\ length (List.filter (fun row => negb (displayNone row)) rows)
       = Nat.min (length authorList) 25
    /\ ((25 < length authorList)%nat ->
        button = Some (ShowAllAuthors (length authorList)))
    /\ ((length authorList <= 25)%nat -> button = None).
Proof.
  intros Hne. destruct authorList as [|a l]; [congruence|].
  set (authorList := a :: l). unfold rankingView. fold authorList.
  eexists _, _. split; [reflexivity|]. split; [apply authorRows_authors|].
  unfold INITIAL_LIMIT. split; [|split; [|split]].
  - intros i row Hi. pose proof (nth_error_Some (authorRows
      (length authorList <=? 25)%nat 0 authorList) i) as Hlen.
    rewrite Hi, length_authorRows in Hlen.
    assert (Hlt : (i < length authorList)%nat) by (apply Hlen; discriminate).
    apply authorRows_nth in Hi. destruct Hi as [E D]. split; [exact E|].
    rewrite D.
    unfold INITIAL_LIMIT. simpl Nat.add.
    destruct (Nat.leb_spec (length authorList) 25),
      (Nat.leb_spec 25 i); simpl; split; intros; try lia; try discriminate;
      reflexivity.
  - destruct (Nat.leb_spec (length authorList) 25).
    + rewrite authorRows_all_shown, length_authorRows. lia.
    + rewrite authorRows_shown. unfold INITIAL_LIMIT. lia.
  - intros H. destruct (Nat.ltb_spec 25 (length authorList)); [reflexivity|lia].
  - intros H. destruct (Nat.ltb_spec 25 (length authorList)); [lia|reflexivity].
Qed.

(** X11.  On a list rendered with more than 25 authors and not yet
    expanded, the toggle shows every row and turns the button into "Show
    less"; a second toggle gives back the list exactly as it was rendered,
    the button reading "Show all n authors" again. *)
Theorem X11_toggle_round_trip authorList :
  (25 < length authorList)%nat ->
  exists rows,
    toggleList false (rankingView authorList)
    = (Normal tt, (true, AuthorsList rows (Some ShowLess)))
    /\ List.map row_author rows = authorList
    /\ (forall row, In row rows -> displayNone row = false)
    /\ toggleList true (AuthorsList rows (Some ShowLess))
       = (Normal tt, (false, rankingView authorList)).
Proof.
  intros H. rewrite (@rankingView_long authorList H).
  exists (List.map (setDisplay true) (authorRows false 0 authorList)).
  assert (F : forall row, In row (authorRows false 0 authorList) ->
                          hiddenClass row = displayNone row)
    by (intros row; apply authorRows_fresh).
  split; [reflexivity|].
  split; [rewrite setDisplay_author; apply authorRows_authors|].
  split; [intros row; apply setDisplay_shown, F|].
  unfold toggleList. simpl negb. cbv iota beta zeta.
  rewrite (setDisplay_back _ F), setDisplay_hidden, length_map.
  rewrite authorRows_hidden. unfold INITIAL_LIMIT in *.
  replace (length authorList - (25 - 0) + 25)%nat with (length authorList)
    by lia.
  reflexivity.
Qed.
(** * The page *)

Lemma applyFilters_In allPapers v f t p :
  In p (applyFilters allPapers v f t) -> In p allPapers.
Proof.
  unfold applyFilters.
  destruct (negb (jsstring_eqb v (js "all"))), f, t; simpl; intros H;
    repeat (apply filter_In in H; destruct H as [H _]); exact H.
Qed.

Lemma inherited_credit_dec (names : Paper -> list jsstring) papers :
  (forall p n, In p papers -> In n (names p) -> inherited n = false)
  \/ (exists p n, In p papers /\ In n (names p) /\ inherited n = true).
Proof.
  destruct (existsb (fun p => existsb inherited (names p)) papers) eqn:E.
  - right. apply existsb_exists in E. destruct E as [p [Hp E]].
    apply existsb_exists in E. destruct E as [n [Hn E]]. eauto.
  - left. intros p n Hp Hn. destruct (inherited n) eqn:I; [|reflexivity].
    assert (T : existsb (fun p => existsb inherited (names p)) papers = true).
    { apply existsb_exists. exists p. split; [exact Hp|].
      apply existsb_exists. eauto. }
    congruence.
Qed.

Lemma renderPapers_not_error papers :
  renderPapers papers <> Normal ErrorLoadingPapers.
Proof.
  destruct papers as [|p papers]; [discriminate|].
  destruct (@renderPapers_sections (p :: papers)) as [ys [H _]];
    [discriminate|]. rewrite H. discriminate.
Qed.

Section PageFacts.
Variable localeCompare : jsstring -> jsstring -> Z.

Lemma completes_on_part names papers papers' :
  (forall p, In p papers' -> In p papers) ->
  (exists es, ranking localeCompare names papers = Normal es) ->
  exists es, ranking localeCompare names papers' = Normal es.
Proof.
  intros Sub H. apply ranking_Normal_iff. intros p n Hp Hn.
  apply (proj1 (ranking_Normal_iff localeCompare names papers) H p n); auto.
Qed.

Lemma first_completes papers :
  (exists es, renderAuthorsRanking localeCompare papers = Normal es) ->
  exists es, renderFirstAuthorsRanking localeCompare papers = Normal es.
Proof.
  rewrite renderAuthorsRanking_eq. intros H.
  destruct (proj2 (ranking_Normal_iff localeCompare namesFirst papers))
    as [es Hes].
  - intros p n Hp Hn.
    apply (proj1 (ranking_Normal_iff localeCompare namesAll papers) H p n Hp).
    apply namesFirst_namesAll, Hn.
  - exists es. rewrite renderFirstAuthorsRanking_eq. exact Hes.
Qed.

Lemma throws_inherited papers :
  renderAuthorsRanking localeCompare papers = ThrowTypeError
  <-> exists p n, In p papers /\ In n (namesAll p) /\ inherited n = true.
Proof.
  split.
  - intros T. destruct (inherited_credit_dec namesAll papers) as [F|E];
      [|exact E].
    apply (ranking_Normal_iff localeCompare) in F. destruct F as [es F].
    rewrite <- renderAuthorsRanking_eq in F. congruence.
  - intros [p [n [Hp [Hn I]]]].
    apply (@render_throws localeCompare ALL_AUTHORS papers p n Hp Hn I).
Qed.

Lemma renderAll_completes papers pg :
  (exists es, renderAuthorsRanking localeCompare papers = Normal es) ->
  exists pg',
    renderAll localeCompare papers pg = (Normal tt, pg')
    /\ Shows localeCompare pg' papers
    /\ SameGlobals pg pg'.
Proof.
  intros HA. destruct (@first_completes papers HA) as [esF HF].
  destruct HA as [esA HA]. destruct (renderPapers_Normal papers) as [view HP].
  unfold renderAll, andThen, showPapers, showAuthorsRanking,
    showFirstAuthorsRanking. rewrite HP, HA, HF.
  eexists. split; [reflexivity|]. split.
  - split; [|split]; eexists; (split; [eassumption | reflexivity]).
  - repeat split.
Qed.

Lemma renderAll_throws papers pg :
  renderAuthorsRanking localeCompare papers = ThrowTypeError ->
  exists view,
    renderPapers papers = Normal view
    /\ renderAll localeCompare papers pg
       = (ThrowTypeError, setPapersContainer pg view).
Proof.
  intros T. destruct (renderPapers_Normal papers) as [view HP].
  exists view. split; [exact HP|].
  unfold renderAll, andThen, showPapers, showAuthorsRanking.
  rewrite HP, T. reflexivity.
Qed.

(** What [loadPapers] leaves behind, by the way it ends. *)
Lemma loadPage_cases response pg pg' :
  loadPage localeCompare response pg = pg' ->
  (response = Rejected
   /\ pg' = setPapersContainer pg ErrorLoadingPapers)
  \/ (exists papers p n,
        response = Fetched papers
        /\ In p papers /\ In n (namesAll p) /\ inherited n = true
        /\ papersContainer pg' = Some ErrorLoadingPapers
        /\ authorsContainer pg' = authorsContainer pg
        /\ firstAuthorsContainer pg' = firstAuthorsContainer pg
        /\ listening pg' = listening pg)
  \/ (exists papers,
        response = Fetched papers
        /\ (forall p n, In p papers -> In n (namesAll p) ->
              inherited n = false)
        /\ range pg' = loadPapers (range pg) papers
        /\ allPapers pg' = papers
        /\ currentVenue pg' = currentVenue pg
        /\ authorsExpanded pg' = authorsExpanded pg
        /\ firstAuthorsExpanded pg' = firstAuthorsExpanded pg
        /\ listening pg' = true
        /\ Shows localeCompare pg' papers).
Proof.
  destruct response as [papers|]; simpl.
  - set (r := loadPapers (range pg) papers).
    destruct (renderAuthorsRanking localeCompare papers) as [es|] eqn:A.
    + destruct (@renderAll_completes papers
                  (setRange (setAllPapers pg papers) r)
                  (ex_intro _ es A)) as [pg1 [R [S G]]].
      rewrite R. intros <-. right. right. exists papers.
      destruct G as [G1 [G2 [G3 [G4 [G5 G6]]]]].
      split; [reflexivity|]. split.
      { apply (ranking_Normal_iff localeCompare namesAll papers).
        exists es. rewrite <- renderAuthorsRanking_eq. exact A. }
      simpl. rewrite G1, G2, G3, G4, G5.
      repeat (split; [reflexivity|]). exact S.
    + destruct (@renderAll_throws papers
                  (setRange (setAllPapers pg papers) r) A) as [view [_ R]].
      rewrite R. intros <-. right. left.
      apply throws_inherited in A. destruct A as [p [n [Hp [Hn I]]]].
      exists papers, p, n. simpl. repeat split; assumption.
  - intros <-. left. split; reflexivity.
Qed.
End PageFacts.

Lemma loadPapers_keeps_all s papers :
  applyFilters papers (js "all") (yearFrom (loadPapers s papers))
               (yearTo (loadPapers s papers)) = papers.
Proof.
  destruct papers as [|p0 papers]; [apply applyFilters_nil|].
  destruct (@loadPapers_encloses s (p0 :: papers)) as [lo [hi [A [B Enc]]]];
    [discriminate|].
  destruct (loadPapers_full s (p0 :: papers)) as [-> ->].
  rewrite A, B. apply applyFilters_full_range, Enc.
Qed.

Section PageRuns.
Variable localeCompare : jsstring -> jsstring -> Z.

Lemma loadPage_Live papers pg pg0 :
  loadPage localeCompare (Fetched papers) pg = pg0 ->
  currentVenue pg = js "all" ->
  papersContainer pg0 <> Some ErrorLoadingPapers ->
  Live localeCompare pg0
  /\ allPapers pg0 = papers
  /\ range pg0 = loadPapers (range pg) papers.
Proof.
  intros L V NE.
  destruct (@loadPage_cases localeCompare _ _ _ L)
    as [[R _]|[[ps [p [n [_ [_ [_ [_ [E _]]]]]]]]|[ps C]]];
    [discriminate | contradiction |].
  destruct C as [[= <-] [_ [Er [Ea [Ev [_ [_ [Li S]]]]]]]].
  split; [|split; [exact Ea | exact Er]]. split; [exact Li|]. split.
  { rewrite Ea. destruct S as [_ [[es [H _]] _]]. eauto. }
  rewrite Ea, Ev, V, Er, loadPapers_keeps_all. exact S.
Qed.

Lemma applyFiltersAndShow_Live pg :
  listening pg = true ->
  (exists es, renderAuthorsRanking localeCompare (allPapers pg) = Normal es) ->
  exists pg',
    applyFiltersAndShow localeCompare pg = (Normal tt, pg')
    /\ Live localeCompare pg'
    /\ SameGlobals pg pg'.
Proof.
  intros Li HA. unfold applyFiltersAndShow.
  set (filtered := applyFilters (allPapers pg) (currentVenue pg)
                     (yearFrom (range pg)) (yearTo (range pg))).
  destruct (@renderAll_completes localeCompare filtered pg)
    as [pg' [R [S G]]].
  { destruct HA as [es HA]. rewrite renderAuthorsRanking_eq in HA.
    destruct (@completes_on_part localeCompare namesAll (allPapers pg)
                filtered) as [es' H'].
    - intros p. apply applyFilters_In.
    - eauto.
    - exists es'. rewrite renderAuthorsRanking_eq. exact H'. }
  exists pg'. split; [exact R|]. split; [|exact G].
  destruct G as [G1 [G2 [G3 [G4 [G5 G6]]]]].
  unfold Live. rewrite G1, G2, G3, G6. auto.
Qed.

Lemma handlePage_Live e pg :
  Live localeCompare pg ->
  exists pg',
    handlePage localeCompare e pg = (Normal tt, pg')
    /\ Live localeCompare pg'
    /\ allPapers pg' = allPapers pg
    /\ (forall lo hi, InRangeOf lo hi (range pg) ->
                      InRangeOf lo hi (range pg')).
Proof.
  intros [Li [HA S]]. unfold handlePage. rewrite Li.
  destruct e as [v|ev].
  - destruct (@applyFiltersAndShow_Live (setCurrentVenue pg v))
      as [pg' [R [L G]]]; try assumption.
    exists pg'. split; [exact R|]. split; [exact L|].
    destruct G as [G1 [G2 _]]. rewrite G1, G2. auto.
  - destruct (@applyFiltersAndShow_Live (setRange pg (handle (range pg) ev)))
      as [pg' [R [L G]]]; try assumption.
    exists pg'. split; [exact R|]. split; [exact L|].
    destruct G as [G1 [G2 _]]. rewrite G1, G2. simpl.
    split; [reflexivity|]. intros lo hi. apply handle_InRange.
Qed.

Lemma handleAllPage_Live events : forall pg,
  Live localeCompare pg ->
  exists pg',
    handleAllPage localeCompare events pg
    = (List.map (fun _ => Normal tt) events, pg')
    /\ Live localeCompare pg'
    /\ allPapers pg' = allPapers pg
    /\ (forall lo hi, InRangeOf lo hi (range pg) ->
                      InRangeOf lo hi (range pg')).
Proof.
  induction events as [|e events IH]; intros pg L; simpl.
  - exists pg. auto.
  - destruct (@handlePage_Live e pg L) as [pg1 [R [L1 [A1 B1]]]].
    rewrite R. destruct (IH pg1 L1) as [pg2 [R2 [L2 [A2 B2]]]].
    rewrite R2. exists pg2. split; [reflexivity|]. split; [exact L2|].
    rewrite A2. auto.
Qed.

Lemma handlePage_idle e pg :
  listening pg = false ->
  exists pg',
    handlePage localeCompare e pg = (Normal tt, pg')
    /\ listening pg' = false
    /\ papersContainer pg' = papersContainer pg
    /\ authorsContainer pg' = authorsContainer pg
    /\ firstAuthorsContainer pg' = firstAuthorsContainer pg.
Proof.
  intros Li. unfold handlePage. rewrite Li.
  destruct e as [v|ev]; eexists; (split; [reflexivity|]); simpl; auto.
Qed.

Lemma handleAllPage_idle events : forall pg,
  listening pg = false ->
  exists pg',
    handleAllPage localeCompare events pg
    = (List.map (fun _ => Normal tt) events, pg')
    /\ listening pg' = false
    /\ papersContainer pg' = papersContainer pg
    /\ authorsContainer pg' = authorsContainer pg
    /\ firstAuthorsContainer pg' = firstAuthorsContainer pg.
Proof.
  induction events as [|e events IH]; intros pg L; simpl.
  - exists pg. auto.
  - destruct (@handlePage_idle e pg L) as [pg1 [R [L1 [A1 [B1 C1]]]]].
    rewrite R. destruct (IH pg1 L1) as [pg2 [R2 [L2 [A2 [B2 C2]]]]].
    rewrite R2. exists pg2. split; [reflexivity|].
    rewrite A2, B2, C2. auto.
Qed.

Lemma renderAll_flags papers pg :
  authorsExpanded (snd (renderAll localeCompare papers pg))
  = authorsExpanded pg.
Proof.
  unfold renderAll, andThen, showPapers, showAuthorsRanking,
    showFirstAuthorsRanking.
  destruct (renderPapers papers); [|reflexivity].
  destruct (renderAuthorsRanking localeCompare papers); [|reflexivity].
  destruct (renderFirstAuthorsRanking localeCompare papers); reflexivity.
Qed.

Lemma handlePage_flags e pg :
  authorsExpanded (snd (handlePage localeCompare e pg)) = authorsExpanded pg.
Proof.
  unfold handlePage, applyFiltersAndShow.
  destruct (listening pg), e; try reflexivity; rewrite renderAll_flags;
    reflexivity.
Qed.

(** X12.  The expanded flag of the author list outlives a filter event.
    When the list is expanded and an event has just rendered a list with
    more than 25 authors, the next click on its button changes nothing on
    the page but the flag: the entries from the 26th on stay hidden and the
    button still reads "Show all n authors". *)
Theorem X12_toggle_after_rerender e pg authorList :
  authorsExpanded pg = true ->
  authorsContainer (snd (handlePage localeCompare e pg))
  = Some (rankingView authorList) ->
  (25 < length authorList)%nat ->
  exists pg',
    toggleAuthorsList (snd (handlePage localeCompare e pg)) = (Normal tt, pg')
    /\ authorsExpanded pg' = false
    /\ authorsContainer pg' = Some (rankingView authorList)
    /\ papersContainer pg'
       = papersContainer (snd (handlePage localeCompare e pg))
    /\ firstAuthorsContainer pg'
       = firstAuthorsContainer (snd (handlePage localeCompare e pg)).
Proof.
  intros F V Hn. pose proof (handlePage_flags e pg) as Fl. rewrite F in Fl.
  unfold toggleAuthorsList. rewrite V, Fl, (@toggleList_stale authorList Hn).
  eexists. split; [reflexivity|]. simpl. auto.
Qed.

(** X13.  [loadPapers] ends with the error message in the papers container
    exactly when the request is rejected or some author record of the
    collection bears, as its name, the name of a property of
    [Object.prototype].  It then leaves the two ranking containers and the
    listeners as they were; otherwise the listeners are installed and the
    three containers show the whole collection. *)
Theorem X13_load_outcome response pg pg' :
  loadPage localeCompare response pg = pg' ->
  (papersContainer pg' = Some ErrorLoadingPapers
   <-> (response = Rejected
        \/ exists papers p n,
             response = Fetched papers
             /\ In p papers /\ In n (namesAll p) /\ inherited n = true))
  /\ (papersContainer pg' = Some ErrorLoadingPapers ->
      listening pg' = listening pg
      /\ authorsContainer pg' = authorsContainer pg
      /\ firstAuthorsContainer pg' = firstAuthorsContainer pg)
  /\ (papersContainer pg' <> Some ErrorLoadingPapers ->
      exists papers,
        response = Fetched papers
        /\ allPapers pg' = papers
        /\ listening pg' = true
        /\ Shows localeCompare pg' papers).
Proof.
  intros L.
  destruct (@loadPage_cases localeCompare _ _ _ L)
    as [[R ->]|[[ps [p [n [R [Hp [Hn [I [E [A [F Li]]]]]]]]]]|[ps C]]].
  - simpl. split; [tauto|]. split; [auto|]. intros H. congruence.
  - split; [split; [|auto]; intros _; right; eauto 10|].
    split; [auto|]. intros H. contradiction.
  - destruct C as [R [NI [_ [Ea [_ [_ [_ [Li S]]]]]]]].
    assert (NE : papersContainer pg' <> Some ErrorLoadingPapers).
    { destruct S as [[view [HP ->]] _]. intros [= ->].
      apply (@renderPapers_not_error ps HP). }
    split; [|split].
    + split; [contradiction|]. intros [R'|[ps' [p [n [R' [Hp [Hn I]]]]]]];
        [congruence|].
      rewrite R in R'. injection R' as <-.
      rewrite (NI p n Hp Hn) in I. discriminate.
    + intros H. contradiction.
    + intros _. exists ps. auto.
Qed.

(** X14.  After the load of a collection, with or without papers, that did
    not end with the error message - the venue being "all" as the script
    declares it, the years being safe integers - every filter event is
    handled without an exception, the collection stays the loaded one, and
    the three containers show exactly what [applyFilters] selects for the
    venue and the bounds of the moment.  When the collection has a paper,
    the bounds are two integers in order within the range of the
    collection, and the containers show the papers of the venue with a year
    between them. *)
Theorem X14_containers_follow_filters papers pg pg0 events :
  loadPage localeCompare (Fetched papers) pg = pg0 ->
  currentVenue pg = js "all" ->
  SafeYears papers ->
  papersContainer pg0 <> Some ErrorLoadingPapers ->
  exists pg',
    handleAllPage localeCompare events pg0
    = (List.map (fun _ => Normal tt) events, pg')
    /\ allPapers pg' = papers
    /\ Shows localeCompare pg'
         (applyFilters papers (currentVenue pg')
                       (yearFrom (range pg')) (yearTo (range pg')))
    /\ (papers <> [] ->
        exists lo hi f t,
          minYear (range pg0) = Fin lo /\ maxYear (range pg0) = Fin hi
          /\ yearFrom (range pg') = Some (Fin f)
          /\ yearTo (range pg') = Some (Fin t)
          /\ lo <= f /\ f <= t /\ t <= hi
          /\ Shows localeCompare pg'
               (List.filter (keeps (currentVenue pg') f t) papers)).
Proof.
  intros L V _ NE.
  destruct (@loadPage_Live papers pg pg0 L V NE) as [L0 [A0 R0]].
  destruct (@handleAllPage_Live events pg0 L0) as [pg' [R [L' [A' I']]]].
  exists pg'. split; [exact R|]. split; [congruence|].
  destruct L' as [_ [_ S]]. rewrite A', A0 in S. split; [exact S|].
  intros Hne.
  destruct (@loadPapers_InRange (range pg) papers Hne) as [lo [hi IR]].
  rewrite <- R0 in IR. pose proof IR as [A [B _]].
  destruct (I' lo hi IR) as [_ [_ [_ [_ [_ [_ [E [F [G [H K]]]]]]]]]].
  exists lo, hi, (slider_value (sliderFrom (range pg'))),
         (slider_value (sliderTo (range pg'))).
  split; [exact A|]. split; [exact B|]. split; [exact E|].
  split; [exact F|]. split; [exact G|]. split; [exact H|].
  split; [exact K|].
  rewrite E, F, applyFilters_filter in S. exact S.
Qed.

(** X15.  After a load that ended with the error message, on a page whose
    listeners were not installed before, no filter event changes what the
    containers show: the message stays and the rankings stay as the HTML
    has them. *)
Theorem X15_failed_load_is_final response pg pg0 events :
  loadPage localeCompare response pg = pg0 ->
  listening pg = false ->
  papersContainer pg0 = Some ErrorLoadingPapers ->
  exists pg',
    handleAllPage localeCompare events pg0
    = (List.map (fun _ => Normal tt) events, pg')
    /\ papersContainer pg' = Some ErrorLoadingPapers
    /\ authorsContainer pg' = authorsContainer pg
    /\ firstAuthorsContainer pg' = firstAuthorsContainer pg
    /\ listening pg' = false.
Proof.
  intros L Li E.
  assert (K : listening pg0 = false
              /\ authorsContainer pg0 = authorsContainer pg
              /\ firstAuthorsContainer pg0 = firstAuthorsContainer pg).
  { destruct (@loadPage_cases localeCompare _ _ _ L)
      as [[R ->]|[[ps [p [n [R [Hp [Hn [I [_ [A [F Li']]]]]]]]]]|[ps C]]].
    - simpl. auto.
    - rewrite Li', Li. auto.
    - destruct C as [_ [_ [_ [_ [_ [_ [_ [_ S]]]]]]]].
      destruct S as [[view [HP Ev]] _]. rewrite Ev in E. injection E as ->.
      destruct (@renderPapers_not_error ps HP). }
  destruct K as [K1 [K2 K3]].
  destruct (@handleAllPage_idle events pg0 K1) as [pg' [R [L' [P [A F]]]]].
  exists pg'. split; [exact R|]. rewrite P, A, F, E, K2, K3. auto.
Qed.
End PageRuns.
(** * The authors line *)

Lemma join_nil_iff separator c (l : list (option jsstring)) :
  join (c :: separator) l = []
  <-> l = [] \/ l = [None] \/ l = [Some []].
Proof.
  split.
  - destruct l as [|x [|y l]]; simpl; [auto| |].
    + destruct x as [[|d s]|]; auto; discriminate.
    + destruct x as [[|d s]|]; simpl; discriminate.
  - intros [->|[->| ->]]; reflexivity.
Qed.

Lemma formatAuthor_empty (a : Author) :
  (formatAuthor a = None \/ formatAuthor a = Some [])
  <-> truthy (institution a) = false /\ truthy (name a) = false.
Proof.
  unfold formatAuthor. destruct (truthy (institution a)).
  - split; [|intros [H _]; discriminate]. intros [H|H]; [discriminate|].
    injection H as H. apply app_eq_nil in H. destruct H as [_ H].
    discriminate.
  - destruct (name a) as [[|c s]|]; simpl;
      (split; [intros [H|H]; (discriminate || auto)
              | intros [_ H]; (discriminate || auto)]).
Qed.

Lemma formatted_nil (a : Author) (l : list Author) :
  join (js ", ") (List.map formatAuthor (a :: l)) = []
  <-> l = [] /\ truthy (institution a) = false /\ truthy (name a) = false.
Proof.
  change (js ", ") with (44%N :: [32%N]).
  rewrite join_nil_iff, <- formatAuthor_empty. simpl. split.
  - intros [H|[H|H]]; [discriminate| |]; injection H as H1 H2;
      apply map_eq_nil in H2; auto.
  - intros [-> [H|H]]; rewrite H; auto.
Qed.

Lemma truthy_credit (a : Author) :
  truthy (name a) = false -> truthyName a = [].
Proof.
  unfold truthy, truthyName. destruct (name a) as [[|c s]|];
    [reflexivity | discriminate | reflexivity].
Qed.

(** X16.  [formatAuthors] gives the empty string - and [renderPaper] then
    leaves the authors paragraph out - exactly when the authors are not an
    array, or an empty one, or one single record without institution and
    without name.  No ranking credits anybody for such a paper. *)
Theorem X16_authors_line_empty (p : Paper) :
  (formatAuthors (authors p) = []
   <-> (authors p = AuthorsMissing
        \/ (exists s, authors p = AuthorsText s)
        \/ authors p = AuthorsArray []
        \/ exists a, authors p = AuthorsArray [a]
                     /\ truthy (institution a) = false
                     /\ truthy (name a) = false))
  /\ (formatAuthors (authors p) = [] ->
      namesAll p = [] /\ namesFirst p = []).
Proof.
  unfold namesAll, namesFirst, formatAuthors.
  destruct (authors p) as [|s|[|a l]].
  - split; [|auto]. split; auto.
  - split; [|auto]. split; eauto.
  - split; [|auto]. split; auto.
  - rewrite formatted_nil. split.
    + split.
      * intros [-> [I N]]. right. right. right. exists a. auto.
      * intros [H|[[s H]|[H|[b [H [I N]]]]]]; try discriminate.
        injection H as -> ->. auto.
    + intros [-> [_ N]]. simpl. rewrite (truthy_credit _ N). auto.
Qed.

(** * Tabs and the URL hash *)

Lemma stripPrefix_Some pattern : forall s rest,
  stripPrefix pattern s = Some rest <-> s = pattern ++ rest.
Proof.
  induction pattern as [|p pattern IH]; intros s rest; simpl.
  - split; [intros [= ->]; reflexivity | intros ->; reflexivity].
  - destruct s as [|c s]; [split; discriminate|].
    destruct (N.eqb_spec p c) as [->|NE].
    + rewrite IH. split; [intros ->; reflexivity | intros [= ->]; reflexivity].
    + split; [discriminate|]. intros [= -> _]. contradiction.
Qed.

Lemma removeFirst_head pattern rest :
  removeFirst pattern (pattern ++ rest) = rest.
Proof.
  assert (E : stripPrefix pattern (pattern ++ rest) = Some rest)
    by (apply stripPrefix_Some; reflexivity).
  destruct (pattern ++ rest); simpl; rewrite E; reflexivity.
Qed.

Lemma removeFirst_step pattern c s :
  stripPrefix pattern (c :: s) = None ->
  removeFirst pattern (c :: s) = c :: removeFirst pattern s.
Proof. intros H. simpl removeFirst at 1. rewrite H. reflexivity. Qed.

(** The suffix "-pane" is what [replace] takes out of a name that does
    not contain "-pane" itself. *)
Lemma removeFirst_pane (n : jsstring) :
  ~ Occurs (js "-pane") n ->
  removeFirst (js "-pane") (n ++ js "-pane") = n.
Proof.
  induction n as [|c n IH]; intros H; [reflexivity|].
  change ((c :: n) ++ js "-pane") with (c :: (n ++ js "-pane")).
  rewrite removeFirst_step.
  - rewrite IH; [reflexivity|]. intros [pre [post E]]. apply H.
    exists (c :: pre), post. rewrite E. reflexivity.
  - destruct (stripPrefix (js "-pane") (c :: n ++ js "-pane")) as [rest|] eqn:E;
      [|reflexivity].
    exfalso. apply stripPrefix_Some in E.
    destruct n as [|c1 [|c2 [|c3 [|c4 n]]]]; try discriminate E.
    apply H. injection E as -> -> -> -> -> _.
    exists [], n. reflexivity.
Qed.

(** X17.  The hash written when a tab is shown selects the same tab when
    it is read: for a tab named [n] - its button has the id [n-tab] and the
    target [#n-pane] - with [n] not containing "-pane", the listener writes
    [#n], and [initTabFromHash] looks up [n-tab] for that hash. *)
Theorem X17_tab_hash_round_trip (n : jsstring) :
  ~ Occurs (js "-pane") n ->
  shownTabUrl (js "#" ++ n ++ js "-pane") = js "#" ++ n
  /\ initTabFromHash (shownTabUrl (js "#" ++ n ++ js "-pane"))
     = Some (n ++ js "-tab").
Proof.
  intros H.
  assert (E : shownTabUrl (js "#" ++ n ++ js "-pane") = js "#" ++ n).
  { unfold shownTabUrl. rewrite removeFirst_head, (removeFirst_pane H).
    reflexivity. }
  split; [exact E|]. rewrite E.
  pose proof (removeFirst_head (js "#") n) as R.
  change (js "#" ++ n) with (35%N :: n) in *.
  unfold initTabFromHash. rewrite R. reflexivity.
Qed.
(** * The further properties at work on sample data *)

Lemma X1_witness :
  exists es,
    render codeUnitCompare ALL_AUTHORS scenario = Normal es
    /\ ((exists e, In e es /\ entry_name e = js "Bob Lee")
        <-> exists p, In p scenario
                      /\ In (js "Bob Lee") (selected ALL_AUTHORS p)).
Proof.
  pose (es := valueOr [] (render codeUnitCompare ALL_AUTHORS scenario)).
  assert (H : render codeUnitCompare ALL_AUTHORS scenario = Normal es)
    by (vm_compute; reflexivity).
  exists es. split; [exact H|].
  apply (@X1_entries_are_the_credited_names codeUnitCompare ALL_AUTHORS
           scenario es (js "Bob Lee") H).
Defined.

Lemma X2_witness :
  exists es e,
    render codeUnitCompare ALL_AUTHORS rankSample = Normal es
    /\ nth_error es 3 = Some e
    /\ entry_name e = js "D Dd"
    /\ count e = 3%nat
    /\ rank e = Some 2%nat
    /\ count e = length (entry_papers e)
    /\ (1 <= count e)%nat
    /\ exists k, rank e = Some k /\ (1 <= k <= 4)%nat.
Proof.
  pose (es := valueOr [] (render codeUnitCompare ALL_AUTHORS rankSample)).
  pose (e := nth 3 es (mkEntry [] [] 0 None)).
  assert (H : render codeUnitCompare ALL_AUTHORS rankSample = Normal es)
    by (vm_compute; reflexivity).
  assert (He : nth_error es 3 = Some e) by (vm_compute; reflexivity).
  exists es, e. split; [exact H|]. split; [exact He|].
  split; [vm_compute; reflexivity|]. split; [vm_compute; reflexivity|].
  split; [vm_compute; reflexivity|].
  apply (@X2_count_and_rank_bounds codeUnitCompare ALL_AUTHORS rankSample es
           3%nat e H He).
Defined.

Lemma X3_witness :
  exists es,
    render codeUnitCompare ALL_AUTHORS rankSample = Normal es
    /\ list_sum (List.map (@count _) es) = 20%nat
    /\ list_sum (List.map (@count _) es)
       = list_sum (List.map (fun p => length (selected ALL_AUTHORS p))
                            rankSample).
Proof.
  pose (es := valueOr [] (render codeUnitCompare ALL_AUTHORS rankSample)).
  assert (H : render codeUnitCompare ALL_AUTHORS rankSample = Normal es)
    by (vm_compute; reflexivity).
  exists es. split; [exact H|]. split; [vm_compute; reflexivity|].
  apply (@X3_counts_add_up codeUnitCompare ALL_AUTHORS rankSample es H).
Defined.

Lemma X4_witness :
  exists es a b,
    render codeUnitCompare ALL_AUTHORS rankSample = Normal es
    /\ In a es /\ In b es
    /\ (entry_name a, count a, rank a) = (js "B Bb", 5%nat, Some 1%nat)
    /\ (entry_name b, count b, rank b) = (js "F Ff", 1%nat, Some 3%nat)
    /\ exists ra rb, rank a = Some ra /\ rank b = Some rb
         /\ (ra = rb <-> count a = count b)
         /\ ((ra < rb)%nat <-> (count b < count a)%nat).
Proof.
  pose (es := valueOr [] (render codeUnitCompare ALL_AUTHORS rankSample)).
  pose (a := nth 1 es (mkEntry [] [] 0 None)).
  pose (b := nth 5 es (mkEntry [] [] 0 None)).
  assert (H : render codeUnitCompare ALL_AUTHORS rankSample = Normal es)
    by (vm_compute; reflexivity).
  assert (Ha : In a es)
    by (apply (nth_error_In es 1); vm_compute; reflexivity).
  assert (Hb : In b es)
    by (apply (nth_error_In es 5); vm_compute; reflexivity).
  exists es, a, b. split; [exact H|]. split; [exact Ha|]. split; [exact Hb|].
  split; [vm_compute; reflexivity|]. split; [vm_compute; reflexivity|].
  apply (@X4_rank_follows_count codeUnitCompare ALL_AUTHORS rankSample es a b
           H Ha Hb).
Defined.

Lemma X5_witness :
  exists esA,
    renderAuthorsRanking codeUnitCompare scenario = Normal esA
    /\ List.map (fun e => (entry_name e, count e)) esA
       = [(js "Alice Smith", 2%nat); (js "Bob Lee", 1%nat)]
    /\ exists esF,
         renderFirstAuthorsRanking codeUnitCompare scenario = Normal esF
         /\ (forall X, (creditedCount X esF <= creditedCount X esA)%nat)
         /\ forall eF, In eF esF ->
              exists eA, In eA esA /\ entry_name eA = entry_name eF
                /\ (count eF <= count eA)%nat
                /\ incl (entry_papers eF) (entry_papers eA).
Proof.
  pose (esA := valueOr [] (renderAuthorsRanking codeUnitCompare scenario)).
  assert (H : renderAuthorsRanking codeUnitCompare scenario = Normal esA)
    by (vm_compute; reflexivity).
  exists esA. split; [exact H|]. split; [vm_compute; reflexivity|].
  apply (@X5_first_author_within_all codeUnitCompare scenario esA H).
Defined.

Lemma X6_witness :
  exists esA,
    render codeUnitCompare ALL_AUTHORS scenario = Normal esA
    /\ List.map (fun e => (entry_name e, count e)) esA
       = [(js "Alice Smith", 2%nat); (js "Bob Lee", 1%nat)]
    /\ exists esF,
         render codeUnitCompare ALL_AUTHORS
           (applyFilters scenario (js "CCS") (Some (Fin 2020))
                         (Some (Fin 2021)))
         = Normal esF
         /\ (forall eF, In eF esF ->
               exists eA, In eA esA /\ entry_name eA = entry_name eF
                 /\ entry_papers eF
                    = List.filter (keeps (js "CCS") 2020 2021)
                                  (entry_papers eA)
                 /\ (count eF <= count eA)%nat)
         /\ (forall eA, In eA esA ->
               List.filter (keeps (js "CCS") 2020 2021) (entry_papers eA)
               <> [] ->
               exists eF, In eF esF /\ entry_name eF = entry_name eA).
Proof.
  pose (esA := valueOr [] (render codeUnitCompare ALL_AUTHORS scenario)).
  assert (H : render codeUnitCompare ALL_AUTHORS scenario = Normal esA)
    by (vm_compute; reflexivity).
  exists esA. split; [exact H|]. split; [vm_compute; reflexivity|].
  apply (@X6_ranking_of_filtered codeUnitCompare ALL_AUTHORS scenario
           (js "CCS") 2020 2021 esA H).
Defined.

Lemma X7_witness :
  (js "all" = js "all" \/ js "all" = js "CCS")
  /\ 2019 <= 2020 /\ 2020 <= 2022
  /\ applyFilters
       (applyFilters scenario (js "all") (Some (Fin 2019)) (Some (Fin 2022)))
       (js "CCS") (Some (Fin 2020)) (Some (Fin 2020)) = [paperP1]
  /\ applyFilters scenario (js "CCS") (Some (Fin 2020)) (Some (Fin 2020))
     = [paperP1]
  /\ Subseq
       (applyFilters scenario (js "CCS") (Some (Fin 2020)) (Some (Fin 2020)))
       (applyFilters scenario (js "all") (Some (Fin 2019)) (Some (Fin 2022))).
Proof.
  assert (Hw : js "all" = js "all" \/ js "all" = js "CCS")
    by (left; reflexivity).
  assert (Hf : 2019 <= 2020) by lia.
  assert (Ht : 2020 <= 2022) by lia.
  split; [exact Hw|]. split; [exact Hf|]. split; [exact Ht|].
  split; [vm_compute; reflexivity|]. split; [vm_compute; reflexivity|].
  apply (@X7_filter_of_filtered scenario (js "all") (js "CCS")
           2019 2022 2020 2020 Hw Hf Ht).
Defined.

Lemma X8_witness :
  exists s0,
    loadPapers pageAtStart scenario = s0
    /\ (yearFrom s0, yearTo s0) = (Some (Fin 2020), Some (Fin 2021))
    /\ (yearFrom (handle (handleAll [DragFrom 2021] s0) ClickReset),
        yearTo (handle (handleAll [DragFrom 2021] s0) ClickReset))
       = (Some (Fin 2020), Some (Fin 2021))
    /\ applyFilters scenario (js "all")
         (yearFrom (handleAll [DragFrom 2021] s0))
         (yearTo (handleAll [DragFrom 2021] s0)) = [paperP2]
    /\ applyFilters scenario (js "all") (yearFrom s0) (yearTo s0) = scenario
    /\ applyFilters scenario (js "all")
         (yearFrom (handle (handleAll [DragFrom 2021] s0) ClickReset))
         (yearTo (handle (handleAll [DragFrom 2021] s0) ClickReset))
       = scenario.
Proof.
  pose (s0 := initYearSlider
                (mkYearRange None None (Fin 2020) (Fin 2021)
                             (mkSlider (Fin 0) (Fin 100) 50)
                             (mkSlider (Fin 0) (Fin 100) 50))).
  assert (H : loadPapers pageAtStart scenario = s0) by reflexivity.
  exists s0. split; [exact H|]. split; [reflexivity|].
  split; [reflexivity|]. split; [vm_compute; reflexivity|].
  apply (@X8_full_range_keeps_all pageAtStart scenario s0 [DragFrom 2021] H).
Defined.

Lemma X10_witness :
  valueOr [] (renderAuthorsRanking codeUnitCompare crowd) <> []
  /\ length (valueOr [] (renderAuthorsRanking codeUnitCompare crowd)) = 26%nat
  /\ exists rows button,
       rankingView (valueOr [] (renderAuthorsRanking codeUnitCompare crowd))
       = AuthorsList rows button
       /\ List.map row_author rows
          = valueOr [] (renderAuthorsRanking codeUnitCompare crowd)
       /\ (forall i row, nth_error rows i = Some row ->
             hiddenClass row = displayNone row
             /\ (displayNone row = true <-> (25 <= i)%nat))
       /\ length (List.filter (fun row => negb (displayNone row)) rows)
          = Nat.min
              (length (valueOr [] (renderAuthorsRanking codeUnitCompare crowd)))
              25
       /\ ((25 < length (valueOr []
                           (renderAuthorsRanking codeUnitCompare crowd)))%nat ->
           button
           = Some (ShowAllAuthors
                     (length (valueOr []
                                (renderAuthorsRanking codeUnitCompare crowd)))))
       /\ ((length (valueOr [] (renderAuthorsRanking codeUnitCompare crowd))
            <= 25)%nat -> button = None).
Proof.
  assert (H : valueOr [] (renderAuthorsRanking codeUnitCompare crowd) <> [])
    by (vm_compute; discriminate).
  split; [exact H|]. split; [vm_compute; reflexivity|].
  apply (@X10_first_25_shown
           (valueOr [] (renderAuthorsRanking codeUnitCompare crowd)) H).
Defined.

Lemma X11_witness :
  (25 < length (valueOr [] (renderAuthorsRanking codeUnitCompare crowd)))%nat
  /\ exists rows,
       toggleList false
         (rankingView (valueOr [] (renderAuthorsRanking codeUnitCompare crowd)))
       = (Normal tt, (true, AuthorsList rows (Some ShowLess)))
       /\ List.map row_author rows
          = valueOr [] (renderAuthorsRanking codeUnitCompare crowd)
       /\ (forall row, In row rows -> displayNone row = false)
       /\ toggleList true (AuthorsList rows (Some ShowLess))
          = (Normal tt,
             (false,
              rankingView
                (valueOr [] (renderAuthorsRanking codeUnitCompare crowd)))).
Proof.
  assert (H : (25 < length (valueOr []
                              (renderAuthorsRanking codeUnitCompare crowd)))%nat)
    by (vm_compute; repeat constructor).
  split; [exact H|].
  apply (@X11_toggle_round_trip
           (valueOr [] (renderAuthorsRanking codeUnitCompare crowd)) H).
Defined.

Lemma X12_witness :
  authorsExpanded (snd (toggleAuthorsList (loaded crowd))) = true
  /\ authorsContainer
       (snd (handlePage codeUnitCompare (ClickVenue (js "all"))
               (snd (toggleAuthorsList (loaded crowd)))))
     = Some (rankingView
               (valueOr [] (renderAuthorsRanking codeUnitCompare crowd)))
  /\ (25 < length (valueOr []
                     (renderAuthorsRanking codeUnitCompare crowd)))%nat
  /\ exists pg',
       toggleAuthorsList
         (snd (handlePage codeUnitCompare (ClickVenue (js "all"))
                 (snd (toggleAuthorsList (loaded crowd)))))
       = (Normal tt, pg')
       /\ authorsExpanded pg' = false
       /\ authorsContainer pg'
          = Some (rankingView
                    (valueOr [] (renderAuthorsRanking codeUnitCompare crowd)))
       /\ papersContainer pg'
          = papersContainer
              (snd (handlePage codeUnitCompare (ClickVenue (js "all"))
                      (snd (toggleAuthorsList (loaded crowd)))))
       /\ firstAuthorsContainer pg'
          = firstAuthorsContainer
              (snd (handlePage codeUnitCompare (ClickVenue (js "all"))
                      (snd (toggleAuthorsList (loaded crowd))))).
Proof.
  assert (F : authorsExpanded (snd (toggleAuthorsList (loaded crowd))) = true)
    by (vm_compute; reflexivity).
  assert (V : authorsContainer
                (snd (handlePage codeUnitCompare (ClickVenue (js "all"))
                        (snd (toggleAuthorsList (loaded crowd)))))
              = Some (rankingView
                        (valueOr []
                           (renderAuthorsRanking codeUnitCompare crowd))))
    by (vm_compute; reflexivity).
  assert (H : (25 < length (valueOr []
                              (renderAuthorsRanking codeUnitCompare crowd)))%nat)
    by (vm_compute; repeat constructor).
  split; [exact F|]. split; [exact V|]. split; [exact H|].
  apply (@X12_toggle_after_rerender codeUnitCompare (ClickVenue (js "all"))
           (snd (toggleAuthorsList (loaded crowd)))
           (valueOr [] (renderAuthorsRanking codeUnitCompare crowd)) F V H).
Defined.

Lemma X13_witness :
  loadPage codeUnitCompare (Fetched [paperP1; paperConstructor]) pageBeforeLoad
  = loaded [paperP1; paperConstructor]
  /\ papersContainer (loaded [paperP1; paperConstructor])
     = Some ErrorLoadingPapers
  /\ (papersContainer (loaded [paperP1; paperConstructor])
      = Some ErrorLoadingPapers
      <-> (Fetched [paperP1; paperConstructor] = Rejected
           \/ exists papers p n,
                Fetched [paperP1; paperConstructor] = Fetched papers
                /\ In p papers /\ In n (namesAll p) /\ inherited n = true))
  /\ (papersContainer (loaded [paperP1; paperConstructor])
      = Some ErrorLoadingPapers ->
      listening (loaded [paperP1; paperConstructor])
      = listening pageBeforeLoad
      /\ authorsContainer (loaded [paperP1; paperConstructor])
         = authorsContainer pageBeforeLoad
      /\ firstAuthorsContainer (loaded [paperP1; paperConstructor])
         = firstAuthorsContainer pageBeforeLoad)
  /\ (papersContainer (loaded [paperP1; paperConstructor])
      <> Some ErrorLoadingPapers ->
      exists papers,
        Fetched [paperP1; paperConstructor] = Fetched papers
        /\ allPapers (loaded [paperP1; paperConstructor]) = papers
        /\ listening (loaded [paperP1; paperConstructor]) = true
        /\ Shows codeUnitCompare (loaded [paperP1; paperConstructor]) papers).
Proof.
  assert (L : loadPage codeUnitCompare (Fetched [paperP1; paperConstructor])
                pageBeforeLoad
              = loaded [paperP1; paperConstructor])
    by reflexivity.
  split; [exact L|]. split; [vm_compute; reflexivity|].
  apply (@X13_load_outcome codeUnitCompare
           (Fetched [paperP1; paperConstructor]) pageBeforeLoad
           (loaded [paperP1; paperConstructor]) L).
Defined.

Lemma X14_witness :
  loadPage codeUnitCompare (Fetched scenario) pageBeforeLoad = loaded scenario
  /\ currentVenue pageBeforeLoad = js "all"
  /\ SafeYears scenario
  /\ papersContainer (loaded scenario) <> Some ErrorLoadingPapers
  /\ papersContainer
       (snd (handleAllPage codeUnitCompare
               [ClickVenue (js "CCS"); OnRange (DragFrom 2021)]
               (loaded scenario)))
     = Some NoPapersFound
  /\ exists pg',
       handleAllPage codeUnitCompare
         [ClickVenue (js "CCS"); OnRange (DragFrom 2021)] (loaded scenario)
       = (List.map (fun _ => Normal tt)
                   [ClickVenue (js "CCS"); OnRange (DragFrom 2021)], pg')
       /\ allPapers pg' = scenario
       /\ Shows codeUnitCompare pg'
            (applyFilters scenario (currentVenue pg')
                          (yearFrom (range pg')) (yearTo (range pg')))
       /\ (scenario <> [] ->
           exists lo hi f t,
             minYear (range (loaded scenario)) = Fin lo
             /\ maxYear (range (loaded scenario)) = Fin hi
             /\ yearFrom (range pg') = Some (Fin f)
             /\ yearTo (range pg') = Some (Fin t)
             /\ lo <= f /\ f <= t /\ t <= hi
             /\ Shows codeUnitCompare pg'
                  (List.filter (keeps (currentVenue pg') f t) scenario)).
Proof.
  assert (L : loadPage codeUnitCompare (Fetched scenario) pageBeforeLoad
              = loaded scenario) by reflexivity.
  assert (V : currentVenue pageBeforeLoad = js "all") by reflexivity.
  assert (Y : SafeYears scenario).
  { intros p [<-|[<-|[]]]; vm_compute; discriminate. }
  assert (NE : papersContainer (loaded scenario) <> Some ErrorLoadingPapers)
    by (vm_compute; discriminate).
  split; [exact L|]. split; [exact V|]. split; [exact Y|]. split; [exact NE|].
  split; [vm_compute; reflexivity|].
  apply (@X14_containers_follow_filters codeUnitCompare scenario
           pageBeforeLoad (loaded scenario)
           [ClickVenue (js "CCS"); OnRange (DragFrom 2021)] L V Y NE).
Defined.

Lemma X15_witness :
  loadPage codeUnitCompare Rejected pageBeforeLoad
  = setPapersContainer pageBeforeLoad ErrorLoadingPapers
  /\ listening pageBeforeLoad = false
  /\ papersContainer (setPapersContainer pageBeforeLoad ErrorLoadingPapers)
     = Some ErrorLoadingPapers
  /\ exists pg',
       handleAllPage codeUnitCompare
         [ClickVenue (js "CCS"); OnRange ClickReset]
         (setPapersContainer pageBeforeLoad ErrorLoadingPapers)
       = (List.map (fun _ => Normal tt)
                   [ClickVenue (js "CCS"); OnRange ClickReset], pg')
       /\ papersContainer pg' = Some ErrorLoadingPapers
       /\ authorsContainer pg' = authorsContainer pageBeforeLoad
       /\ firstAuthorsContainer pg' = firstAuthorsContainer pageBeforeLoad
       /\ listening pg' = false.
Proof.
  assert (L : loadPage codeUnitCompare Rejected pageBeforeLoad
              = setPapersContainer pageBeforeLoad ErrorLoadingPapers)
    by reflexivity.
  assert (Li : listening pageBeforeLoad = false) by reflexivity.
  assert (E : papersContainer
                (setPapersContainer pageBeforeLoad ErrorLoadingPapers)
              = Some ErrorLoadingPapers) by reflexivity.
  split; [exact L|]. split; [exact Li|]. split; [exact E|].
  apply (@X15_failed_load_is_final codeUnitCompare Rejected pageBeforeLoad
           (setPapersContainer pageBeforeLoad ErrorLoadingPapers)
           [ClickVenue (js "CCS"); OnRange ClickReset] L Li E).
Defined.

Lemma X17_witness :
  ~ Occurs (js "-pane") (js "first-authors")
  /\ shownTabUrl (js "#" ++ js "first-authors" ++ js "-pane")
     = js "#" ++ js "first-authors"
  /\ initTabFromHash (shownTabUrl (js "#" ++ js "first-authors" ++ js "-pane"))
     = Some (js "first-authors" ++ js "-tab").
Proof.
  assert (H : ~ Occurs (js "-pane") (js "first-authors")).
  { intros [pre [post E]]. unfold js in E. simpl in E.
    repeat (destruct pre as [|? pre]; simpl in E;
            [discriminate E | injection E as _ E]).
    destruct pre; discriminate E. }
  split; [exact H|].
  apply (@X17_tab_hash_round_trip (js "first-authors") H).
Defined.

Lemma X9_witness :
  SafeYears scenario
  /\ renderPapers scenario
     = Normal (YearSections [(js "2021", [paperP2]); (js "2020", [paperP1])])
  /\ exists view,
       renderPapers scenario = Normal view
       /\ (view = NoPapersFound <-> scenario = [])
       /\ (scenario <> [] ->
           exists ys,
             view = YearSections (sectionsOf scenario ys)
             /\ StronglySorted Z.gt ys
             /\ (forall y, In y ys <-> exists p, In p scenario /\ year p = y)
             /\ Permutation (flat_map snd (sectionsOf scenario ys)) scenario).
Proof.
  assert (Y : SafeYears scenario).
  { intros p [<-|[<-|[]]]; vm_compute; discriminate. }
  split; [exact Y|]. split; [vm_compute; reflexivity|].
  apply (@X9_papers_grouped_by_year scenario Y).
Defined.

Lemma X18_witness :
  SafeYears scenario
  /\ renderPapers scenario
     = Normal (YearSections [(js "2021", [paperP2]); (js "2020", [paperP1])])
  /\ restrictSections (keeps (js "CCS") 2019 2025)
       [(js "2021", [paperP2]); (js "2020", [paperP1])]
     = [(js "2020", [paperP1])]
  /\ renderPapers
       (applyFilters scenario (js "CCS") (Some (Fin 2019)) (Some (Fin 2025)))
     = Normal (viewOfSections
                 (restrictSections (keeps (js "CCS") 2019 2025)
                    [(js "2021", [paperP2]); (js "2020", [paperP1])])).
Proof.
  assert (Y : SafeYears scenario).
  { intros p [<-|[<-|[]]]; vm_compute; discriminate. }
  assert (H : renderPapers scenario
              = Normal (YearSections [(js "2021", [paperP2]);
                                      (js "2020", [paperP1])]))
    by (vm_compute; reflexivity).
  split; [exact Y|]. split; [exact H|]. split; [vm_compute; reflexivity|].
  apply (@X18_sections_of_filtered scenario (js "CCS") 2019 2025
           [(js "2021", [paperP2]); (js "2020", [paperP1])] Y H).
Defined.
